(** * ZCF configuration store: a shallow embedding of [src/utils/zcf-config.ts]

    The development follows the source file top to bottom:

    - [JsText]: JavaScript strings as lists of UTF-16 code units, with the
      handful of [String.prototype] operations the source uses;
    - [TopLevel]: the top-level field patcher ([insertAtTopLevelStart],
      [insertAfterVersionField], [updateTopLevelTomlFields]);
    - [Js]: untyped JavaScript values ([any]) and the operators [||], [??],
      [?.], [===], [typeof];
    - [MiniToml]: a small codec and editor of documents, on which the
      examples run: [toml-edit.ts] is not in the sources;
    - [Store]: the file system with failing operations, the legacy-location
      migration and the read / write / update operations of the store;
    - [StoreApi]: the rest of the store ([updateTomlConfig], [getZcfConfig]
      and the thin wrappers);
    - [OutputStyles]: the output styles of [src/utils/output-style.ts], over
      the file operations that the module imports;
    - [FieldSearch]: the notions used to read the patched fields back. *)
From stdpp Require Import gmap strings list fin_maps pretty.
From Stdlib Require Import NArith ZArith Lia.

(* ===================================================================== *)
(** * JavaScript strings                                                  *)
(* ===================================================================== *)

Module JsText.
Local Open Scope N_scope.

(** A JavaScript string is a sequence of UTF-16 code units. *)
Definition jsstring := list N.

(** An ASCII literal of the source, as code units. *)
Definition lit (s : string) : jsstring :=
  map Ascii.N_of_ascii (String.list_ascii_of_string s).

Definition NL : N := 10.
Definition CR : N := 13.
Definition TAB : N := 9.
Definition SPACE : N := 32.
Definition HASH : N := 35.
Definition DOLLAR : N := 36.
Definition DQUOTE : N := 34.
Definition SQUOTE : N := 39.
Definition EQUALS : N := 61.
Definition LBRACKET : N := 91.

(** ECMAScript [LineTerminator]: LF, CR, LS, PS.  In a regular expression
    with the [m] flag, [^] and [$] match next to any of them, and [.]
    matches none of them. *)
Definition is_line_terminator (c : N) : bool :=
  (c =? 10) || (c =? 13) || (c =? 8232) || (c =? 8233).

(** ECMAScript [WhiteSpace] and [LineTerminator]: the class [\s] of regular
    expressions and the characters removed by [String.prototype.trim]. *)
Definition is_white_space (c : N) : bool :=
  (c =? 9) || (c =? 10) || (c =? 11) || (c =? 12) || (c =? 13) || (c =? 32)
  || (c =? 160) || (c =? 5760) || ((8192 <=? c) && (c <=? 8202))
  || (c =? 8232) || (c =? 8233) || (c =? 8239) || (c =? 8287)
  || (c =? 12288) || (c =? 65279).

Definition is_quote (c : N) : bool := (c =? DQUOTE) || (c =? SQUOTE).

Definition is_blank (c : N) : bool := (c =? SPACE) || (c =? TAB).

(** [s.split('\n')]: always at least one piece. *)
Fixpoint split_lines (s : jsstring) : list jsstring :=
  match s with
  | [] => [[]]
  | c :: s' =>
      if c =? NL then [] :: split_lines s'
      else match split_lines s' with
           | l :: ls => (c :: l) :: ls
           | [] => [[c]]
           end
  end.

(** [lines.join('\n')]. *)
Fixpoint join_lines (ls : list jsstring) : jsstring :=
  match ls with
  | [] => []
  | [l] => l
  | l :: ls' => l ++ NL :: join_lines ls'
  end.

(** [s.trim()]: white space and line terminators are removed at both ends. *)
Fixpoint trim_start (s : jsstring) : jsstring :=
  match s with
  | c :: s' => if is_white_space c then trim_start s' else s
  | [] => []
  end.

Definition trim (s : jsstring) : jsstring :=
  reverse (trim_start (reverse (trim_start s))).

(** [s.startsWith(p)]. *)
Fixpoint starts_with (p s : jsstring) : bool :=
  match p, s with
  | [], _ => true
  | a :: p', b :: s' => (a =? b) && starts_with p' s'
  | _ :: _, [] => false
  end.

(** [s.endsWith(p)]. *)
Definition ends_with (p s : jsstring) : bool :=
  starts_with (reverse p) (reverse s).

(** [lines.splice(i, 0, x)] for [i <= lines.length]. *)
Definition splice_in {A} (i : nat) (x : A) (ls : list A) : list A :=
  take i ls ++ x :: drop i ls.

(** [s.replace(/\n$/, '')]: without the [m] flag [$] is the end of the
    input, so at most the final line feed goes. *)
Fixpoint strip_final_newline (s : jsstring) : jsstring :=
  match s with
  | [] => []
  | [c] => if c =? NL then [] else [c]
  | c :: s' => c :: strip_final_newline s'
  end.

(** The replacement patterns of [String.prototype.replace] when the regular
    expression has no capture group: [$$], [$&], [$`] and [$'] are
    substituted, every other [$] stands for itself. *)
Fixpoint expand_replacement (tpl matched before after : jsstring) : jsstring :=
  match tpl with
  | [] => []
  | c :: tpl' =>
      if c =? DOLLAR then
        match tpl' with
        | d :: tpl'' =>
            if d =? DOLLAR then DOLLAR :: expand_replacement tpl'' matched before after
            else if d =? 38 then matched ++ expand_replacement tpl'' matched before after
            else if d =? 96 then before ++ expand_replacement tpl'' matched before after
            else if d =? SQUOTE then after ++ expand_replacement tpl'' matched before after
            else c :: expand_replacement tpl' matched before after
        | [] => [c]
        end
      else c :: expand_replacement tpl' matched before after
  end.

End JsText.

(* ===================================================================== *)
(** * The top-level field patcher                                         *)
(* ===================================================================== *)

Module TopLevel.
Import JsText.
Local Open Scope N_scope.

(** ** The two field patterns

    The source has one regular expression per field, with the flag [m].
    Its elements are, in order: the start of a line; the literal key
    ([version] or [lastUpdated]); a run of white space; the sign [=]; a run
    of white space; a single or double quote; a run of code units that are
    not quotes; a single or double quote; a run of spaces and tabs; an
    optional comment, from [#] up to the line terminator; the end of a line.
    Every run is greedy, and the class of every run is disjoint from the
    element that follows it, so the backtracking matcher of JavaScript never
    has a choice: after the literal key the match is the run of the
    following automaton, one state per run of the pattern.

    - [FEq]: in the first run of white space, waiting for [=];
    - [FOpen]: in the second run of white space, waiting for the quote;
    - [FValue]: in the run of non-quotes, waiting for the closing quote;
    - [FTail]: in the run of spaces and tabs; a [#] opens the comment, and
      the end of the line is a line terminator ahead or the end of input;
    - [FComment]: in the comment, which stops at a line terminator. *)
Inductive fstate := FEq | FOpen | FValue | FTail | FComment.

(** [field_run q s n]: the pattern, continued in state [q] on [s] after [n]
    matched code units; the result is the length of the match. *)
Fixpoint field_run (q : fstate) (s : jsstring) (n : nat) : option nat :=
  match s with
  | [] => match q with FTail | FComment => Some n | _ => None end
  | c :: s' =>
      match q with
      | FEq =>
          if c =? EQUALS then field_run FOpen s' (S n)
          else if is_white_space c then field_run FEq s' (S n)
          else None
      | FOpen =>
          if is_quote c then field_run FValue s' (S n)
          else if is_white_space c then field_run FOpen s' (S n)
          else None
      | FValue =>
          if is_quote c then field_run FTail s' (S n)
          else field_run FValue s' (S n)
      | FTail =>
          if is_line_terminator c then Some n
          else if is_blank c then field_run FTail s' (S n)
          else if c =? HASH then field_run FComment s' (S n)
          else None
      | FComment =>
          if is_line_terminator c then Some n
          else field_run FComment s' (S n)
      end
  end.

(** The literal key at the head of the pattern. *)
Fixpoint strip_key (key s : jsstring) : option jsstring :=
  match key, s with
  | [], _ => Some s
  | k :: key', c :: s' => if k =? c then strip_key key' s' else None
  | _ :: _, [] => None
  end.

(** The pattern tried at one position that [^] accepts: the length of the
    match, if any. *)
Definition field_match_here (key s : jsstring) : option nat :=
  match strip_key key s with
  | Some s' => field_run FEq s' (length key)
  | None => None
  end.

(** [s.match(re)] without the [g] flag: the leftmost position where the
    pattern matches, with the length of the match.  [bol] tells whether [^]
    accepts the current position (start of input, or just after a line
    terminator); [i] is the index of the current position. *)
Fixpoint field_search_from (key : jsstring) (bol : bool) (s : jsstring) (i : nat)
  : option (nat * nat) :=
  match (if bol then field_match_here key s else None) with
  | Some len => Some (i, len)
  | None =>
      match s with
      | [] => None
      | c :: s' => field_search_from key (is_line_terminator c) s' (S i)
      end
  end.

Definition field_search (key s : jsstring) : option (nat * nat) :=
  field_search_from key true s 0.

(** [s.replace(re, tpl)] without the [g] flag. *)
Definition field_replace (key tpl s : jsstring) : jsstring :=
  match field_search key s with
  | Some (i, len) =>
      take i s
      ++ expand_replacement tpl (take len (drop i s)) (take i s) (drop (i + len) s)
      ++ drop (i + len) s
  | None => s
  end.

Definition version_key : jsstring := lit "version".
Definition lastUpdated_key : jsstring := lit "lastUpdated".

(** The template literals of the source: the key, [ = ], and the value
    between double quotes. *)
Definition version_line (version : jsstring) : jsstring :=
  lit "version = " ++ DQUOTE :: version ++ [DQUOTE].
Definition lastUpdated_line (lastUpdated : jsstring) : jsstring :=
  lit "lastUpdated = " ++ DQUOTE :: lastUpdated ++ [DQUOTE].

(** The index of [content.match(/^\[/m)]: the first opening bracket at the
    start of a line. *)
Fixpoint section_search_from (bol : bool) (s : jsstring) (i : nat) : option nat :=
  match s with
  | [] => None
  | c :: s' =>
      if bol && (c =? LBRACKET) then Some i
      else section_search_from (is_line_terminator c) s' (S i)
  end.

Definition topLevelEnd (content : jsstring) : nat :=
  default (length content) (section_search_from true content 0).

(** ** [insertAtTopLevelStart] *)

(** The test of the loop body: [trimmed === '' || trimmed.startsWith('#')]. *)
Definition blank_or_comment (line : jsstring) : bool :=
  match trim line with
  | [] => true
  | c :: _ => c =? HASH
  end.

(** The [for] loop: [i] is the loop index and [acc] the current value of
    [insertLineIndex]. *)
Fixpoint insert_line_index (lines : list jsstring) (i acc : nat) : nat :=
  match lines with
  | [] => acc
  | l :: ls =>
      if blank_or_comment l then insert_line_index ls (S i) (S i)
      else i
  end.

Definition insertAtTopLevelStart (topLevel content : jsstring) : jsstring :=
  let lines := split_lines topLevel in
  let insertLineIndex := insert_line_index lines 0 0 in
  join_lines (splice_in insertLineIndex (strip_final_newline content) lines).

(** ** [insertAfterVersionField] *)

Definition insertAfterVersionField (topLevel content : jsstring) : jsstring :=
  match field_search version_key topLevel with
  | Some (index, len) =>
      let versionEnd := (index + len)%nat in
      let before := take versionEnd topLevel in
      let after := drop versionEnd topLevel in
      before ++ NL :: strip_final_newline content ++ after
  | None => insertAtTopLevelStart topLevel content
  end.

(** ** [updateTopLevelTomlFields] *)

(** The top-level span after the version step. *)
Definition patch_version (topLevel version : jsstring) : jsstring :=
  match field_search version_key topLevel with
  | Some _ => field_replace version_key (version_line version) topLevel
  | None => insertAtTopLevelStart topLevel (version_line version)
  end.

(** The top-level span after the lastUpdated step. *)
Definition patch_lastUpdated (topLevel lastUpdated : jsstring) : jsstring :=
  match field_search lastUpdated_key topLevel with
  | Some _ => field_replace lastUpdated_key (lastUpdated_line lastUpdated) topLevel
  | None => insertAfterVersionField topLevel (lastUpdated_line lastUpdated)
  end.

(** The top-level span after both steps, before the final line feed. *)
Definition patched_top (content version lastUpdated : jsstring) : jsstring :=
  patch_lastUpdated (patch_version (take (topLevelEnd content) content) version)
                    lastUpdated.

Definition updateTopLevelTomlFields (content version lastUpdated : jsstring)
  : jsstring :=
  let topLevel := patched_top content version lastUpdated in
  let rest := drop (topLevelEnd content) content in
  let topLevel :=
    if negb (length rest =? 0)%nat
       && negb (ends_with [NL; NL] topLevel) && negb (ends_with [NL] topLevel)
    then topLevel ++ [NL] else topLevel in
  topLevel ++ rest.

(** The top-level span of the result: the result without the rest. *)
Definition final_top (content version lastUpdated : jsstring) : jsstring :=
  let result := updateTopLevelTomlFields content version lastUpdated in
  take (length result - length (drop (topLevelEnd content) content)) result.

(** ** Notions used in the statements *)

(** A value that can stand between the quotes of the version line: no
    quote and no line terminator. *)
Definition plain_value (v : jsstring) : Prop :=
  Forall (fun c => is_quote c = false ∧ is_line_terminator c = false) v.

(** A value without quote, white space or [#]. *)
Definition clean_value (v : jsstring) : Prop :=
  Forall (fun c => is_quote c = false ∧ is_white_space c = false
                   ∧ (c =? HASH) = false) v.

(** A tail of the document at a line boundary: nothing, or a line feed and
    more text. *)
Definition line_tail (Y : jsstring) : Prop := Y = [] ∨ ∃ B, Y = NL :: B.

(** The number of line feeds at the end of a text. *)
Fixpoint leading_newlines (s : jsstring) : nat :=
  match s with
  | c :: s' => if c =? NL then S (leading_newlines s') else 0
  | [] => 0
  end.
Definition trailing_newlines (s : jsstring) : nat := leading_newlines (reverse s).

(** [p] occurs in [s]. *)
Fixpoint occurs (p s : jsstring) : bool :=
  starts_with p s
  || match s with
     | [] => false
     | _ :: s' => occurs p s'
     end.

(** An occurrence of [p] in [s] is followed, later, by one of [q]. *)
Fixpoint occurs_before (p q s : jsstring) : bool :=
  (starts_with p s && occurs q (drop (length p) s))
  || match s with
     | [] => false
     | _ :: s' => occurs_before p q s'
     end.

(** ** Documents for the examples *)

(** A header comment and one section. *)
Definition header_document : jsstring :=
  lit "# zcf configuration" ++ NL :: lit "[general]"
  ++ NL :: lit "preferredLang = 'en'" ++ [NL].

(** A top-level key, a blank line and one section. *)
Definition spaced_document : jsstring :=
  lit "title = 'zcf'" ++ NL :: NL :: lit "[general]" ++ [NL].

(** One section and nothing before it. *)
Definition section_only_document : jsstring := lit "[general]" ++ [NL].

(** The version [1], a double quote, [0]. *)
Definition quoted_version : jsstring := lit "1" ++ DQUOTE :: lit "0".

End TopLevel.

(* ===================================================================== *)
(** * Untyped JavaScript values                                           *)
(* ===================================================================== *)

Module Js.
Set Warnings "-register-all".
Local Open Scope string_scope.

(** The values that flow through the store: the TypeScript annotations are
    erased at run time, and the legacy files are arbitrary JSON.  Numbers
    are restricted to integers. *)
Inductive value :=
  | Undefined
  | Null
  | Bool (b : bool)
  | Num (n : Z)
  | Str (s : string)
  | Arr (items : list value)
  | Obj (fields : list (string * value)).

(** [ToBoolean]. *)
Definition truthy (v : value) : bool :=
  match v with
  | Undefined | Null => false
  | Bool b => b
  | Num n => negb (n =? 0)%Z
  | Str s => negb (String.eqb s "")
  | Arr _ | Obj _ => true
  end.

(** [a || b]. *)
Definition or_else (a b : value) : value := if truthy a then a else b.

(** [v == null]: [null] or [undefined]. *)
Definition nullish (v : value) : bool :=
  match v with
  | Undefined | Null => true
  | _ => false
  end.

(** [a ?? b]. *)
Definition coalesce (a b : value) : value :=
  match a with
  | Undefined | Null => b
  | _ => a
  end.

Fixpoint lookup_field (k : string) (fields : list (string * value)) : value :=
  match fields with
  | [] => Undefined
  | (k', v) :: rest => if String.eqb k k' then v else lookup_field k rest
  end.

(** [o.k] on a value that is not nullish, and [o?.k] on any value.  The
    keys read by the source are not properties of the primitive wrappers
    or of arrays, so only objects answer. *)
Definition get (o : value) (k : string) : value :=
  match o with
  | Obj fields => lookup_field k fields
  | _ => Undefined
  end.

Fixpoint update_field (k : string) (v : value) (fields : list (string * value))
  : list (string * value) :=
  match fields with
  | [] => [(k, v)]
  | (k', v') :: rest =>
      if String.eqb k k' then (k, v) :: rest
      else (k', v') :: update_field k v rest
  end.

(** [o.k = v] on an object, and [{ ...o, k: v }]. *)
Definition set (o : value) (k : string) (v : value) : value :=
  match o with
  | Obj fields => Obj (update_field k v fields)
  | _ => o
  end.

(** [{ ...o }]: nullish values spread to the empty object. *)
Definition spread (o : value) : value :=
  match o with
  | Obj fields => Obj fields
  | _ => Obj []
  end.

(** [{ ...a, ...b }]. *)
Definition merge (a b : value) : value :=
  match b with
  | Obj fields => fold_left (fun o kv => set o kv.1 kv.2) fields (spread a)
  | _ => spread a
  end.

(** [typeof v === 'string'] and [Array.isArray(v)]. *)
Definition is_string (v : value) : bool :=
  match v with Str _ => true | _ => false end.
Definition is_array (v : value) : bool :=
  match v with Arr _ => true | _ => false end.

(** [v === 'literal']. *)
Definition same_string (v : value) (s : string) : bool :=
  match v with Str s' => String.eqb s' s | _ => false end.

(** [v !== undefined]. *)
Definition is_defined (v : value) : bool :=
  match v with Undefined => false | _ => true end.

(** A scalar or an array: a value the serializer writes as it is. *)
Definition flat (v : value) : Prop :=
  match v with
  | Undefined | Null | Obj _ => False
  | _ => True
  end.

(** [list.includes(v)] for a list of strings. *)
Definition includes (l : list string) (v : value) : bool :=
  existsb (same_string v) l.

(** [ToString], as a template literal applies it. *)
Fixpoint to_string (v : value) : string :=
  match v with
  | Undefined => "undefined"
  | Null => "null"
  | Bool true => "true"
  | Bool false => "false"
  | Num n => pretty n
  | Str s => s
  | Arr items =>
      (fix join (l : list value) : string :=
         match l with
         | [] => ""
         | [x] => match x with Undefined | Null => "" | _ => to_string x end
         | x :: l' =>
             (match x with Undefined | Null => "" | _ => to_string x end)
             ++ "," ++ join l'
         end) items
  | Obj _ => "[object Object]"
  end.

(** [s.replace(pat, rep)] with a string pattern: the first occurrence. *)
Fixpoint replace_first (pat rep s : string) : string :=
  if String.prefix pat s
  then rep ++ String.substring (String.length pat)
                               (String.length s - String.length pat) s
  else match s with
       | EmptyString => EmptyString
       | String c s' => String c (replace_first pat rep s')
       end.

(** No [.toml] starts inside [base] when [.toml] is appended to it: the
    extension is the first occurrence. *)
Fixpoint extension_only (base : string) : bool :=
  match base with
  | EmptyString => true
  | String _ base' =>
      negb (String.prefix ".toml" (base ++ ".toml")) && extension_only base'
  end.

End Js.

(* ===================================================================== *)
(** * A small codec for the examples                                      *)
(* ===================================================================== *)

(** The codec and the editor of [toml-edit.ts] are not in the sources.  The
    store is modelled for any choice of them; the examples run on this
    small one: documents of top-level [key = value] lines followed by
    [[section]] headers with their [key = value] lines, with comments,
    strings between quotes, booleans, integers, arrays and inline tables. *)
Module MiniToml.
Import JsText Js.
Local Open Scope N_scope.

Definition RBRACKET : N := 93.
Definition LBRACE : N := 123.
Definition RBRACE : N := 125.
Definition COMMA : N := 44.
Definition MINUS : N := 45.

Definition text_string (s : jsstring) : string :=
  String.string_of_list_ascii (map Ascii.ascii_of_N s).

(** ** The serializer *)

Fixpoint print_value (v : value) : jsstring :=
  match v with
  | Undefined | Null => []
  | Bool true => lit "true"
  | Bool false => lit "false"
  | Num n => lit (pretty n)
  | Str s => DQUOTE :: lit s ++ [DQUOTE]
  | Arr items =>
      LBRACKET ::
      (fix go (l : list value) : jsstring :=
         match l with
         | [] => []
         | [x] => print_value x
         | x :: l' => print_value x ++ lit ", " ++ go l'
         end) items ++ [RBRACKET]
  | Obj fields =>
      LBRACE ::
      (fix go (l : list (string * value)) : jsstring :=
         match l with
         | [] => []
         | [(k, x)] => lit k ++ lit " = " ++ print_value x
         | (k, x) :: l' => lit k ++ lit " = " ++ print_value x ++ lit ", " ++ go l'
         end) fields ++ [RBRACE]
  end.

Definition print_line (kv : string * value) : jsstring :=
  lit kv.1 ++ lit " = " ++ print_value kv.2.

Definition is_section (kv : string * value) : bool :=
  match kv.2 with Obj _ => true | _ => false end.

Definition print_section (kv : string * value) : list jsstring :=
  match kv.2 with
  | Obj fields => [] :: (LBRACKET :: lit kv.1 ++ [RBRACKET]) :: map print_line fields
  | _ => []
  end.

(** The top-level scalars, then the sections, each after a blank line. *)
Definition print (table : list (string * value)) : jsstring :=
  join_lines (map print_line (filter (fun kv => is_section kv = false) table)
              ++ concat (map print_section table) ++ [[]]).

(** ** The parser *)

Fixpoint skip_blank (s : jsstring) : jsstring :=
  match s with
  | c :: s' => if is_blank c then skip_blank s' else s
  | [] => []
  end.

(** The text before the first character that [stop] accepts, and the text
    from that character on. *)
Fixpoint take_until (stop : N → bool) (s : jsstring) : jsstring * jsstring :=
  match s with
  | [] => ([], [])
  | c :: s' =>
      if stop c then ([], s)
      else let '(a, b) := take_until stop s' in (c :: a, b)
  end.

Definition is_digit (c : N) : bool := (48 <=? c) && (c <=? 57).

Definition digits_value (ds : jsstring) : Z :=
  fold_left (fun acc d => (10 * acc + Z.of_N (d - 48))%Z) ds 0%Z.

(** Nothing is left on the line but blanks and a comment. *)
Definition line_end (s : jsstring) : bool :=
  match skip_blank s with
  | [] => true
  | c :: _ => (c =? HASH) || (c =? CR)
  end.

(** The items of an array after its opening bracket. *)
Fixpoint parse_items (item : jsstring → option (value * jsstring)) (fuel : nat)
    (s : jsstring) (acc : list value) : option (value * jsstring) :=
  match fuel with
  | O => None
  | S fuel' =>
      match skip_blank s with
      | [] => None
      | c :: s' =>
          if c =? RBRACKET then Some (Arr (reverse acc), s')
          else
            match item (c :: s') with
            | None => None
            | Some (v, rest) =>
                match skip_blank rest with
                | d :: rest' =>
                    if d =? COMMA then parse_items item fuel' rest' (v :: acc)
                    else if d =? RBRACKET then Some (Arr (reverse (v :: acc)), rest')
                    else None
                | [] => None
                end
            end
      end
  end.

(** The pairs of an inline table after its opening brace. *)
Fixpoint parse_pairs (item : jsstring → option (value * jsstring)) (fuel : nat)
    (s : jsstring) (acc : list (string * value)) : option (value * jsstring) :=
  match fuel with
  | O => None
  | S fuel' =>
      match skip_blank s with
      | [] => None
      | c :: s' =>
          if c =? RBRACE then Some (Obj (reverse acc), s')
          else
            let '(key, rest) :=
              take_until (fun x => is_blank x || (x =? EQUALS)) (c :: s') in
            match skip_blank rest with
            | e :: rest' =>
                if e =? EQUALS then
                  match item (skip_blank rest') with
                  | None => None
                  | Some (v, rest'') =>
                      match skip_blank rest'' with
                      | d :: rest''' =>
                          if d =? COMMA
                          then parse_pairs item fuel' rest''' ((text_string key, v) :: acc)
                          else if d =? RBRACE
                          then Some (Obj (reverse ((text_string key, v) :: acc)), rest''')
                          else None
                      | [] => None
                      end
                  end
                else None
            | [] => None
            end
      end
  end.

Fixpoint parse_value (fuel : nat) (s : jsstring) : option (value * jsstring) :=
  match fuel with
  | O => None
  | S fuel' =>
      match s with
      | [] => None
      | c :: s' =>
          if is_quote c then
            let '(body, rest) := take_until (fun x => x =? c) s' in
            match rest with
            | _ :: rest' => Some (Str (text_string body), rest')
            | [] => None
            end
          else if starts_with (lit "true") s then Some (Bool true, drop 4 s)
          else if starts_with (lit "false") s then Some (Bool false, drop 5 s)
          else if c =? LBRACKET then parse_items (parse_value fuel') (length s) s' []
          else if c =? LBRACE then parse_pairs (parse_value fuel') (length s) s' []
          else if is_digit c then
            let '(ds, rest) := take_until (fun x => negb (is_digit x)) s in
            Some (Num (digits_value ds), rest)
          else if (c =? MINUS) then
            let '(ds, rest) := take_until (fun x => negb (is_digit x)) s' in
            match ds with
            | [] => None
            | _ => Some (Num (- digits_value ds), rest)
            end
          else None
      end
  end.

Inductive line_kind :=
  | Blank
  | Header (name : string)
  | Pair (key : string) (v : value).

Definition parse_line (line : jsstring) : option line_kind :=
  match skip_blank line with
  | [] => Some Blank
  | c :: s =>
      if (c =? HASH) || (c =? CR) then Some Blank
      else if c =? LBRACKET then
        let '(name, rest) := take_until (fun x => x =? RBRACKET) s in
        match rest with
        | _ :: rest' => if line_end rest' then Some (Header (text_string name)) else None
        | [] => None
        end
      else
        let '(key, rest) :=
          take_until (fun x => is_blank x || (x =? EQUALS)) (c :: s) in
        match skip_blank rest with
        | e :: rest' =>
            if e =? EQUALS then
              match parse_value 8 (skip_blank rest') with
              | Some (v, rest'') =>
                  if line_end rest'' then Some (Pair (text_string key) v) else None
              | None => None
              end
            else None
        | [] => None
        end
  end.

Definition has_key (k : string) (fields : list (string * value)) : bool :=
  existsb (fun kv => String.eqb kv.1 k) fields.

(** The lines in order: [top] holds the top-level pairs and the sections
    that are closed, [open] the section that is being read; a key that is
    defined twice is an error. *)
Fixpoint parse_lines (lines : list jsstring) (top : list (string * value))
    (open : option (string * list (string * value))) : option (list (string * value)) :=
  let close :=
    match open with
    | Some (name, fields) => (top ++ [(name, Obj fields)])%list
    | None => top
    end in
  match lines with
  | [] => Some close
  | line :: rest =>
      match parse_line line with
      | None => None
      | Some Blank => parse_lines rest top open
      | Some (Header name) =>
          if has_key name close then None else parse_lines rest close (Some (name, []))
      | Some (Pair key v) =>
          match open with
          | Some (name, fields) =>
              if has_key key fields then None
              else parse_lines rest top (Some (name, (fields ++ [(key, v)])%list))
          | None =>
              if has_key key top then None
              else parse_lines rest (top ++ [(key, v)])%list None
          end
      end
  end.

Definition parse (text : jsstring) : option (list (string * value)) :=
  parse_lines (split_lines text) [] None.

(** ** The editor *)

(** Only blank lines and comments are left before the next section or the
    end of the document. *)
Fixpoint section_ends (body : list jsstring) : bool :=
  match body with
  | [] => true
  | line :: rest =>
      match parse_line line with
      | Some Blank => section_ends rest
      | Some (Header _) => true
      | _ => false
      end
  end.

(** The lines of the section that is open: the line of the key is written
    again, or a line is added where the section ends, before the blank
    lines that close it. *)
Fixpoint edit_body (key : string) (new : jsstring) (body : list jsstring)
  : list jsstring :=
  match body with
  | [] => [new]
  | line :: rest =>
      match parse_line line with
      | Some (Header _) => new :: line :: rest
      | Some (Pair k _) =>
          if String.eqb k key then new :: rest else line :: edit_body key new rest
      | Some Blank =>
          if section_ends rest then new :: line :: rest
          else line :: edit_body key new rest
      | None => line :: edit_body key new rest
      end
  end.

(** The lines of the document: the section is looked for, and added at the
    end when it is not there. *)
Fixpoint edit_lines (section key : string) (new : jsstring) (lines : list jsstring)
  : list jsstring :=
  match lines with
  | [] => [LBRACKET :: lit section ++ [RBRACKET]; new]
  | line :: rest =>
      match parse_line line with
      | Some (Header name) =>
          if String.eqb name section then line :: edit_body key new rest
          else line :: edit_lines section key new rest
      | _ => line :: edit_lines section key new rest
      end
  end.

Definition edit (text : jsstring) (edits : list (string * string * value)) : jsstring :=
  fold_left
    (fun t ed =>
       join_lines (edit_lines ed.1.1 ed.1.2 (print_line (ed.1.2, ed.2)) (split_lines t)))
    edits text.

End MiniToml.

(* ===================================================================== *)
(** * The configuration store                                             *)
(* ===================================================================== *)

Module Store.
Import Js.
Local Open Scope string_scope.

(** ** What the store takes from [../constants], from [pathe] and from
    [./toml-edit]

    The values are fixed at build time and are not in the sources; the
    store is modelled for any choice of them.  So are the three functions
    that say which texts the codec and the editor of [toml-edit.ts] work
    with: the text that [stringifyToml] writes for a table, the text that
    [batchEditToml] returns for a text and its edits, and the table that
    [parseToml] reads from a text, if it reads one. *)
Class Constants := {
  SUPPORTED_LANGS : list string;
  CODE_TOOL_TYPES : list string;
  DEFAULT_CODE_TOOL_TYPE : string;
  ZCF_CONFIG_DIR : string;
  ZCF_CONFIG_FILE : string;
  LEGACY_ZCF_CONFIG_FILES : list string;
  dirname : string → string;
  toml_text : list (string * value) → JsText.jsstring;
  edit_text : JsText.jsstring → list (string * string * value) → JsText.jsstring;
  parse_text : JsText.jsstring → option (list (string * value));
}.

(** ** Files *)

(** Modelled from the spec: the Format Codec and the Incremental Editor
    ([parseToml], [stringifyToml] and [batchEditToml] of [toml-edit.ts]) and
    the flat-JSON reader ([readJsonConfig] of [json-config.ts]) are not in
    the sources.  A file is represented by what its text denotes: a
    structured document with its table, a JSON text with its value, or a
    text that is neither.  A structured document keeps its text beside its
    table: [updateTopLevelTomlFields] works on the text itself. *)
Inductive content :=
  | TomlText (text : JsText.jsstring) (table : list (string * value))
  | JsonText (json : value)
  | RawText (text : JsText.jsstring).

Inductive node :=
  | File (c : content)
  | Dir.

Abbreviation fs := (gmap string node).

(** What a [catch] clause receives. *)
Inductive error :=
  | ErrCode (code : string)
  | TypeError.

(** The part of the world a call does not change: the clock, and which
    file operations fail.  [rename_error src dst] is the error of the
    rename, if it fails. *)
Record env := {
  now : string;
  rename_error : string → string → option error;
  unlink_fails : string → bool;
  mkdir_fails : string → bool;
  copy_fails : string → string → bool;
  read_fails : string → bool;
  write_fails : string → bool;
}.

(** ** Calls that change the file system and may throw *)

Inductive outcome (A : Type) :=
  | Ok (a : A)
  | Throw (e : error).
Arguments Ok {A} a.
Arguments Throw {A} e.

Definition M (A : Type) : Type := fs → outcome A * fs.

Definition ret {A} (a : A) : M A := fun s => (Ok a, s).
Definition throw {A} (e : error) : M A := fun s => (Throw e, s).
Definition bind {A B} (m : M A) (k : A → M B) : M B :=
  fun s => match m s with
           | (Ok a, s') => k a s'
           | (Throw e, s') => (Throw e, s')
           end.
(** [try { m } catch (e) { h e }]: what [m] did before it threw stays done. *)
Definition try_catch {A} (m : M A) (h : error → M A) : M A :=
  fun s => match m s with
           | (Ok a, s') => (Ok a, s')
           | (Throw e, s') => h e s'
           end.

Notation "'let*' x ':=' m 'in' k" := (bind m (fun x => k))
  (at level 10, x name, m at level 100, k at level 200).
Notation "'do' m 'in' k" := (bind m (fun _ => k))
  (at level 10, m at level 100, k at level 200).

(** ** [node:fs] *)

Definition existsSync (path : string) : M bool :=
  fun s => (Ok (bool_decide (is_Some (s !! path))), s).

(** [mkdirSync(dir, { recursive: true })].  The file system is a flat map
    from paths to nodes, with no relation between a path and the paths
    above it: of the directories that the call creates, the map records
    [dir] itself; the missing directories above [dir], which the call
    creates too, are not recorded.  A statement about what a call leaves
    as it was is therefore made of files, not of every path. *)
Definition mkdirSync (e : env) (dir : string) : M unit :=
  fun s =>
    if mkdir_fails e dir then (Throw (ErrCode "EACCES"), s)
    else match s !! dir with
         | Some (File _) => (Throw (ErrCode "EEXIST"), s)
         | _ => (Ok (), <[dir := Dir]> s)
         end.

Definition renameSync (e : env) (src dst : string) : M unit :=
  fun s =>
    match rename_error e src dst with
    | Some err => (Throw err, s)
    | None =>
        match s !! src with
        | Some n => (Ok (), <[dst := n]> (delete src s))
        | None => (Throw (ErrCode "ENOENT"), s)
        end
    end.

Definition copyFileSync (e : env) (src dst : string) : M unit :=
  fun s =>
    if copy_fails e src dst then (Throw (ErrCode "EACCES"), s)
    else match s !! src with
         | Some (File c) => (Ok (), <[dst := File c]> s)
         | Some Dir => (Throw (ErrCode "EISDIR"), s)
         | None => (Throw (ErrCode "ENOENT"), s)
         end.

(** [rmSync(path, { force: true })]: a missing path is not an error. *)
Definition rmSync (e : env) (path : string) : M unit :=
  fun s =>
    match s !! path with
    | None => (Ok (), s)
    | Some Dir => (Throw (ErrCode "ERR_FS_EISDIR"), s)
    | Some (File _) =>
        if unlink_fails e path then (Throw (ErrCode "EACCES"), s)
        else (Ok (), delete path s)
    end.

(** ** [./fs-operations] *)

(** Modelled from the spec: [ensureDir], [readFile] and [writeFile] of
    [fs-operations.ts] are not in the sources; they are the blocking file
    operations, which complete or fail with a file-system error. *)
Definition ensureDir (e : env) (dir : string) : M unit :=
  let* present := existsSync dir in
  if present then ret () else mkdirSync e dir.

Definition readFile (e : env) (path : string) : M content :=
  fun s =>
    if read_fails e path then (Throw (ErrCode "EACCES"), s)
    else match s !! path with
         | Some (File c) => (Ok c, s)
         | Some Dir => (Throw (ErrCode "EISDIR"), s)
         | None => (Throw (ErrCode "ENOENT"), s)
         end.

Definition writeFile (e : env) (path : string) (c : content) : M unit :=
  fun s =>
    if write_fails e path then (Throw (ErrCode "EACCES"), s)
    else match s !! path with
         | Some Dir => (Throw (ErrCode "EISDIR"), s)
         | _ => (Ok (), <[path := File c]> s)
         end.

Section WithConstants.
Context `{Constants}.

(** ** [./toml-edit] and [./json-config], on what the files denote *)

(** Modelled from the spec: [parseToml] of [toml-edit.ts] is not in the
    sources; parsing gives the table of the document or fails with a parse
    error. *)
Definition parseToml (c : content) : M value :=
  match c with
  | TomlText _ table => ret (Obj table)
  | _ => throw (ErrCode "TomlError")
  end.

(** Absent fields are not written, at any depth of the tables. *)
Definition prune_fields (prune : value → value)
  : list (string * value) → list (string * value) :=
  fix go (l : list (string * value)) : list (string * value) :=
    match l with
    | [] => []
    | (k, x) :: l' =>
        match x with
        | Undefined | Null => go l'
        | _ => (k, prune x) :: go l'
        end
    end.

Fixpoint prune (v : value) : value :=
  match v with
  | Obj fields => Obj (prune_fields prune fields)
  | _ => v
  end.

Definition fields_of (v : value) : list (string * value) :=
  match v with
  | Obj fields => fields
  | _ => []
  end.

(** Modelled from the spec: [stringifyToml] of [toml-edit.ts] is not in the
    sources; it serializes the table: the text it writes is read back as
    the table. *)
Definition stringifyToml (config : value) : content :=
  TomlText (toml_text (fields_of (prune config))) (fields_of (prune config)).

(** An edit: the dotted path [section.key] and the value. *)
Definition edit : Type := string * string * value.

(** Modelled from the spec: the editor of [toml-edit.ts] is not in the
    sources.  One edit overwrites the key in its section and touches nothing
    else; a missing key is added to its section, a missing section is
    created with the key in it; the call fails where the section is not a
    table. *)
Definition apply_edit (table : value) (ed : edit) : M value :=
  let '(section, key, v) := ed in
  match get table section with
  | Obj _ as sec => ret (set table section (set sec key v))
  | Undefined => ret (set table section (Obj [(key, v)]))
  | _ => throw (ErrCode "EditError")
  end.

Fixpoint apply_edits (table : value) (edits : list edit) : M value :=
  match edits with
  | [] => ret table
  | ed :: rest => let* table' := apply_edit table ed in apply_edits table' rest
  end.

(** Modelled from the spec: [batchEditToml] of [toml-edit.ts] is not in the
    sources; the edits apply in the order given, and a failure of one fails
    the whole call.  The text it returns is read as the edited table. *)
Definition batchEditToml (existing : content) (edits : list edit) : M content :=
  match existing with
  | TomlText text table =>
      let* table' := apply_edits (Obj table) edits in
      ret (TomlText (edit_text text edits) (fields_of table'))
  | _ => throw (ErrCode "EditError")
  end.

(** The value of [section.key] after the edits, where it was [d] before:
    the last edit of the path wins. *)
Fixpoint edited_value (section key : string) (edits : list edit) (d : value) : value :=
  match edits with
  | [] => d
  | (section', key', v) :: rest =>
      edited_value section key rest
        (if String.eqb section section' && String.eqb key key' then v else d)
  end.

Definition touches (section : string) (edits : list edit) : Prop :=
  ∃ key v, (section, key, v) ∈ edits.


(** Modelled from the spec: what a text written by the source itself
    denotes: the table that [parseToml] reads from it, or nothing. *)
Definition as_content (text : JsText.jsstring) : content :=
  match parse_text text with
  | Some table => TomlText text table
  | None => RawText text
  end.

(** A function of the source on the text of a document. *)
Definition on_text (f : JsText.jsstring → JsText.jsstring) (c : content) : content :=
  match c with
  | TomlText text _ => as_content (f text)
  | _ => c
  end.

(** The call of [updateTopLevelTomlFields] in [writeTomlConfig]: the two
    values go into template literals. *)
Definition patch_text (version lastUpdated : value) (text : JsText.jsstring)
  : JsText.jsstring :=
  TopLevel.updateTopLevelTomlFields text
    (JsText.lit (to_string version)) (JsText.lit (to_string lastUpdated)).

(** Modelled from the spec: [readJsonConfig] of [json-config.ts] is not in
    the sources; it gives the parsed value, or [null] for a file that is
    missing, unreadable or not JSON. *)
Definition json_at (e : env) (s : fs) (path : string) : value :=
  if read_fails e path then Null
  else match s !! path with
       | Some (File (JsonText json)) => json
       | _ => Null
       end.

Definition readJsonConfig (e : env) (path : string) : M value :=
  fun s => (Ok (json_at e s path), s).

(** ** [zcf-config.ts] *)

Record ZcfConfigMigrationResult := {
  migrated : bool;
  source : option string;
  target : string;
  removed : list string;
}.

Definition isSupportedLang (v : value) : bool := includes SUPPORTED_LANGS v.

(** Modelled from the spec: [isCodeToolType] of [../constants] is not in the
    sources; it is the membership test of the set of supported tool
    identifiers. *)
Definition isCodeToolType (v : value) : bool := includes CODE_TOOL_TYPES v.

Definition sanitizePreferredLang (lang : value) : value :=
  if isSupportedLang lang then lang else Str "en".

Definition sanitizeCodeToolType (codeTool : value) : value :=
  if isCodeToolType codeTool then codeTool else Str DEFAULT_CODE_TOOL_TYPE.

Definition readTomlConfig (e : env) (configPath : string) : M value :=
  try_catch
    (let* present := existsSync configPath in
     if negb present then ret Null
     else
       let* content := readFile e configPath in
       let* parsed := parseToml content in
       ret parsed)
    (fun _ => ret Null).

(** [o.k] where a nullish [o] is a [TypeError]. *)
Definition get_strict (o : value) (k : string) : M value :=
  match o with
  | Undefined | Null => throw TypeError
  | _ => ret (get o k)
  end.

Definition optional_edit (section key : string) (v : value) : list edit :=
  if is_defined v then [(section, key, v)] else [].

Definition build_edits (config : value) : M (list edit) :=
  let general := get config "general" in
  let claudeCode := get config "claudeCode" in
  let codex := get config "codex" in
  let* preferredLang := get_strict general "preferredLang" in
  let* currentTool := get_strict general "currentTool" in
  let* enabled := get_strict claudeCode "enabled" in
  let* codexEnabled := get_strict codex "enabled" in
  ret ([("general", "preferredLang", preferredLang);
        ("general", "currentTool", currentTool)]
       ++ optional_edit "general" "templateLang" (get general "templateLang")
       ++ optional_edit "general" "aiOutputLang" (get general "aiOutputLang")
       ++ [("claudeCode", "enabled", enabled);
           ("claudeCode", "outputStyles", get claudeCode "outputStyles");
           ("claudeCode", "installType", get claudeCode "installType")]
       ++ optional_edit "claudeCode" "defaultOutputStyle"
            (get claudeCode "defaultOutputStyle")
       ++ optional_edit "claudeCode" "currentProfile" (get claudeCode "currentProfile")
       ++ optional_edit "claudeCode" "profiles" (get claudeCode "profiles")
       ++ optional_edit "claudeCode" "version" (get claudeCode "version")
       ++ [("codex", "enabled", codexEnabled);
           ("codex", "systemPromptStyle", get codex "systemPromptStyle")])%list.

Definition writeTomlConfig (e : env) (configPath : string) (config : value) : M unit :=
  try_catch
    (do ensureDir e (dirname configPath) in
     let* present := existsSync configPath in
     if present then
       let* existingContent := readFile e configPath in
       let* edits := build_edits config in
       try_catch
         (let* updatedContent := batchEditToml existingContent edits in
          let updatedContent :=
            on_text (patch_text (get config "version") (get config "lastUpdated"))
                    updatedContent in
          writeFile e configPath updatedContent)
         (fun _ => writeFile e configPath (stringifyToml config))
     else writeFile e configPath (stringifyToml config))
    (fun _ => ret ()).

Definition createDefaultTomlConfig (e : env) (preferredLang claudeCodeInstallType : value)
  : value :=
  Obj [
    ("version", Str "1.0.0");
    ("lastUpdated", Str (now e));
    ("general", Obj [
       ("preferredLang", preferredLang);
       ("templateLang", preferredLang);
       ("aiOutputLang",
          if same_string preferredLang "zh-CN" then Str "zh-CN" else Undefined);
       ("currentTool", Str DEFAULT_CODE_TOOL_TYPE)]);
    ("claudeCode", Obj [
       ("enabled", Bool true);
       ("outputStyles", Arr [Str "engineer-professional"]);
       ("defaultOutputStyle", Str "engineer-professional");
       ("installType", claudeCodeInstallType);
       ("currentProfile", Str "");
       ("profiles", Obj [])]);
    ("codex", Obj [
       ("enabled", Bool false);
       ("systemPromptStyle", Str "engineer-professional")])
  ].

(** The conversion of a flat record.  The source reads the fields of
    [jsonConfig] without a test, so [null] and [undefined] are a
    [TypeError] there; [writeZcfConfig], the one caller in the file, passes
    an object.  The function is given here on objects: on [null] and
    [undefined] its value is not the one of the source. *)
Definition migrateFromJsonConfig (e : env) (jsonConfig : value) : value :=
  let claudeCodeInstallType :=
    or_else (get (get jsonConfig "claudeCodeInstallation") "type") (Str "global") in
  let defaultConfig := createDefaultTomlConfig e (Str "en") claudeCodeInstallType in
  let defaultGeneral := get defaultConfig "general" in
  let defaultClaudeCode := get defaultConfig "claudeCode" in
  let defaultCodex := get defaultConfig "codex" in
  Obj [
    ("version", or_else (get jsonConfig "version") (get defaultConfig "version"));
    ("lastUpdated", or_else (get jsonConfig "lastUpdated") (Str (now e)));
    ("general", Obj [
       ("preferredLang",
          or_else (get jsonConfig "preferredLang") (get defaultGeneral "preferredLang"));
       ("templateLang",
          or_else (get jsonConfig "templateLang")
            (or_else (get jsonConfig "preferredLang")
                     (get defaultGeneral "preferredLang")));
       ("aiOutputLang",
          or_else (get jsonConfig "aiOutputLang") (get defaultGeneral "aiOutputLang"));
       ("currentTool",
          or_else (get jsonConfig "codeToolType") (get defaultGeneral "currentTool"))]);
    ("claudeCode", Obj [
       ("enabled", Bool (same_string (get jsonConfig "codeToolType") "claude-code"));
       ("outputStyles",
          or_else (get jsonConfig "outputStyles") (get defaultClaudeCode "outputStyles"));
       ("defaultOutputStyle",
          coalesce (get jsonConfig "defaultOutputStyle")
                   (get defaultClaudeCode "defaultOutputStyle"));
       ("installType", claudeCodeInstallType);
       ("currentProfile",
          or_else (get jsonConfig "currentProfileId")
                  (get defaultClaudeCode "currentProfile"));
       ("profiles", or_else (get (get jsonConfig "claudeCode") "profiles") (Obj []))]);
    ("codex", Obj [
       ("enabled", Bool (same_string (get jsonConfig "codeToolType") "codex"));
       ("systemPromptStyle",
          or_else (get jsonConfig "systemPromptStyle")
                  (get defaultCodex "systemPromptStyle"))])
  ].

Definition convertTomlToLegacyConfig (tomlConfig : value) : M value :=
  let* preferredLang := get_strict (get tomlConfig "general") "preferredLang" in
  let* templateLang := get_strict (get tomlConfig "general") "templateLang" in
  let* aiOutputLang := get_strict (get tomlConfig "general") "aiOutputLang" in
  let* outputStyles := get_strict (get tomlConfig "claudeCode") "outputStyles" in
  let* defaultOutputStyle := get_strict (get tomlConfig "claudeCode") "defaultOutputStyle" in
  let* codeToolType := get_strict (get tomlConfig "general") "currentTool" in
  ret (Obj [
    ("version", get tomlConfig "version");
    ("preferredLang", preferredLang);
    ("templateLang", templateLang);
    ("aiOutputLang", aiOutputLang);
    ("outputStyles", outputStyles);
    ("defaultOutputStyle", defaultOutputStyle);
    ("codeToolType", codeToolType);
    ("lastUpdated", get tomlConfig "lastUpdated")
  ]).

Definition convertLegacyToTomlConfig (e : env) (legacyConfig : value) : value :=
  migrateFromJsonConfig e legacyConfig.

Definition normalizeZcfConfig (e : env) (config : value) : value :=
  if negb (truthy config) then Null
  else Obj [
    ("version",
       if is_string (get config "version") then get config "version" else Str "1.0.0");
    ("preferredLang", sanitizePreferredLang (get config "preferredLang"));
    ("templateLang",
       if truthy (get config "templateLang")
       then sanitizePreferredLang (get config "templateLang") else Undefined);
    ("aiOutputLang", get config "aiOutputLang");
    ("outputStyles",
       if is_array (get config "outputStyles") then get config "outputStyles"
       else Undefined);
    ("defaultOutputStyle",
       if is_string (get config "defaultOutputStyle")
       then get config "defaultOutputStyle" else Undefined);
    ("codeToolType", sanitizeCodeToolType (get config "codeToolType"));
    ("lastUpdated",
       if is_string (get config "lastUpdated") then get config "lastUpdated"
       else Str (now e))
  ].

(** The two cleanup loops: each deletion has its own [try], and a path is
    recorded only when its deletion went through. *)
Fixpoint remove_each (e : env) (paths removed : list string) : M (list string) :=
  match paths with
  | [] => ret removed
  | path :: rest =>
      let* removed' := try_catch (do rmSync e path in ret (removed ++ [path])%list)
                                 (fun _ => ret removed) in
      remove_each e rest removed'
  end.

(** [LEGACY_ZCF_CONFIG_FILES.filter(path => existsSync(path))]. *)
Definition legacy_sources (s : fs) : list string :=
  filter (fun path => is_Some (s !! path)) LEGACY_ZCF_CONFIG_FILES.

Definition is_EXDEV (err : error) : bool :=
  match err with
  | ErrCode code => String.eqb code "EXDEV"
  | TypeError => false
  end.

(** The move of the first legacy source: the directory is created when it
    is missing, and a rename that fails across devices falls back to copy
    and delete; any other error of the rename is thrown again. *)
Definition move_legacy (e : env) (source target : string) : M unit :=
  let* dirExists := existsSync ZCF_CONFIG_DIR in
  do (if negb dirExists then mkdirSync e ZCF_CONFIG_DIR else ret ()) in
  try_catch (renameSync e source target)
    (fun error =>
       if negb (is_EXDEV error) then throw error
       else do copyFileSync e source target in rmSync e source).

Definition migrateZcfConfigIfNeeded (e : env) : M ZcfConfigMigrationResult :=
  let target := ZCF_CONFIG_FILE in
  let* targetExists := existsSync target in
  let* legacySources := (fun s => (Ok (legacy_sources s), s)) in
  match legacySources with
  | source :: leftovers =>
      if negb targetExists then
        do move_legacy e source target in
        let* removed := remove_each e leftovers [] in
        ret {| migrated := true; source := Some source; target := target;
               removed := removed |}
      else
        let* removed := remove_each e legacySources [] in
        ret {| migrated := false; source := None; target := target;
               removed := removed |}
  | [] =>
      ret {| migrated := false; source := None; target := target; removed := [] |}
  end.

(** [ZCF_CONFIG_FILE.replace('.toml', '.json')]. *)
Definition json_config_file : string :=
  replace_first ".toml" ".json" ZCF_CONFIG_FILE.

(** The loop over the legacy paths of [readZcfConfig]. *)
Fixpoint read_legacy (e : env) (paths : list string) : M value :=
  match paths with
  | [] => ret Null
  | legacyPath :: rest =>
      let* present := existsSync legacyPath in
      if present then
        let* legacyRaw := readJsonConfig e legacyPath in
        let legacyNormalized := normalizeZcfConfig e (or_else legacyRaw Null) in
        if truthy legacyNormalized then ret legacyNormalized
        else read_legacy e rest
      else read_legacy e rest
  end.

Definition readZcfConfig (e : env) : M value :=
  do migrateZcfConfigIfNeeded e in
  let* tomlConfig := readTomlConfig e ZCF_CONFIG_FILE in
  if truthy tomlConfig then convertTomlToLegacyConfig tomlConfig
  else
    let* raw := readJsonConfig e json_config_file in
    let normalized := normalizeZcfConfig e (or_else raw Null) in
    if truthy normalized then ret normalized
    else read_legacy e LEGACY_ZCF_CONFIG_FILES.

(** [o.section.key = v]. *)
Definition set_in (o : value) (section key : string) (v : value) : value :=
  set o section (set (get o section) key v).

(** The fields of the document on disk that [writeZcfConfig] carries into
    the configuration it is about to write. *)
Definition carry_forward (existingTomlConfig sanitizedConfig tomlConfig : value)
  : value :=
  let nextSystemPromptStyle :=
    or_else (get sanitizedConfig "systemPromptStyle")
            (get (get existingTomlConfig "codex") "systemPromptStyle") in
  let tomlConfig :=
    if truthy nextSystemPromptStyle
    then set_in tomlConfig "codex" "systemPromptStyle" nextSystemPromptStyle
    else tomlConfig in
  let existingClaudeCode := get existingTomlConfig "claudeCode" in
  if truthy existingClaudeCode then
    let tomlConfig :=
      if truthy (get existingClaudeCode "profiles")
      then set_in tomlConfig "claudeCode" "profiles"
                  (get existingClaudeCode "profiles")
      else tomlConfig in
    let tomlConfig :=
      if is_defined (get existingClaudeCode "currentProfile")
      then set_in tomlConfig "claudeCode" "currentProfile"
                  (get existingClaudeCode "currentProfile")
      else tomlConfig in
    if truthy (get existingClaudeCode "version")
    then set_in tomlConfig "claudeCode" "version"
                (get existingClaudeCode "version")
    else tomlConfig
  else tomlConfig.

Definition writeZcfConfig (e : env) (config : value) : M unit :=
  try_catch
    (let* codeToolType := get_strict config "codeToolType" in
     let sanitizedConfig :=
       set (spread config) "codeToolType" (sanitizeCodeToolType codeToolType) in
     let* existingTomlConfig := readTomlConfig e ZCF_CONFIG_FILE in
     let tomlConfig := convertLegacyToTomlConfig e sanitizedConfig in
     let tomlConfig := carry_forward existingTomlConfig sanitizedConfig tomlConfig in
     writeTomlConfig e ZCF_CONFIG_FILE tomlConfig)
    (fun _ => ret ()).

Definition updateZcfConfig (e : env) (updates : value) : M unit :=
  let* existingConfig := readZcfConfig e in
  let* version := get_strict updates "version" in
  let newConfig := Obj [
    ("version",
       or_else version
         (or_else (get existingConfig "version") (Str "1.0.0")));
    ("preferredLang",
       or_else (get updates "preferredLang")
         (or_else (get existingConfig "preferredLang") (Str "en")));
    ("templateLang",
       if is_defined (get updates "templateLang") then get updates "templateLang"
       else get existingConfig "templateLang");
    ("aiOutputLang",
       or_else (get updates "aiOutputLang") (get existingConfig "aiOutputLang"));
    ("outputStyles",
       if is_defined (get updates "outputStyles") then get updates "outputStyles"
       else get existingConfig "outputStyles");
    ("defaultOutputStyle",
       if is_defined (get updates "defaultOutputStyle")
       then get updates "defaultOutputStyle"
       else get existingConfig "defaultOutputStyle");
    ("codeToolType",
       or_else (get updates "codeToolType")
         (or_else (get existingConfig "codeToolType") (Str DEFAULT_CODE_TOOL_TYPE)));
    ("lastUpdated", Str (now e))
  ] in
  writeZcfConfig e newConfig.

(** ** The write operation, step by step *)

(** The first statement of [writeZcfConfig]. *)
Definition sanitized (config : value) : value :=
  set (spread config) "codeToolType" (sanitizeCodeToolType (get config "codeToolType")).

Definition toml_to_write (e : env) (existing config : value) : value :=
  carry_forward existing (sanitized config)
    (convertLegacyToTomlConfig e (sanitized config)).

(** The edits of [writeTomlConfig], for a configuration with its three
    sections. *)
Definition edits_of (config : value) : list edit :=
  let general := get config "general" in
  let claudeCode := get config "claudeCode" in
  let codex := get config "codex" in
  ([("general", "preferredLang", get general "preferredLang");
    ("general", "currentTool", get general "currentTool")]
   ++ optional_edit "general" "templateLang" (get general "templateLang")
   ++ optional_edit "general" "aiOutputLang" (get general "aiOutputLang")
   ++ [("claudeCode", "enabled", get claudeCode "enabled");
       ("claudeCode", "outputStyles", get claudeCode "outputStyles");
       ("claudeCode", "installType", get claudeCode "installType")]
   ++ optional_edit "claudeCode" "defaultOutputStyle"
        (get claudeCode "defaultOutputStyle")
   ++ optional_edit "claudeCode" "currentProfile" (get claudeCode "currentProfile")
   ++ optional_edit "claudeCode" "profiles" (get claudeCode "profiles")
   ++ optional_edit "claudeCode" "version" (get claudeCode "version")
   ++ [("codex", "enabled", get codex "enabled");
       ("codex", "systemPromptStyle", get codex "systemPromptStyle")])%list.

Definition has_sections (config : value) : Prop :=
  ∃ v l g c x,
    config = Obj [("version", v); ("lastUpdated", l); ("general", Obj g);
                  ("claudeCode", Obj c); ("codex", Obj x)]
    ∧ NoDup (map fst g) ∧ NoDup (map fst c) ∧ NoDup (map fst x).

(** The paths that [writeTomlConfig] edits: those always written, and those
    written when the value is defined. *)
Definition always_edited : list (string * string) :=
  [("general", "preferredLang"); ("general", "currentTool");
   ("claudeCode", "enabled"); ("claudeCode", "outputStyles");
   ("claudeCode", "installType"); ("codex", "enabled");
   ("codex", "systemPromptStyle")].

Definition edited_if_defined : list (string * string) :=
  [("general", "templateLang"); ("general", "aiOutputLang");
   ("claudeCode", "defaultOutputStyle"); ("claudeCode", "currentProfile");
   ("claudeCode", "profiles"); ("claudeCode", "version")].

(** What [writeTomlConfig] leaves in the file, given what was there: the
    edited document when there was one and the editor went through, the full
    serialization otherwise.  The editor is run on the empty file system: it
    reads and writes no file. *)
Definition persisted_content (config : value) (existing : option node) : content :=
  match existing with
  | Some (File c) =>
      match (batchEditToml c (edits_of config) ∅).1 with
      | Ok c' =>
          on_text (patch_text (get config "version") (get config "lastUpdated")) c'
      | Throw _ => stringifyToml config
      end
  | _ => stringifyToml config
  end.

(** Two tables with the same fields. *)
Definition same_fields (t1 t2 : list (string * value)) : Prop :=
  ∀ k, lookup_field k t1 = lookup_field k t2.

(** The table of a document once the two top-level fields are set. *)
Definition patched_table (table : list (string * value)) (version lastUpdated : value)
  : list (string * value) :=
  fields_of (set (set (Obj table) "version" (Str (to_string version)))
                 "lastUpdated" (Str (to_string lastUpdated))).

(** The codec reads the text that [updateTopLevelTomlFields] leaves as the
    document with its two top-level fields set to the values written, and
    everything else as it was.  It does where the patcher finds the two
    lines of the document, or adds them to a document that has none, and
    the values hold nothing that ends the string they are written in. *)
Definition patch_read (c : content) (version lastUpdated : value) : Prop :=
  match c with
  | TomlText text table =>
      ∃ table', parse_text (patch_text version lastUpdated text) = Some table'
                ∧ same_fields table' (patched_table table version lastUpdated)
  | _ => True
  end.

(** The same, for the write of [config] over what is at the path: the
    text that is patched is the one the editor returns. *)
Definition patch_read_on (config : value) (existing : option node) : Prop :=
  match existing with
  | Some (File c) =>
      match (batchEditToml c (edits_of config) ∅).1 with
      | Ok c' => patch_read c' (get config "version") (get config "lastUpdated")
      | Throw _ => True
      end
  | _ => True
  end.

(** The document that [writeTomlConfig] edits in place: the table of the
    document at the path, when there is one and the editor goes through;
    nothing where the file is written in full. *)
Definition edited_table (config : value) (existing : option node) : value :=
  match existing with
  | Some (File (TomlText text table)) =>
      match (batchEditToml (TomlText text table) (edits_of config) ∅).1 with
      | Ok _ => Obj table
      | Throw _ => Undefined
      end
  | _ => Undefined
  end.

(** The file system after [ensureDir]. *)
Definition with_dir (dir : string) (s : fs) : fs :=
  if bool_decide (is_Some (s !! dir)) then s else <[dir := Dir]> s.

(** ** The read operation, in the words of the specification

    After the migration: the structured read of the canonical file; when it
    fails, the flat-JSON reads of the canonical path with its extension
    swapped and of each legacy path in order, and the first result that
    normalizes; nothing when there is none. *)

(** The structured read succeeds when the canonical file is there, can be
    read and parses; a parse failure is the same as no file. *)
Definition structured_read (e : env) (s : fs) : option (list (string * value)) :=
  if read_fails e ZCF_CONFIG_FILE then None
  else match s !! ZCF_CONFIG_FILE with
       | Some (File (TomlText _ table)) => Some table
       | _ => None
       end.

Definition flat_json_read (e : env) (s : fs) (path : string) : value :=
  normalizeZcfConfig e (or_else (json_at e s path) Null).

Fixpoint first_normalized (e : env) (s : fs) (paths : list string) : value :=
  match paths with
  | [] => Null
  | path :: rest =>
      if truthy (flat_json_read e s path) then flat_json_read e s path
      else first_normalized e s rest
  end.

Definition read_after_migration (e : env) : M value :=
  fun s =>
    match structured_read e s with
    | Some table => convertTomlToLegacyConfig (Obj table) s
    | None =>
        (Ok (first_normalized e s (json_config_file :: LEGACY_ZCF_CONFIG_FILES)), s)
    end.

(** ** Conditions on the world used in the statements *)

(** No directory creation, deletion or copy fails, and a rename fails at
    most across devices. *)
Definition benign (e : env) : Prop :=
  (∀ p, mkdir_fails e p = false)
  ∧ (∀ p, unlink_fails e p = false)
  ∧ (∀ a b, copy_fails e a b = false)
  ∧ (∀ a b err, rename_error e a b = Some err → is_EXDEV err = true).

(** No legacy candidate is a directory. *)
Definition legacy_files_only (s : fs) : Prop :=
  ∀ p, p ∈ LEGACY_ZCF_CONFIG_FILES → s !! p ≠ Some Dir.

(** The constants name three different kinds of path. *)
Definition distinct_paths : Prop :=
  (ZCF_CONFIG_FILE ∉ LEGACY_ZCF_CONFIG_FILES)
  ∧ (ZCF_CONFIG_DIR ∉ LEGACY_ZCF_CONFIG_FILES).

(** The canonical file can be written and read back: the operations on it
    do not fail, and its path is not taken by a directory. *)
Definition writable (e : env) (s : fs) : Prop :=
  write_fails e ZCF_CONFIG_FILE = false
  ∧ read_fails e ZCF_CONFIG_FILE = false
  ∧ mkdir_fails e (dirname ZCF_CONFIG_FILE) = false
  ∧ dirname ZCF_CONFIG_FILE ≠ ZCF_CONFIG_FILE
  ∧ s !! ZCF_CONFIG_FILE ≠ Some Dir.

(** The table the structured read finds, or [null]. *)
Definition existing_table (e : env) (s : fs) : value :=
  match structured_read e s with
  | Some table => Obj table
  | None => Null
  end.

(** The fields of the flat record that the writer accepts. *)
Definition accepted_fields : list string :=
  ["version"; "preferredLang"; "templateLang"; "aiOutputLang"; "outputStyles";
   "defaultOutputStyle"; "codeToolType"; "lastUpdated"].






(** The names of the three sections. *)
Definition section_names : list string := ["general"; "claudeCode"; "codex"].

(** The result of a call that found nothing to do. *)
Definition nothing_to_migrate : ZcfConfigMigrationResult :=
  {| migrated := false; source := None; target := ZCF_CONFIG_FILE; removed := [] |}.



(** The document in the canonical file, or [null]. *)
Definition document_at (s : fs) : value :=
  match s !! ZCF_CONFIG_FILE with
  | Some (File (TomlText _ table)) => Obj table
  | _ => Null
  end.

End WithConstants.

(** ** A concrete world for the examples *)

Definition demo_constants : Constants := {|
  SUPPORTED_LANGS := ["zh-CN"; "en"];
  CODE_TOOL_TYPES := ["claude-code"; "codex"];
  DEFAULT_CODE_TOOL_TYPE := "claude-code";
  ZCF_CONFIG_DIR := "/home/u/.ufomiao/zcf";
  ZCF_CONFIG_FILE := "/home/u/.ufomiao/zcf/config.toml";
  LEGACY_ZCF_CONFIG_FILES := ["/home/u/.claude/.zcf-config.json"; "/home/u/.zcf.json"];
  dirname := fun _ => "/home/u/.ufomiao/zcf";
  toml_text := MiniToml.print;
  edit_text := MiniToml.edit;
  parse_text := MiniToml.parse;
|}.

(** Nothing fails. *)
Definition calm (t : string) : env := {|
  now := t;
  rename_error := fun _ _ => None;
  unlink_fails := fun _ => false;
  mkdir_fails := fun _ => false;
  copy_fails := fun _ _ => false;
  read_fails := fun _ => false;
  write_fails := fun _ => false;
|}.

(** Every rename is refused, for a reason other than crossing devices. *)
Definition rename_denied (t : string) : env := {|
  now := t;
  rename_error := fun _ _ => Some (ErrCode "EACCES");
  unlink_fails := fun _ => false;
  mkdir_fails := fun _ => false;
  copy_fails := fun _ _ => false;
  read_fails := fun _ => false;
  write_fails := fun _ => false;
|}.

(** Every deletion is refused. *)
Definition unlink_denied (t : string) : env := {|
  now := t;
  rename_error := fun _ _ => None;
  unlink_fails := fun _ => true;
  mkdir_fails := fun _ => false;
  copy_fails := fun _ _ => false;
  read_fails := fun _ => false;
  write_fails := fun _ => false;
|}.

(** One legacy file and no canonical file. *)
Definition legacy_only : fs :=
  {[ "/home/u/.zcf.json" := File (JsonText (Obj [("preferredLang", Str "en")])) ]}.

(** The canonical file and both legacy files. *)
Definition canonical_and_legacy : fs :=
  <["/home/u/.ufomiao/zcf/config.toml" := File (TomlText [] [])]>
    (<["/home/u/.ufomiao/zcf" := Dir]>
       (<["/home/u/.claude/.zcf-config.json" := File (JsonText (Obj []))]>
          (<["/home/u/.zcf.json" := File (JsonText (Obj []))]> ∅))).

(** A document in which both tools are enabled and the install location
    is local. *)
Definition both_tools_document : list (string * value) :=
  [("version", Str "1.0.0");
   ("lastUpdated", Str "2025-01-01T00:00:00.000Z");
   ("general", Obj [("preferredLang", Str "zh-CN");
                    ("currentTool", Str "claude-code")]);
   ("claudeCode", Obj [("enabled", Bool true);
                       ("outputStyles", Arr [Str "nekomata-engineer"]);
                       ("installType", Str "local")]);
   ("codex", Obj [("enabled", Bool true);
                  ("systemPromptStyle", Str "nekomata-engineer")])].

(** Its text, under a comment. *)
Definition both_tools_text : JsText.jsstring :=
  (JsText.lit "# zcf configuration" ++ JsText.NL :: MiniToml.print both_tools_document)%list.

Definition both_tools_state : fs :=
  <["/home/u/.ufomiao/zcf/config.toml" :=
      File (TomlText both_tools_text both_tools_document)]>
    (<["/home/u/.ufomiao/zcf" := Dir]> ∅).


(** A flat record with every accepted field. *)
Definition full_record : value :=
  Obj [("version", Str "1.0.0");
       ("preferredLang", Str "zh-CN");
       ("templateLang", Str "en");
       ("aiOutputLang", Str "zh-CN");
       ("outputStyles", Arr [Str "engineer-professional"; Str "default"]);
       ("defaultOutputStyle", Str "default");
       ("codeToolType", Str "codex");
       ("lastUpdated", Str "2025-01-01T00:00:00.000Z")].

(** A flat record whose version holds a quote. *)
Definition quoted_record : value :=
  Obj [("version", Str "it's");
       ("preferredLang", Str "en");
       ("codeToolType", Str "codex");
       ("lastUpdated", Str "2025-01-01T00:00:00.000Z")].

(** A flat record with a language outside the supported set. *)
Definition french_record : value :=
  Obj [("version", Str "1.0.0");
       ("preferredLang", Str "fr");
       ("codeToolType", Str "vim");
       ("lastUpdated", Str "2025-01-01T00:00:00.000Z")].

End Store.

(* ===================================================================== *)
(** * The rest of [zcf-config.ts]                                         *)
(* ===================================================================== *)

Module StoreApi.
Import Js Store.
Local Open Scope string_scope.

(** The own enumerable properties of a value, which [{ ...v }] copies: the
    fields of an object, the elements of an array and the characters of a
    string under their indices, nothing for the other values. *)
Definition own_properties (v : value) : list (string * value) :=
  match v with
  | Obj fields => fields
  | Arr items => imap (fun i x => (pretty i, x)) items
  | Str s =>
      imap (fun i c => (pretty i, Str (String c EmptyString)))
           (String.list_ascii_of_string s)
  | _ => []
  end.

(** [{ ...a, ...b }]: the properties of [a], then those of [b], a later
    value taking the place of an earlier one of the same key. *)
Definition spread_both (a b : value) : value :=
  fold_left (fun o kv => set o kv.1 kv.2)
            (own_properties a ++ own_properties b)%list (Obj []).

Section WithConstants.
Context `{Constants}.

Definition updateTomlConfig (e : env) (configPath : string) (updates : value)
  : M value :=
  let* existing := readTomlConfig e configPath in
  let existingConfig :=
    or_else existing (createDefaultTomlConfig e (Str "en") (Str "global")) in
  let* version := get_strict updates "version" in
  let updatedConfig := Obj [
    ("version", or_else version (get existingConfig "version"));
    ("lastUpdated", Str (now e));
    ("general", spread_both (get existingConfig "general") (get updates "general"));
    ("claudeCode",
       spread_both (get existingConfig "claudeCode") (get updates "claudeCode"));
    ("codex", spread_both (get existingConfig "codex") (get updates "codex"))
  ] in
  do writeTomlConfig e configPath updatedConfig in
  ret updatedConfig.

(** The configuration that [updateTomlConfig] writes and returns, given
    the one it starts from. *)
Definition updated_config (e : env) (existingConfig updates : value) : value :=
  Obj [
    ("version", or_else (get updates "version") (get existingConfig "version"));
    ("lastUpdated", Str (now e));
    ("general", spread_both (get existingConfig "general") (get updates "general"));
    ("claudeCode",
       spread_both (get existingConfig "claudeCode") (get updates "claudeCode"));
    ("codex", spread_both (get existingConfig "codex") (get updates "codex"))
  ].

(** The record that [getZcfConfig] returns when nothing is stored. *)
Definition default_record (e : env) : value :=
  Obj [("version", Str "1.0.0");
       ("preferredLang", Str "en");
       ("codeToolType", Str DEFAULT_CODE_TOOL_TYPE);
       ("lastUpdated", Str (now e))].

Definition getZcfConfig (e : env) : M value :=
  let* config := readZcfConfig e in
  ret (or_else config (default_record e)).

Definition readDefaultTomlConfig (e : env) : M value :=
  readTomlConfig e ZCF_CONFIG_FILE.

(** The [async] functions await nothing: the promise they return is
    fulfilled with the value of the body, or rejected with what it throws. *)
Definition readZcfConfigAsync (e : env) : M value := readZcfConfig e.

Definition getZcfConfigAsync (e : env) : M value :=
  let* config := readZcfConfigAsync e in
  ret (or_else config (default_record e)).

Definition saveZcfConfig (e : env) (config : value) : M unit :=
  writeZcfConfig e config.

(** ** Notions used in the statements *)

(** A table whose keys are all different. *)
Definition is_table (v : value) : Prop :=
  ∃ fields, v = Obj fields ∧ NoDup (map fst fields).

(** A table, or nothing. *)
Definition table_or_absent (v : value) : Prop :=
  v = Undefined ∨ ∃ fields, v = Obj fields ∧ NoDup (map fst fields).

(** A part of an update: absent, or a table of defined values. *)
Definition is_patch (v : value) : Prop :=
  v = Undefined
  ∨ ∃ fields, v = Obj fields ∧ NoDup (map fst fields)
              ∧ Forall (fun kv => is_defined kv.2 = true) fields.

(** The key is one of the update's part. *)
Definition patches (v : value) (key : string) : bool :=
  bool_decide (key ∈ map fst (own_properties v)).


(** The file at [path] can be written and read back. *)
Definition writable_at (e : env) (path : string) (s : fs) : Prop :=
  write_fails e path = false
  ∧ read_fails e path = false
  ∧ mkdir_fails e (dirname path) = false
  ∧ dirname path ≠ path
  ∧ s !! path ≠ Some Dir.

End WithConstants.

(** ** A concrete world for the examples *)

(** A canonical document with a version and no section. *)
Definition sectionless_state : fs :=
  <["/home/u/.ufomiao/zcf/config.toml" :=
      File (TomlText (TopLevel.version_line (JsText.lit "1.0.0"))
                     [("version", Str "1.0.0")])]>
    (<["/home/u/.ufomiao/zcf" := Dir]> ∅).

(** A canonical file that is not a document. *)
Definition garbled_state : fs :=
  <["/home/u/.ufomiao/zcf/config.toml" := File (RawText (JsText.lit "[general"))]>
    (<["/home/u/.ufomiao/zcf" := Dir]> ∅).

(** An update of the language and of the styles. *)
Definition language_update : list (string * value) :=
  [("general", Obj [("preferredLang", Str "en")]);
   ("claudeCode", Obj [("outputStyles", Arr [Str "default"])])].

End StoreApi.

(* ===================================================================== *)
(** * The output styles: [src/utils/output-style.ts]                      *)
(* ===================================================================== *)

Module OutputStyles.
Import Js Store StoreApi.
Local Open Scope string_scope.

Record OutputStyle := {
  id : string;
  isCustom : bool;
  filePath : option string;
}.

Definition OUTPUT_STYLES : list OutputStyle := [
  {| id := "engineer-professional"; isCustom := true;
     filePath := Some "engineer-professional.md" |};
  {| id := "nekomata-engineer"; isCustom := true;
     filePath := Some "nekomata-engineer.md" |};
  {| id := "laowang-engineer"; isCustom := true;
     filePath := Some "laowang-engineer.md" |};
  {| id := "ojousama-engineer"; isCustom := true;
     filePath := Some "ojousama-engineer.md" |};
  {| id := "rem-engineer"; isCustom := true; filePath := Some "rem-engineer.md" |};
  {| id := "leibus-engineer"; isCustom := true;
     filePath := Some "leibus-engineer.md" |};
  {| id := "default"; isCustom := false; filePath := None |};
  {| id := "explanatory"; isCustom := false; filePath := None |};
  {| id := "learning"; isCustom := false; filePath := None |}
].

Definition LEGACY_FILES : list string :=
  ["personality.md"; "rules.md"; "technical-guides.md"; "mcp.md"; "language.md"].

Definition getAvailableOutputStyles : list OutputStyle := OUTPUT_STYLES.

(** What the module takes from elsewhere and is not in the sources: the
    two paths of [../constants], [join] of [pathe], the path of the module
    itself ([fileURLToPath(import.meta.url)]), [copyFile] and [removeFile]
    of [./fs-operations] and [writeJsonConfig] of [./json-config].  The
    module is modelled for any choice of them. *)
Class Host := {
  CLAUDE_DIR : string;
  SETTINGS_FILE : string;
  join : list string → string;
  currentFilePath : string;
  copyFile : string → string → M unit;
  removeFile : string → M unit;
  writeJsonConfig : string → value → M unit;
}.

Section WithHost.
Context `{Constants} `{Host}.

Definition outputStylesDir : string := join [CLAUDE_DIR; "output-styles"].

Definition templateDir (lang : string) : string :=
  let distDir := dirname (dirname currentFilePath) in
  let rootDir := dirname distDir in
  join [rootDir; "templates"; "common"; "output-styles"; lang].

(** [OUTPUT_STYLES.find(s => s.id === styleId)]. *)
Definition find_style (styleId : string) : option OutputStyle :=
  List.find (fun s => String.eqb (id s) styleId) OUTPUT_STYLES.

(** The file of a style that passes the test of the loop: the style is
    known, is custom and has a file path that is not empty. *)
Definition custom_file (styleId : string) : option string :=
  match find_style styleId with
  | Some style =>
      if isCustom style then
        match filePath style with
        | Some path => if String.eqb path "" then None else Some path
        | None => None
        end
      else None
  | None => None
  end.

(** The body of the loop of [copyOutputStyles], style by style. *)
Fixpoint copy_each (lang : string) (selectedStyles : list string) : M unit :=
  match selectedStyles with
  | [] => ret ()
  | styleId :: rest =>
      match custom_file styleId with
      | None => copy_each lang rest
      | Some path =>
          let sourcePath := join [templateDir lang; path] in
          let destPath := join [outputStylesDir; path] in
          let* present := existsSync sourcePath in
          do (if present then copyFile sourcePath destPath else ret ()) in
          copy_each lang rest
      end
  end.

Definition copyOutputStyles (e : env) (selectedStyles : list string) (lang : string)
  : M unit :=
  do ensureDir e outputStylesDir in
  copy_each lang selectedStyles.

Definition setGlobalDefaultOutputStyle (e : env) (styleId : string) : M unit :=
  let* raw := readJsonConfig e SETTINGS_FILE in
  let existingSettings := or_else raw (Obj []) in
  let updatedSettings :=
    spread_both existingSettings (Obj [("outputStyle", Str styleId)]) in
  writeJsonConfig SETTINGS_FILE updatedSettings.

(** [const { k: _, ...rest } = v]: the properties of [v] other than [k]. *)
Definition rest_without (k : string) (v : value) : value :=
  Obj (filter (fun kv => kv.1 ≠ k) (own_properties v)).

Definition clearGlobalOutputStyle (e : env) : M unit :=
  let* raw := readJsonConfig e SETTINGS_FILE in
  let existingSettings := or_else raw (Obj []) in
  writeJsonConfig SETTINGS_FILE (rest_without "outputStyle" existingSettings).

(** [LEGACY_FILES.some(filename => exists(join(CLAUDE_DIR, filename)))]. *)
Fixpoint some_exists (filenames : list string) : M bool :=
  match filenames with
  | [] => ret false
  | filename :: rest =>
      let* present := existsSync (join [CLAUDE_DIR; filename]) in
      if present then ret true else some_exists rest
  end.

Definition hasLegacyPersonalityFiles : M bool := some_exists LEGACY_FILES.

(** [LEGACY_FILES.forEach(...)]. *)
Fixpoint remove_existing (filenames : list string) : M unit :=
  match filenames with
  | [] => ret ()
  | filename :: rest =>
      let filePath := join [CLAUDE_DIR; filename] in
      let* present := existsSync filePath in
      do (if present then removeFile filePath else ret ()) in
      remove_existing rest
  end.

Definition cleanupLegacyPersonalityFiles : M unit := remove_existing LEGACY_FILES.

(** ** Notions used in the statements *)

(** [removeFile] removes the path it is given, when there is one. *)
Definition removes_files : Prop :=
  ∀ path (s : fs), is_Some (s !! path) → removeFile path s = (Ok (), delete path s).

(** What [writeJsonConfig] has written is what [readJsonConfig] reads. *)
Definition stores_json (e : env) : Prop :=
  ∀ path v (s s' : fs),
    writeJsonConfig path v s = (Ok (), s') → json_at e s' path = v.

(** The settings on disk: a table, or nothing that parses. *)
Definition settings_on_disk (e : env) (s : fs) : value :=
  json_at e s SETTINGS_FILE.

(** [copyFile] copies a file that is there. *)
Definition copies_files : Prop :=
  ∀ src dst c (s : fs),
    s !! src = Some (File c) → copyFile src dst s = (Ok (), <[dst := File c]> s).

(** The template of a style file, and where it is installed. *)
Definition template_path (lang path : string) : string :=
  join [templateDir lang; path].
Definition installed_path (path : string) : string :=
  join [outputStylesDir; path].

(** The templates are apart from the installed files, and two style files
    are installed at two paths. *)
Definition separate_paths (lang : string) : Prop :=
  (∀ p q, template_path lang p ≠ installed_path q)
  ∧ (∀ p, template_path lang p ≠ outputStylesDir)
  ∧ (∀ p q, installed_path p = installed_path q → p = q).

(** The legacy files of the personality, as paths. *)
Definition legacy_paths : list string :=
  map (fun filename => join [CLAUDE_DIR; filename]) LEGACY_FILES.

End WithHost.

(** ** A concrete host for the examples *)

Definition demo_host : Host := {|
  CLAUDE_DIR := "/home/u/.claude";
  SETTINGS_FILE := "/home/u/.claude/settings.json";
  join := fun parts => String.concat "/" parts;
  currentFilePath := "/opt/zcf/dist/chunks/output-style.mjs";
  copyFile := copyFileSync (calm "t");
  removeFile := fun path s => (Ok (), delete path s);
  writeJsonConfig := fun path v s => (Ok (), <[path := File (JsonText v)]> s);
|}.

(** Two legacy files of the personality and the settings. *)
Definition personality_state : fs :=
  <["/home/u/.claude/rules.md" := File (RawText (JsText.lit "rules"))]>
    (<["/home/u/.claude/mcp.md" := File (RawText (JsText.lit "mcp"))]>
       (<["/home/u/.claude/settings.json" :=
            File (JsonText (Obj [("model", Str "opus");
                                 ("outputStyle", Str "default")]))]> ∅)).

(** The templates of two styles, and an older installed file. *)
Definition templates_state : fs :=
  <["/home/u/.ufomiao/zcf/templates/common/output-styles/en/nekomata-engineer.md" :=
      File (RawText (JsText.lit "nekomata"))]>
    (<["/home/u/.ufomiao/zcf/templates/common/output-styles/en/rem-engineer.md" :=
         File (RawText (JsText.lit "rem"))]>
       (<["/home/u/.claude/output-styles/rem-engineer.md" :=
            File (RawText (JsText.lit "older"))]> ∅)).

End OutputStyles.

(* ===================================================================== *)
(** * Reading the patched fields back                                     *)
(* ===================================================================== *)

Module FieldSearch.
Import JsText TopLevel.
Local Open Scope N_scope.

(** [s.match(re)?.[0]]: the text of the first match of a field pattern. *)
Definition field_text (key s : jsstring) : option jsstring :=
  match field_search key s with
  | Some (i, len) => Some (take len (drop i s))
  | None => None
  end.

(** A value that the patcher writes and finds again as it is: no quote, no
    line terminator, no [#] and no [$]. *)
Definition literal_value (v : jsstring) : Prop :=
  Forall (fun c => is_quote c = false ∧ is_line_terminator c = false
                   ∧ (c =? HASH) = false ∧ (c =? DOLLAR) = false) v.

(** The text is at the end of a line: it is empty or starts with a line
    terminator. *)
Definition eol (Y : jsstring) : Prop :=
  match Y with
  | [] => True
  | c :: _ => is_line_terminator c = true
  end.

(** Whether [^] accepts the position after [A], when it accepts ([b]) or
    not the position before [A]. *)
Definition bol_after (b : bool) (A : jsstring) : bool :=
  match last A with
  | Some c => is_line_terminator c
  | None => b
  end.

(** No position of [A] starts a match of the pattern in [A ++ Z]. *)
Fixpoint quiet (key : jsstring) (b : bool) (A Z : jsstring) : Prop :=
  match A with
  | [] => True
  | c :: A' =>
      (b = true → field_match_here key (A ++ Z) = None)
      ∧ quiet key (is_line_terminator c) A' Z
  end.

(** The states of the pattern before the closing quote. *)
Definition before_quote (q : fstate) : bool :=
  match q with
  | FEq | FOpen | FValue => true
  | FTail | FComment => false
  end.

(** No match that has not reached its closing quote survives [Z]. *)
Definition blocking (Z : jsstring) : Prop :=
  ∀ q n, before_quote q = true → field_run q Z n = None.

(** The line that the patcher writes for a field: the key, [ = ], and the
    value between double quotes. *)
Definition field_line (key v : jsstring) : jsstring :=
  key ++ lit " = " ++ DQUOTE :: v ++ [DQUOTE].

(** A key of letters: it starts with none of [=], [[] and white space, and
    holds no quote, no line terminator and no [$]. *)
Definition plain_key (key : jsstring) : Prop :=
  (∃ k key', key = k :: key' ∧ (k =? EQUALS) = false ∧ is_white_space k = false
             ∧ (k =? LBRACKET) = false)
  ∧ Forall (fun c => is_quote c = false ∧ is_line_terminator c = false
                     ∧ (c =? DOLLAR) = false) key.

(** The first match of the pattern in [s] is the line [L]. *)
Definition anchored (key L s : jsstring) : Prop :=
  ∃ A B, s = A ++ L ++ B ∧ quiet key true A (L ++ B)
         ∧ bol_after true A = true ∧ eol B.

(** No section marker in [s], read from a position that [^] accepts ([b])
    or not. *)
Definition no_section (b : bool) (s : jsstring) : Prop :=
  section_search_from b s 0 = None.

(** The line [L], between [A] and [B], is the first match of the pattern. *)
Definition anchored_at (key L A B : jsstring) : Prop :=
  quiet key true A (L ++ B) ∧ bol_after true A = true ∧ eol B.

(** A text with the two lines that the patcher writes: [P], the first line,
    [Q], the second line and [R]; the version line is the first of the two
    or the second. *)
Definition two_lines (versionFirst : bool) (P Q R version lastUpdated : jsstring)
  : jsstring :=
  if versionFirst
  then P ++ version_line version ++ Q ++ lastUpdated_line lastUpdated ++ R
  else P ++ lastUpdated_line lastUpdated ++ Q ++ version_line version ++ R.

(** The frame [P], [Q], [R] of a top-level span that has been patched: for
    all values, the two lines are whole lines of it, each is the first
    match of its pattern, and there is no section marker. *)
Definition settled (versionFirst : bool) (P Q R : jsstring) : Prop :=
  bol_after true P = true ∧ Q ≠ [] ∧ eol Q ∧ bol_after true Q = true ∧ eol R
  ∧ no_section true P ∧ no_section true Q ∧ no_section true R
  ∧ ∀ v t, literal_value v → literal_value t →
      if versionFirst then
        quiet version_key true P
          (field_line version_key v ++ Q ++ field_line lastUpdated_key t ++ R)
        ∧ quiet lastUpdated_key true (P ++ field_line version_key v ++ Q)
            (field_line lastUpdated_key t ++ R)
      else
        quiet lastUpdated_key true P
          (field_line lastUpdated_key t ++ Q ++ field_line version_key v ++ R)
        ∧ quiet version_key true (P ++ field_line lastUpdated_key t ++ Q)
            (field_line version_key v ++ R).

(** One step of the patcher takes [s] to [s']: the line [L] stands in
    [s'] as a whole line, between [A] and [B].  Where the pattern of [key]
    matches in [s], the line is there in place of the first match, between
    the same [A] and [B]; where it matches nothing, [s'] is [s] with the
    line and one line feed put in, after the line or before it. *)
Definition one_edit (key L s s' : jsstring) : Prop :=
  ∃ A B,
    s' = A ++ L ++ B ∧ bol_after true A = true ∧ eol B
    ∧ match field_search key s with
      | Some (i, len) => i = length A ∧ s = A ++ take len (drop i s) ++ B
      | None =>
          (∃ B0, B = NL :: B0 ∧ s = A ++ B0) ∨ (∃ A0, A = A0 ++ [NL] ∧ s = A0 ++ B)
      end.

(** A document with both fields, comments and a section. *)
Definition commented_document : jsstring :=
  lit "# zcf" ++ NL :: lit "version = '0.9' # old" ++ NL
  :: lit "lastUpdated = 'never'" ++ NL :: NL :: lit "[general]" ++ [NL].

End FieldSearch.
(* ===================================================================== *)
(** * Proofs                                                              *)
(* ===================================================================== *)

(** Membership in a literal list, and its refutation. *)
Ltac in_list :=
  solve [repeat (first [apply list_elem_of_here | apply list_elem_of_further])].
Ltac not_in_list Hin :=
  repeat (apply elem_of_cons in Hin as [Hin|Hin]; [done|]);
  by apply elem_of_nil in Hin.

(** Case analysis on every test of the goal. *)
Ltac split_ifs :=
  repeat match goal with
         | |- context [if ?b then _ else _] => destruct b eqn:?
         end.

(** Comparisons of literal keys. *)
Ltac keys := cbn [String.eqb Ascii.eqb Bool.eqb andb orb].

(** Lists written with [++] and [::], associated to the right. *)
Ltac list_norm := repeat (rewrite <- app_assoc || rewrite <- app_comm_cons).


Module TopLevelFacts.
Import JsText TopLevel.
Local Open Scope N_scope.

Lemma split_lines_nonempty s : split_lines s ≠ [].
Proof.
  destruct s as [|c s]; simpl; [done|].
  destruct (c =? NL); [done|]. by destruct (split_lines s).
Qed.

Lemma join_split_lines s : join_lines (split_lines s) = s.
Proof.
  induction s as [|c s IH]; simpl; [done|].
  destruct (N.eqb_spec c NL) as [->|Hc].
  - pose proof (split_lines_nonempty s) as Hne.
    destruct (split_lines s) as [|l ls] eqn:E; [done|].
    simpl in *. by rewrite IH.
  - pose proof (split_lines_nonempty s) as Hne.
    destruct (split_lines s) as [|l ls] eqn:E; [done|].
    rewrite <- IH. simpl. by destruct ls.
Qed.

Lemma join_lines_app l1 l2 :
  l1 ≠ [] → l2 ≠ [] →
  join_lines (l1 ++ l2) = join_lines l1 ++ NL :: join_lines l2.
Proof.
  intros H1 H2. induction l1 as [|a l1 IH]; [done|].
  destruct l1 as [|b l1].
  - simpl. by destruct l2.
  - change (join_lines ((a :: b :: l1) ++ l2))
      with (a ++ NL :: join_lines ((b :: l1) ++ l2)).
    rewrite IH by done.
    change (join_lines (a :: b :: l1)) with (a ++ NL :: join_lines (b :: l1)).
    by rewrite <- app_assoc.
Qed.

Lemma insert_line_index_le ls i acc :
  (acc ≤ i → insert_line_index ls i acc ≤ i + length ls)%nat.
Proof.
  revert i acc. induction ls as [|l ls IH]; intros i acc H; simpl; [lia|].
  destruct (blank_or_comment l); [|lia].
  specialize (IH (S i) (S i)). lia.
Qed.

(** The two shapes of an insertion at a line boundary. *)
Lemma insert_shape top x :
  insertAtTopLevelStart top x = strip_final_newline x ++ NL :: top
  ∨ ∃ A Y, top = A ++ Y ∧ (Y = [] ∨ ∃ B, Y = NL :: B)
           ∧ insertAtTopLevelStart top x = A ++ NL :: strip_final_newline x ++ Y.
Proof.
  unfold insertAtTopLevelStart.
  set (ls := split_lines top). set (k := insert_line_index ls 0 0).
  set (x' := strip_final_newline x).
  assert (Hk : (k ≤ length ls)%nat).
  { pose proof (insert_line_index_le ls 0 0). unfold k. lia. }
  assert (Hne : ls ≠ []) by apply split_lines_nonempty.
  assert (Hj : join_lines ls = top) by apply join_split_lines.
  unfold splice_in.
  destruct (decide (k = 0%nat)) as [->|Hk0].
  - left. rewrite take_0, drop_0. simpl.
    destruct ls as [|l ls']; [done|]. by rewrite Hj.
  - right. exists (join_lines (take k ls)).
    assert (Ht : take k ls ≠ []).
    { destruct ls; [done|]. destruct k; [done|]. done. }
    destruct (decide (k = length ls)) as [Hkl|Hkl].
    + exists []. rewrite Hkl, firstn_all, drop_all, !app_nil_r.
      split; [by rewrite Hj|]. split; [by left|].
      by rewrite join_lines_app.
    + exists (NL :: join_lines (drop k ls)).
      assert (Hd : drop k ls ≠ []).
      { intros E. apply (f_equal length) in E. rewrite length_drop in E.
        simpl in E. lia. }
      split.
      { rewrite <- join_lines_app by done. by rewrite take_drop. }
      split; [right; eauto|].
      rewrite join_lines_app by done.
      change (join_lines (x' :: drop k ls)) with (join_lines ([x'] ++ drop k ls)).
      rewrite join_lines_app by done. done.
Qed.

Lemma run_comment_plain w Y m :
  Forall (fun c => is_line_terminator c = false) w → line_tail Y →
  field_run FComment (w ++ Y) m = Some (m + length w)%nat.
Proof.
  intros Hw HY. revert m. induction Hw as [|c w Hc _ IH]; intros m.
  - destruct HY as [->|[B ->]]; simpl; f_equal; lia.
  - simpl. rewrite Hc, IH. f_equal. lia.
Qed.

Lemma run_tail_plain w Y m :
  Forall (fun c => is_line_terminator c = false) w → line_tail Y →
  field_run FTail (w ++ DQUOTE :: Y) m = None
  ∨ field_run FTail (w ++ DQUOTE :: Y) m = Some (m + length w + 1)%nat.
Proof.
  intros Hw HY. revert m. induction Hw as [|c w Hc Hw IH]; intros m.
  - by left.
  - simpl. rewrite Hc. destruct (is_blank c).
    + destruct (IH (S m)) as [->| ->]; [by left|right; f_equal; lia].
    + destruct (c =? HASH); [|by left]. right.
      change (w ++ DQUOTE :: Y) with (w ++ [DQUOTE] ++ Y).
      rewrite app_assoc, run_comment_plain;
        [|apply Forall_app; split; [done|by repeat constructor]|done].
      f_equal. rewrite length_app. simpl. lia.
Qed.

Lemma run_value_plain v s m :
  Forall (fun c => is_quote c = false) v →
  field_run FValue (v ++ DQUOTE :: s) m = field_run FTail s (m + length v + 1)%nat.
Proof.
  intros Hv. revert m. induction Hv as [|c v Hc _ IH]; intros m; simpl.
  - f_equal. lia.
  - rewrite Hc, IH. f_equal. lia.
Qed.

Lemma plain_value_quote v : plain_value v → Forall (fun c => is_quote c = false) v.
Proof. intros H. eapply Forall_impl; [exact H|]. simpl. tauto. Qed.

Lemma plain_value_lt v :
  plain_value v → Forall (fun c => is_line_terminator c = false) v.
Proof. intros H. eapply Forall_impl; [exact H|]. simpl. tauto. Qed.

Lemma length_version_line v : length (version_line v) = (length v + 12)%nat.
Proof. unfold version_line. rewrite length_app. simpl. rewrite length_app. simpl. lia. Qed.

(** The version line, where the pattern is tried at its first code unit. *)
Lemma match_version_line v Y :
  plain_value v → line_tail Y →
  field_match_here version_key (version_line v ++ Y) = Some (length (version_line v)).
Proof.
  intros Hv HY. rewrite length_version_line.
  unfold field_match_here, version_line. simpl.
  rewrite <- app_assoc. simpl.
  rewrite run_value_plain by by apply plain_value_quote.
  destruct HY as [->|[B ->]]; simpl; f_equal; lia.
Qed.

(** Entering the inserted version line from the text before it. *)
Lemma run_into_version_line v Y q n :
  plain_value v → line_tail Y →
  field_run q Y n = None →
  field_run q (NL :: version_line v ++ Y) n = None
  ∨ field_run q (NL :: version_line v ++ Y) n = Some (n + 1 + length (version_line v))%nat.
Proof.
  intros Hv HY H. rewrite length_version_line.
  destruct q.
  - by left.
  - by left.
  - unfold version_line. simpl. rewrite <- app_assoc. simpl.
    match goal with
    | |- context [field_run FTail _ ?m] =>
        destruct (run_tail_plain v Y m) as [->| ->];
        [by apply plain_value_lt|done|by left|right; f_equal; lia]
    end.
  - destruct HY as [->|[B ->]]; simpl in H; discriminate.
  - destruct HY as [->|[B ->]]; simpl in H; discriminate.
Qed.

Lemma run_insert_version_line v Y X q n :
  plain_value v → line_tail Y →
  field_run q (X ++ Y) n = None →
  field_run q (X ++ NL :: version_line v ++ Y) n = None
  ∨ field_run q (X ++ NL :: version_line v ++ Y) n
    = Some (n + length X + 1 + length (version_line v))%nat.
Proof.
  intros Hv HY. revert q n. induction X as [|c X IH]; intros q n H.
  - cbn [app] in *.
    destruct (run_into_version_line v Y q n Hv HY H) as [E|E]; [by left|].
    right. rewrite E. f_equal. simpl. lia.
  - rewrite <- !app_comm_cons in *. cbn [field_run] in *.
    destruct q;
      repeat match goal with
             | |- context [if ?b then _ else _] => destruct b
             end;
      try discriminate; try (by left);
      (destruct (IH _ _ H) as [E|E]; [by left|right; rewrite E; f_equal; simpl; lia]).
Qed.

(** The literal key never runs over the line feed before the inserted line. *)
Lemma match_insert_version_line v Y key X n :
  plain_value v → line_tail Y → NL ∉ key →
  match strip_key key (X ++ Y) with
  | Some s' => field_run FEq s' (n + length key)
  | None => None
  end = None →
  let r := match strip_key key (X ++ NL :: version_line v ++ Y) with
           | Some s' => field_run FEq s' (n + length key)
           | None => None
           end in
  r = None ∨ r = Some (n + length X + 1 + length (version_line v))%nat.
Proof.
  intros Hv HY. revert X n. induction key as [|k key IH]; intros X n Hk H r.
  - subst r. cbn [strip_key length] in *.
    destruct (run_insert_version_line v Y X FEq (n + 0) Hv HY H) as [E|E];
      [by left|right; rewrite E; f_equal; lia].
  - subst r. destruct X as [|c X].
    + left. cbn [app strip_key]. destruct (N.eqb_spec k NL) as [->|]; [|done].
      exfalso. apply Hk. by left.
    + rewrite <- !app_comm_cons in *. cbn [strip_key length] in *.
      destruct (k =? c); [|by left].
      replace (n + S (length key))%nat with (S n + length key)%nat in * by lia.
      destruct (IH X (S n)) as [E|E]; [set_solver|done|by left|].
      right. rewrite E. f_equal. lia.
Qed.

Lemma here_insert_version_line v Y X :
  plain_value v → line_tail Y →
  field_match_here version_key (X ++ Y) = None →
  field_match_here version_key (X ++ NL :: version_line v ++ Y) = None
  ∨ field_match_here version_key (X ++ NL :: version_line v ++ Y)
    = Some (length X + 1 + length (version_line v))%nat.
Proof.
  intros Hv HY H.
  apply (match_insert_version_line v Y version_key X 0 Hv HY); [|exact H].
  vm_compute. intros Hin. repeat (apply elem_of_cons in Hin as [Hin|Hin]; [done|]).
  by apply elem_of_nil in Hin.
Qed.

(** The first match of the version pattern after the insertion ends where
    the inserted line ends. *)
Lemma search_insert_version_line v Y X bol i :
  plain_value v → line_tail Y →
  field_search_from version_key bol (X ++ Y) i = None →
  ∃ p len,
    field_search_from version_key bol (X ++ NL :: version_line v ++ Y) i
    = Some (p, len)
    ∧ (p + len = i + length X + 1 + length (version_line v))%nat.
Proof.
  intros Hv HY. revert bol i. induction X as [|c X IH]; intros bol i H.
  - cbn [app] in *.
    assert (Hline : field_search_from version_key true (version_line v ++ Y) (S i)
                    = Some (S i, length (version_line v))).
    { destruct (version_line v ++ Y) eqn:E; cbn [field_search_from];
        rewrite <- E, match_version_line; done. }
    cbn [field_search_from].
    change (is_line_terminator NL) with true.
    destruct bol; [|rewrite Hline; eexists _, _; split; [done|cbn [length]; lia]].
    assert (H0 : field_match_here version_key Y = None).
    { destruct Y; cbn [field_search_from] in H;
        destruct (field_match_here version_key _); done. }
    destruct (here_insert_version_line v Y [] Hv HY H0) as [E|E];
      cbn [app] in E; rewrite E.
    + rewrite Hline. eexists _, _; split; [done|cbn [length]; lia].
    + eexists _, _; split; [done|cbn [length]; lia].
  - rewrite <- !app_comm_cons in *. cbn [field_search_from] in *.
    destruct bol.
    + destruct (field_match_here version_key (c :: X ++ Y)) eqn:H0; [done|].
      destruct (here_insert_version_line v Y (c :: X) Hv HY H0) as [E|E];
        rewrite <- !app_comm_cons in E; rewrite E.
      * destruct (IH _ _ H) as (p & len & -> & Hp).
        eexists _, _; split; [done|cbn [length]; lia].
      * eexists _, _; split; [done|cbn [length]; lia].
    + destruct (IH _ _ H) as (p & len & -> & Hp).
      eexists _, _; split; [done|cbn [length]; lia].
Qed.

Lemma strip_final_newline_quote s :
  strip_final_newline (s ++ [DQUOTE]) = s ++ [DQUOTE].
Proof.
  induction s as [|c s IH]; [done|].
  rewrite <- app_comm_cons. cbn [strip_final_newline].
  rewrite IH. by destruct (s ++ [DQUOTE]) eqn:E; [destruct s|].
Qed.

Lemma strip_version_line v : strip_final_newline (version_line v) = version_line v.
Proof.
  unfold version_line.
  replace (lit "version = " ++ DQUOTE :: v ++ [DQUOTE])
    with ((lit "version = " ++ DQUOTE :: v) ++ [DQUOTE])
    by (by rewrite <- app_assoc).
  apply strip_final_newline_quote.
Qed.

Lemma strip_lastUpdated_line t :
  strip_final_newline (lastUpdated_line t) = lastUpdated_line t.
Proof.
  unfold lastUpdated_line.
  replace (lit "lastUpdated = " ++ DQUOTE :: t ++ [DQUOTE])
    with ((lit "lastUpdated = " ++ DQUOTE :: t) ++ [DQUOTE])
    by (by rewrite <- app_assoc).
  apply strip_final_newline_quote.
Qed.

(** Where the lastUpdated line goes when the version line was inserted
    just before. *)
Lemma insert_after_inserted_version top v t :
  plain_value v →
  field_search version_key top = None →
  ∃ a b,
    insertAfterVersionField (insertAtTopLevelStart top (version_line v))
                            (lastUpdated_line t)
    = a ++ version_line v ++ NL :: lastUpdated_line t ++ b.
Proof.
  intros Hv Hno. unfold insertAfterVersionField.
  rewrite strip_lastUpdated_line.
  destruct (insert_shape top (version_line v)) as [E|(A & Y & Htop & HY & E)];
    rewrite E, strip_version_line.
  - assert (Hs : field_search version_key (version_line v ++ NL :: top)
                 = Some (0%nat, length (version_line v))).
    { unfold field_search.
      destruct (version_line v ++ NL :: top) eqn:E'; cbn [field_search_from];
        rewrite <- E', match_version_line; [done..|right; eauto|done|done|right; eauto]. }
    rewrite Hs. exists [], (NL :: top). cbn [app Nat.add].
    by rewrite take_app_length, drop_app_length.
  - subst top. unfold field_search in *.
    destruct (search_insert_version_line v Y A true 0 Hv HY Hno)
      as (p & len & -> & Hp).
    exists (A ++ [NL]), Y.
    replace (p + len)%nat with (length (A ++ NL :: version_line v)) by
      (rewrite length_app; cbn [length]; lia).
    replace (A ++ NL :: version_line v ++ Y)
      with ((A ++ NL :: version_line v) ++ Y) by (by rewrite <- app_assoc).
    rewrite take_app_length, drop_app_length.
    by rewrite <- !app_assoc.
Qed.

Lemma ends_with_app_same p s : ends_with p (s ++ p) = true.
Proof.
  unfold ends_with. rewrite reverse_app.
  induction (reverse p) as [|c r IH]; [done|].
  simpl. by rewrite N.eqb_refl.
Qed.

Lemma section_search_head bol s i j :
  section_search_from bol s i = Some j →
  (i ≤ j)%nat ∧ head (drop (j - i) s) = Some LBRACKET.
Proof.
  revert bol i. induction s as [|c s IH]; intros bol i H; [done|].
  cbn [section_search_from] in H.
  destruct (bol && (c =? LBRACKET)) eqn:E.
  - injection H as <-. apply andb_true_iff in E as [_ Ec].
    apply N.eqb_eq in Ec as ->. rewrite Nat.sub_diag. split; [lia|done].
  - apply IH in H as [Hle Hh]. split; [lia|].
    replace (j - i)%nat with (S (j - S i)) by lia. done.
Qed.

Lemma section_search_bound bol s i j :
  section_search_from bol s i = Some j → (j < i + length s)%nat.
Proof.
  revert bol i. induction s as [|c s IH]; intros bol i H; [done|].
  cbn [section_search_from] in H.
  destruct (bol && (c =? LBRACKET)).
  - injection H as <-. simpl. lia.
  - apply IH in H. simpl. lia.
Qed.

(** The rest of the document is empty or starts at a section marker. *)
Lemma rest_starts_section content :
  let rest := drop (topLevelEnd content) content in
  rest = [] ∨ head rest = Some LBRACKET.
Proof.
  unfold topLevelEnd.
  destruct (section_search_from true content 0) as [j|] eqn:E; simpl.
  - right. apply section_search_head in E as [_ E].
    by rewrite Nat.sub_0_r in E.
  - left. apply drop_all.
Qed.

(** The order of the two lines where the version value holds no quote and
    no line terminator: when [updateTopLevelTomlFields] inserts both fields
    (the version pattern matches nothing in the top-level span, and the
    lastUpdated pattern matches nothing once the version line is in), the
    result has the version line, a line feed and the lastUpdated line, in
    this order, and all of it before the rest of the document, which is
    empty or starts at the first section marker. *)
Theorem version_before_lastUpdated content v t :
  let top := take (topLevelEnd content) content in
  let rest := drop (topLevelEnd content) content in
  field_search version_key top = None →
  field_search lastUpdated_key (insertAtTopLevelStart top (version_line v)) = None →
  plain_value v →
  (∃ a b, updateTopLevelTomlFields content v t
          = a ++ version_line v ++ NL :: lastUpdated_line t ++ b ++ rest)
  ∧ (rest = [] ∨ head rest = Some LBRACKET).
Proof.
  intros top rest H1 H2 Hv. split; [|apply rest_starts_section].
  unfold updateTopLevelTomlFields, patched_top, patch_version, patch_lastUpdated.
  fold top rest. rewrite H1, H2.
  destruct (insert_after_inserted_version top v t Hv H1) as (a & b & ->).
  match goal with
  | |- context [if ?c then _ else _] => destruct c
  end.
  - exists a, (b ++ [NL]). by list_norm.
  - exists a, b. by list_norm.
Qed.

Lemma ends_with_newline_trailing s :
  ends_with [NL] s = true ↔ (1 ≤ trailing_newlines s)%nat.
Proof.
  unfold ends_with, trailing_newlines. change (reverse [NL]) with [NL].
  destruct (reverse s) as [|c r]; cbn [starts_with leading_newlines];
    [split; [done|lia]|].
  rewrite andb_true_r, (N.eqb_sym NL c).
  destruct (c =? NL); split; (done || lia).
Qed.

Lemma final_top_app top rest content v t :
  updateTopLevelTomlFields content v t = top ++ rest →
  rest = drop (topLevelEnd content) content →
  final_top content v t = top.
Proof.
  intros Hr ->. unfold final_top. rewrite Hr, length_app.
  replace (length top + length (drop (topLevelEnd content) content)
           - length (drop (topLevelEnd content) content))%nat
    with (length top) by lia.
  apply take_app_length.
Qed.

(** C4, as amended.  When the rest of the document is not empty, the result
    is the top-level span followed by the rest, and the span ends with a line
    feed: one line feed is added when the patched span did not end with one,
    and the line feeds that were there are kept. *)
Theorem newline_before_rest content v t :
  let rest := drop (topLevelEnd content) content in
  let top := patched_top content v t in
  rest ≠ [] →
  updateTopLevelTomlFields content v t = final_top content v t ++ rest
  ∧ final_top content v t = top ++ (if ends_with [NL] top then [] else [NL])
  ∧ (1 ≤ trailing_newlines (final_top content v t))%nat.
Proof.
  intros rest top Hrest.
  assert (Hrun : updateTopLevelTomlFields content v t
                 = (top ++ (if ends_with [NL] top then [] else [NL])) ++ rest).
  { unfold updateTopLevelTomlFields. fold rest top.
    assert (Hlen : (length rest =? 0)%nat = false) by (by destruct rest).
    rewrite Hlen. cbn [negb andb].
    destruct (ends_with [NL] top) eqn:E.
    - cbn [negb]. by rewrite andb_false_r, app_nil_r.
    - assert (E2 : ends_with [NL; NL] top = false).
      { unfold ends_with in *. change (reverse [NL; NL]) with [NL; NL].
        change (reverse [NL]) with [NL] in E.
        destruct (reverse top) as [|c r]; [done|]. cbn [starts_with] in *.
        rewrite andb_true_r in E. by rewrite E. }
      by rewrite E2. }
  rewrite (final_top_app _ rest content v t Hrun eq_refl).
  split; [done|]. split; [done|].
  apply ends_with_newline_trailing.
  destruct (ends_with [NL] top) eqn:E; [by rewrite app_nil_r|].
  apply ends_with_app_same.
Qed.

(** ** The lastUpdated pattern after the version line went in *)

Lemma line_terminator_white_space c :
  is_line_terminator c = true → is_white_space c = true.
Proof.
  unfold is_line_terminator, is_white_space. intros Hc.
  repeat (apply orb_true_iff in Hc as [Hc|Hc]);
    apply N.eqb_eq in Hc as ->; reflexivity.
Qed.

Lemma blank_white_space c : is_blank c = true → is_white_space c = true.
Proof.
  unfold is_blank. intros Hc.
  apply orb_true_iff in Hc as [Hc|Hc]; apply N.eqb_eq in Hc as ->; reflexivity.
Qed.

Lemma clean_value_plain v : clean_value v → plain_value v.
Proof.
  intros Hv. eapply Forall_impl; [exact Hv|]. cbn beta.
  intros c (Hq & Hws & _). split; [done|].
  destruct (is_line_terminator c) eqn:E; [|done].
  apply line_terminator_white_space in E. congruence.
Qed.

Lemma run_tail_clean v Y m :
  clean_value v → field_run FTail (v ++ DQUOTE :: Y) m = None.
Proof.
  intros Hv. destruct Hv as [|c v (Hq & Hws & Hh) _]; [done|].
  cbn [app field_run].
  destruct (is_line_terminator c) eqn:E1;
    [apply line_terminator_white_space in E1; congruence|].
  destruct (is_blank c) eqn:E2; [apply blank_white_space in E2; congruence|].
  by rewrite Hh.
Qed.

Lemma run_insert_clean v Y X q n :
  clean_value v → line_tail Y →
  field_run q (X ++ Y) n = None →
  field_run q (X ++ NL :: version_line v ++ Y) n = None.
Proof.
  intros Hv HY. revert q n. induction X as [|c X IH]; intros q n H.
  - cbn [app] in *. destruct q.
    + done.
    + done.
    + unfold version_line. simpl. rewrite <- app_assoc. simpl.
      by apply run_tail_clean.
    + destruct HY as [->|[B ->]]; simpl in H; discriminate.
    + destruct HY as [->|[B ->]]; simpl in H; discriminate.
  - rewrite <- !app_comm_cons in *. cbn [field_run] in *.
    destruct q;
      repeat match goal with
             | |- context [if ?b then _ else _] => destruct b
             end;
      try discriminate; try done; by apply IH.
Qed.

Lemma match_insert_clean v Y key X n :
  clean_value v → line_tail Y → NL ∉ key →
  match strip_key key (X ++ Y) with
  | Some s' => field_run FEq s' (n + length key)
  | None => None
  end = None →
  match strip_key key (X ++ NL :: version_line v ++ Y) with
  | Some s' => field_run FEq s' (n + length key)
  | None => None
  end = None.
Proof.
  intros Hv HY. revert X n. induction key as [|k key IH]; intros X n Hk H.
  - cbn [strip_key length] in *. by apply run_insert_clean.
  - destruct X as [|c X].
    + cbn [app strip_key]. destruct (N.eqb_spec k NL) as [->|]; [|done].
      exfalso. apply Hk. by left.
    + rewrite <- !app_comm_cons in *. cbn [strip_key length] in *.
      destruct (k =? c); [|done].
      replace (n + S (length key))%nat with (S n + length key)%nat in * by lia.
      apply IH; [|done]. intros Hin. apply Hk. by right.
Qed.

Lemma lastUpdated_key_no_newline : NL ∉ lastUpdated_key.
Proof.
  vm_compute. intros Hin.
  repeat (apply elem_of_cons in Hin as [Hin|Hin]; [done|]).
  by apply elem_of_nil in Hin.
Qed.

Lemma here_insert_clean v Y X :
  clean_value v → line_tail Y →
  field_match_here lastUpdated_key (X ++ Y) = None →
  field_match_here lastUpdated_key (X ++ NL :: version_line v ++ Y) = None.
Proof.
  intros Hv HY H.
  apply (match_insert_clean v Y lastUpdated_key X 0 Hv HY); [|exact H].
  apply lastUpdated_key_no_newline.
Qed.

Lemma search_index key bol s i j :
  field_search_from key bol s i = None → field_search_from key bol s j = None.
Proof.
  revert bol i j. induction s as [|c s IH]; intros bol i j H;
    cbn [field_search_from] in *;
    destruct (if bol then field_match_here key _ else None); try done.
  by eapply IH.
Qed.

Lemma search_not_at_start key bol s i :
  field_search_from key bol s i = None → field_search_from key false s i = None.
Proof.
  destruct bol; [|done]. destruct s as [|c s]; cbn [field_search_from];
    by destruct (field_match_here key _).
Qed.

(** Inside a line the pattern is not tried. *)
Lemma search_inside_line key W Y i :
  Forall (fun c => is_line_terminator c = false) W →
  field_search_from key false Y (i + length W) = None →
  field_search_from key false (W ++ Y) i = None.
Proof.
  intros HW. revert i. induction HW as [|c W Hc _ IH]; intros i H.
  - by rewrite Nat.add_0_r in H.
  - cbn [app field_search_from]. rewrite Hc. apply IH.
    cbn [length] in H. by replace (S i + length W)%nat with (i + S (length W))%nat by lia.
Qed.

Lemma version_line_no_lt v :
  clean_value v → Forall (fun c => is_line_terminator c = false) (version_line v).
Proof.
  intros Hv. unfold version_line.
  apply Forall_app. split; [by repeat constructor|].
  apply Forall_cons. split; [done|].
  apply Forall_app. split; [|by repeat constructor].
  by apply plain_value_lt, clean_value_plain.
Qed.

(** The search of the lastUpdated pattern from the start of the inserted
    version line. *)
Lemma search_from_version_line v Y i :
  clean_value v →
  field_search_from lastUpdated_key false Y 0 = None →
  field_search_from lastUpdated_key true (version_line v ++ Y) i = None.
Proof.
  intros Hv HY.
  pose proof (version_line_no_lt v Hv) as Hlt.
  assert (Hhere : field_match_here lastUpdated_key (version_line v ++ Y) = None)
    by reflexivity.
  destruct (version_line v) as [|c V] eqn:E; [done|].
  rewrite <- app_comm_cons. cbn [field_search_from].
  rewrite <- app_comm_cons in Hhere. rewrite Hhere.
  apply Forall_cons in Hlt as [Hc HV]. rewrite Hc.
  apply search_inside_line; [done|]. by eapply search_index.
Qed.

Lemma search_insert_clean v Y X bol i :
  clean_value v → line_tail Y →
  field_search_from lastUpdated_key bol (X ++ Y) i = None →
  field_search_from lastUpdated_key bol (X ++ NL :: version_line v ++ Y) i = None.
Proof.
  intros Hv HY. revert bol i. induction X as [|c X IH]; intros bol i H.
  - cbn [app] in *. cbn [field_search_from].
    change (is_line_terminator NL) with true.
    assert (Hline : field_search_from lastUpdated_key true (version_line v ++ Y) (S i)
                    = None).
    { apply search_from_version_line; [done|].
      eapply search_index, search_not_at_start, H. }
    destruct bol; [|done].
    assert (H0 : field_match_here lastUpdated_key Y = None).
    { destruct Y; cbn [field_search_from] in H;
        destruct (field_match_here lastUpdated_key _); done. }
    pose proof (here_insert_clean v Y [] Hv HY H0) as E. cbn [app] in E.
    by rewrite E.
  - rewrite <- !app_comm_cons in *. cbn [field_search_from] in *.
    destruct bol.
    + destruct (field_match_here lastUpdated_key (c :: X ++ Y)) eqn:H0; [done|].
      pose proof (here_insert_clean v Y (c :: X) Hv HY H0) as E.
      rewrite <- !app_comm_cons in E. rewrite E. by apply IH.
    + by apply IH.
Qed.

(** In a document with neither field, the lastUpdated pattern still matches
    nothing once the version line is in. *)
Lemma lastUpdated_absent_after_version top v :
  clean_value v →
  field_search lastUpdated_key top = None →
  field_search lastUpdated_key (insertAtTopLevelStart top (version_line v)) = None.
Proof.
  intros Hv Hno. unfold field_search in *.
  destruct (insert_shape top (version_line v)) as [E|(A & Y & Htop & HY & E)];
    rewrite E, strip_version_line.
  - apply search_from_version_line; [done|].
    cbn [field_search_from]. change (is_line_terminator NL) with true.
    by eapply search_index.
  - subst top. by apply search_insert_clean.
Qed.

(** ** Occurrences *)

Lemma starts_with_app p s : starts_with p (p ++ s) = true.
Proof. induction p as [|c p IH]; [done|]. simpl. by rewrite N.eqb_refl. Qed.

Lemma occurs_app a p b : occurs p (a ++ p ++ b) = true.
Proof.
  induction a as [|c a IH].
  - cbn [app]. destruct (p ++ b) eqn:E; cbn [occurs]; rewrite <- E;
      by rewrite starts_with_app.
  - cbn [app occurs]. rewrite IH. apply orb_true_r.
Qed.

Lemma occurs_before_app a p b q c :
  occurs_before p q (a ++ p ++ b ++ q ++ c) = true.
Proof.
  induction a as [|x a IH].
  - cbn [app]. destruct (p ++ b ++ q ++ c) eqn:E; cbn [occurs_before];
      rewrite <- E; by rewrite starts_with_app, drop_app_length, occurs_app.
  - cbn [app occurs_before]. rewrite IH. apply orb_true_r.
Qed.

(** ** Examples *)

Lemma plain_version : plain_value (lit "1.0.0").
Proof. repeat constructor. Qed.

(** The order of the two lines on a document with a header comment and a
    section. *)
Lemma version_before_lastUpdated_witness :
  field_search version_key (take (topLevelEnd header_document) header_document) = None
  ∧ field_search lastUpdated_key
      (insertAtTopLevelStart (take (topLevelEnd header_document) header_document)
                             (version_line (lit "1.0.0"))) = None
  ∧ plain_value (lit "1.0.0")
  ∧ (∃ a b,
       updateTopLevelTomlFields header_document (lit "1.0.0") (lit "2025-06-01")
       = a ++ version_line (lit "1.0.0") ++ NL :: lastUpdated_line (lit "2025-06-01")
           ++ b ++ drop (topLevelEnd header_document) header_document)
  ∧ (drop (topLevelEnd header_document) header_document = []
     ∨ head (drop (topLevelEnd header_document) header_document) = Some LBRACKET).
Proof.
  assert (H1 : field_search version_key
                 (take (topLevelEnd header_document) header_document) = None)
    by (vm_compute; reflexivity).
  assert (H2 : field_search lastUpdated_key
                 (insertAtTopLevelStart
                    (take (topLevelEnd header_document) header_document)
                    (version_line (lit "1.0.0"))) = None)
    by (vm_compute; reflexivity).
  split; [exact H1|]. split; [exact H2|]. split; [exact plain_version|].
  exact (version_before_lastUpdated header_document (lit "1.0.0") (lit "2025-06-01")
           H1 H2 plain_version).
Defined.

(** C3.  A quote in the version value: on the document that is the one
    section [[general]], with the version [quoted_version] (a one, a double
    quote and a zero), the patcher inserts both fields and the lastUpdated
    line lands before the version line.  The version pattern, which
    [insertAfterVersionField] uses to find the line just inserted, does not
    match a value with a quote in it. *)
Lemma lastUpdated_lands_before_quoted_version :
  let top := take (topLevelEnd section_only_document) section_only_document in
  let result :=
    updateTopLevelTomlFields section_only_document quoted_version (lit "2025-06-01") in
  field_search version_key top = None
  ∧ field_search lastUpdated_key top = None
  ∧ field_search lastUpdated_key
      (insertAtTopLevelStart top (version_line quoted_version)) = None
  ∧ result = NL :: lastUpdated_line (lit "2025-06-01")
             ++ NL :: version_line quoted_version ++ NL :: section_only_document
  ∧ ¬ (∃ a b c, result = a ++ version_line quoted_version ++ b
                         ++ lastUpdated_line (lit "2025-06-01") ++ c).
Proof.
  intros top result. split; [vm_compute; reflexivity|].
  split; [vm_compute; reflexivity|]. split; [vm_compute; reflexivity|].
  split; [vm_compute; reflexivity|].
  intros (a & b & c & Hr).
  assert (Hocc : occurs_before (version_line quoted_version)
                   (lastUpdated_line (lit "2025-06-01")) result = true)
    by (rewrite Hr; apply occurs_before_app).
  vm_compute in Hocc. discriminate Hocc.
Qed.

(** The theorem of C4 on a document with a header comment and a section. *)
Lemma newline_before_rest_witness :
  drop (topLevelEnd header_document) header_document ≠ []
  ∧ updateTopLevelTomlFields header_document (lit "1.0.0") (lit "2025-06-01")
    = final_top header_document (lit "1.0.0") (lit "2025-06-01")
      ++ drop (topLevelEnd header_document) header_document
  ∧ (1 ≤ trailing_newlines
           (final_top header_document (lit "1.0.0") (lit "2025-06-01")))%nat.
Proof.
  assert (H1 : drop (topLevelEnd header_document) header_document ≠ [])
    by (vm_compute; discriminate).
  split; [exact H1|].
  destruct (newline_before_rest header_document (lit "1.0.0") (lit "2025-06-01") H1)
    as (Hr & _ & Hn).
  split; [exact Hr|exact Hn].
Defined.

(** C4, counterexample: a blank line before the first section. *)
Lemma blank_line_before_section_is_kept :
  drop (topLevelEnd spaced_document) spaced_document ≠ []
  ∧ trailing_newlines (final_top spaced_document (lit "1.0.0") (lit "2025-06-01")) = 2%nat.
Proof. split; [vm_compute; discriminate|vm_compute; reflexivity]. Qed.

End TopLevelFacts.
Module StoreFacts.
Import Js Store.
Local Open Scope string_scope.

(** ** Objects *)

Lemma eqb_string_refl (k : string) : String.eqb k k = true.
Proof. apply String.eqb_refl. Qed.

Lemma eqb_string_ne (k k' : string) : k ≠ k' → String.eqb k k' = false.
Proof. intros Hne. by apply String.eqb_neq. Qed.

Lemma lookup_update_eq k v fields : lookup_field k (update_field k v fields) = v.
Proof.
  induction fields as [|[k' v'] fields IH]; cbn [update_field lookup_field].
  - by rewrite eqb_string_refl.
  - destruct (String.eqb k k') eqn:E; cbn [lookup_field].
    + by rewrite eqb_string_refl.
    + by rewrite E.
Qed.

Lemma lookup_update_ne k k' v fields :
  k ≠ k' → lookup_field k' (update_field k v fields) = lookup_field k' fields.
Proof.
  intros Hne. induction fields as [|[k0 v0] fields IH]; cbn [update_field lookup_field].
  - by rewrite eqb_string_ne.
  - destruct (String.eqb k k0) eqn:E; cbn [lookup_field].
    + apply String.eqb_eq in E as <-. by rewrite !eqb_string_ne.
    + by rewrite IH.
Qed.

Lemma get_set_eq fields k v : get (set (Obj fields) k v) k = v.
Proof. apply lookup_update_eq. Qed.

Lemma get_set_ne o k k' v : k ≠ k' → get (set o k v) k' = get o k'.
Proof. intros Hne. destruct o; try done. by apply lookup_update_ne. Qed.

Lemma set_is_obj fields k v : ∃ fields', set (Obj fields) k v = Obj fields'.
Proof. by eexists. Qed.

(** ** The editor *)

Lemma apply_edit_ok table fields ed (s s' : fs) table' :
  table = Obj fields →
  apply_edit table ed s = (Ok table', s') →
  s' = s
  ∧ (∃ fields', table' = Obj fields')
  ∧ (∀ section key,
       get (get table' section) key
       = edited_value section key [ed] (get (get table section) key))
  ∧ (∀ k, k ≠ ed.1.1 → get table' k = get table k)
  ∧ (∃ g, get table' ed.1.1 = Obj g).
Proof.
  intros -> Hrun. destruct ed as [[section' key'] v]. cbn [apply_edit] in Hrun.
  cbn [edited_value fst].
  assert (Hcase : ∀ sec : value,
    table' = set (Obj fields) section' sec →
    (∀ key, get sec key
            = if String.eqb key key' then v
              else get (get (Obj fields) section') key) →
    (∃ fields', table' = Obj fields')
    ∧ (∀ section key,
         get (get table' section) key
         = (if String.eqb section section' && String.eqb key key' then v
            else get (get (Obj fields) section) key))
    ∧ (∀ k, k ≠ section' → get table' k = get (Obj fields) k)
    ∧ get table' section' = sec).
  { intros sec -> Hsec. split; [by eexists|]. split; [|split].
    - intros section key. destruct (String.eqb section section') eqn:E.
      + apply String.eqb_eq in E as ->. rewrite get_set_eq, Hsec.
        by destruct (String.eqb key key').
      + apply String.eqb_neq in E. by rewrite get_set_ne.
    - intros k Hk. by rewrite get_set_ne.
    - apply get_set_eq. }
  destruct (get (Obj fields) section') as [| | | | | |g] eqn:Hsec;
    try discriminate; injection Hrun as <- <-; (split; [done|]).
  - edestruct Hcase as (H1 & H2 & H3 & H4); [reflexivity| |].
    + intros key. cbn [get lookup_field]. rewrite String.eqb_sym.
      by destruct (String.eqb key' key).
    + repeat split; try done. rewrite H4. by eexists.
  - edestruct Hcase as (H1 & H2 & H3 & H4); [reflexivity| |].
    + intros key. destruct (String.eqb key key') eqn:E.
      * apply String.eqb_eq in E as ->. apply get_set_eq.
      * apply String.eqb_neq in E. apply (get_set_ne (Obj g) key' key v).
        by intros ->.
    + repeat split; try done. rewrite H4. by eexists.
Qed.

Lemma apply_edits_ok edits : ∀ table fields (s s' : fs) table',
  table = Obj fields →
  apply_edits table edits s = (Ok table', s') →
  s' = s
  ∧ (∃ fields', table' = Obj fields')
  ∧ (∀ section key,
       get (get table' section) key
       = edited_value section key edits (get (get table section) key))
  ∧ (∀ k, ¬ touches k edits → get table' k = get table k)
  ∧ (∀ k, touches k edits ∨ (∃ g, get table k = Obj g) → ∃ g, get table' k = Obj g).
Proof.
  induction edits as [|ed edits IH]; intros table fields s s' table' Htable Hrun.
  - injection Hrun as <- <-. subst. split; [done|]. split; [by eexists|].
    split; [done|]. split; [done|].
    intros k [(key & v & Hin)|Hk]; [by apply elem_of_nil in Hin|done].
  - cbn [apply_edits] in Hrun. unfold bind in Hrun.
    destruct (apply_edit table ed s) as [[t1|err] s1] eqn:Hstep; [|done].
    destruct (apply_edit_ok _ _ _ _ _ _ Htable Hstep)
      as (-> & [f1 Hf1] & Hget1 & Hother1 & Hsec1).
    destruct (IH _ _ _ _ _ Hf1 Hrun) as (-> & Hobj & Hget & Hother & Hsec).
    split; [done|]. split; [done|]. split; [|split].
    + intros section key. rewrite Hget, Hget1. by destruct ed as [[? ?] ?].
    + intros k Hk. rewrite Hother, Hother1; [done| |].
      * intros ->. apply Hk. destruct ed as [[sec key] v]. exists key, v. by left.
      * intros (key & v & Hin). apply Hk. exists key, v. by right.
    + intros k Hk. apply Hsec.
      destruct (decide (k = ed.1.1)) as [->|Hne]; [by right|].
      destruct Hk as [(key & v & Hin)|Hk].
      * apply elem_of_cons in Hin as [<-|Hin]; [done|]. left. by exists key, v.
      * right. by rewrite Hother1.
Qed.

Lemma apply_edit_throws table ed (s s' : fs) err :
  apply_edit table ed s = (Throw err, s') → s' = s.
Proof.
  destruct ed as [[section key] v]. cbn [apply_edit].
  destruct (get table section); intros Hrun; by injection Hrun.
Qed.

Lemma apply_edits_state edits : ∀ table fields (s s' : fs) r,
  table = Obj fields → apply_edits table edits s = (r, s') → s' = s.
Proof.
  induction edits as [|ed edits IH]; intros table fields s s' r Htable Hrun.
  - by injection Hrun.
  - cbn [apply_edits] in Hrun. unfold bind in Hrun.
    destruct (apply_edit table ed s) as [[t1|err] s1] eqn:Hstep.
    + destruct (apply_edit_ok _ _ _ _ _ _ Htable Hstep) as (-> & [f1 Hf1] & _).
      by eapply IH.
    + injection Hrun as _ <-. by eapply apply_edit_throws.
Qed.


(** ** The serializer *)

Lemma lookup_field_not_in k fields :
  k ∉ map fst fields → lookup_field k fields = Undefined.
Proof.
  induction fields as [|[k' v] fields IH]; intros Hnin; [done|].
  cbn [lookup_field]. rewrite eqb_string_ne.
  - apply IH. intros Hin. apply Hnin. by right.
  - intros ->. apply Hnin. by left.
Qed.

Lemma prune_fields_keys fields k :
  k ∈ map fst (prune_fields prune fields) → k ∈ map fst fields.
Proof.
  induction fields as [|[k' v] fields IH]; [done|].
  cbn [prune_fields map fst].
  destruct v; cbn [map fst]; intros Hin;
    try (right; by apply IH);
    (apply elem_of_cons in Hin as [->|Hin]; [by left|right; by apply IH]).
Qed.

Lemma prune_lookup fields k :
  NoDup (map fst fields) →
  get (prune (Obj fields)) k
  = match get (Obj fields) k with
    | Undefined | Null => Undefined
    | x => prune x
    end.
Proof.
  cbn [prune get].
  induction fields as [|[k' v] fields IH]; intros Hnd; [done|].
  apply NoDup_cons in Hnd as [Hk' Hnd]. cbn [map fst] in Hk'.
  cbn [prune_fields lookup_field].
  destruct (String.eqb k k') eqn:E.
  - apply String.eqb_eq in E as ->.
    assert (Hgone : lookup_field k' (prune_fields prune fields) = Undefined).
    { apply lookup_field_not_in. intros Hin. by apply Hk', prune_fields_keys. }
    destruct v; cbn [lookup_field]; rewrite ?eqb_string_refl; done.
  - destruct v; cbn [lookup_field]; rewrite ?E; by apply IH.
Qed.

Lemma prune_flat v : flat v → prune v = v.
Proof. by destruct v. Qed.

Lemma prune_get_flat fields k v :
  NoDup (map fst fields) → get (Obj fields) k = v → flat v →
  get (prune (Obj fields)) k = v.
Proof. intros Hnd <- Hv. rewrite prune_lookup by done. by destruct (get _ _). Qed.

Lemma prune_get_section fields section g key v :
  NoDup (map fst fields) → get (Obj fields) section = Obj g →
  NoDup (map fst g) → get (Obj g) key = v → flat v →
  get (get (prune (Obj fields)) section) key = v.
Proof.
  intros Hnd Hsec Hg Hkey Hv. rewrite prune_lookup, Hsec by done.
  by apply prune_get_flat.
Qed.

Lemma prune_get_absent fields section g key :
  NoDup (map fst fields) → get (Obj fields) section = Obj g →
  NoDup (map fst g) → get (Obj g) key = Undefined →
  get (get (prune (Obj fields)) section) key = Undefined.
Proof.
  intros Hnd Hsec Hg Hkey. rewrite prune_lookup, Hsec by done.
  change (get (prune (Obj g)) key = Undefined).
  rewrite prune_lookup by done. by rewrite Hkey.
Qed.

Lemma update_field_keys k v fields :
  NoDup (map fst fields) → NoDup (map fst (update_field k v fields)).
Proof.
  induction fields as [|[k' v'] fields IH]; intros Hnd.
  - cbn. apply NoDup_singleton.
  - apply NoDup_cons in Hnd as [Hk' Hnd]. cbn [update_field].
    destruct (String.eqb k k') eqn:E; cbn [map fst].
    + apply String.eqb_eq in E as ->. by apply NoDup_cons.
    + apply NoDup_cons. split; [|by apply IH].
      intros Hin. apply Hk'. clear IH Hnd Hk'.
      induction fields as [|[k0 v0] fields IH]; cbn [update_field map fst] in Hin.
      * apply list_elem_of_singleton in Hin as ->. by rewrite eqb_string_refl in E.
      * destruct (String.eqb k k0) eqn:E0; cbn [map fst] in *.
        -- apply String.eqb_eq in E0 as ->.
           apply elem_of_cons in Hin as [->|Hin]; [by rewrite eqb_string_refl in E|by right].
        -- apply elem_of_cons in Hin as [->|Hin]; [by left|right; by apply IH].
Qed.

Section WriteFacts.
Context `{Constants}.

(** ** The configuration handed to [writeTomlConfig] *)

Lemma build_edits_sections config (s : fs) :
  has_sections config → build_edits config s = (Ok (edits_of config), s).
Proof. intros (v & l & g & c & x & -> & _). reflexivity. Qed.

Lemma sanitized_get cf k :
  get (sanitized (Obj cf)) k
  = if String.eqb k "codeToolType"
    then sanitizeCodeToolType (get (Obj cf) "codeToolType")
    else get (Obj cf) k.
Proof.
  unfold sanitized. cbn [spread].
  destruct (String.eqb k "codeToolType") eqn:E.
  - apply String.eqb_eq in E as ->. apply get_set_eq.
  - apply String.eqb_neq in E. by rewrite get_set_ne.
Qed.

Lemma NoDup_keys (l : list string) : bool_decide (NoDup l) = true → NoDup l.
Proof. intros Hb. by apply bool_decide_eq_true in Hb. Qed.

Lemma migrateFromJsonConfig_sections e jsonConfig :
  has_sections (migrateFromJsonConfig e jsonConfig).
Proof.
  unfold migrateFromJsonConfig. eexists _, _, _, _, _. split; [reflexivity|].
  repeat split; apply NoDup_keys; vm_compute; reflexivity.
Qed.

Lemma set_in_sections config section key v :
  has_sections config →
  section = "general" ∨ section = "claudeCode" ∨ section = "codex" →
  has_sections (set_in config section key v).
Proof.
  intros (ve & l & g & c & x & -> & Hg & Hc & Hx) [->|[->| ->]];
    (eexists _, _, _, _, _; split; [reflexivity|]);
    repeat split; try done; by apply update_field_keys.
Qed.

Lemma carry_forward_sections existing sanitizedConfig config :
  has_sections config →
  has_sections (carry_forward existing sanitizedConfig config).
Proof.
  intros Hc. unfold carry_forward. cbv zeta.
  repeat match goal with
         | |- has_sections (if ?b then _ else _) => destruct b
         | |- has_sections (set_in _ _ _ _) => apply set_in_sections; [|by auto]
         end; done.
Qed.

Lemma toml_to_write_sections e existing config :
  has_sections (toml_to_write e existing config).
Proof. apply carry_forward_sections, migrateFromJsonConfig_sections. Qed.

(** ** What the edits do to one path *)

Lemma edited_value_app section key l1 l2 d :
  edited_value section key (l1 ++ l2) d
  = edited_value section key l2 (edited_value section key l1 d).
Proof.
  revert d. induction l1 as [|[[s' k'] v] l1 IH]; intros d; [done|].
  cbn [app edited_value]. apply IH.
Qed.

Lemma edited_value_optional section key s' k' v d :
  edited_value section key (optional_edit s' k' v) d
  = if String.eqb section s' && String.eqb key k' && is_defined v then v else d.
Proof.
  unfold optional_edit. destruct (is_defined v); cbn [edited_value].
  - by rewrite andb_true_r.
  - by rewrite andb_false_r.
Qed.

Lemma edited_value_edits_of config section key d :
  edited_value section key (edits_of config) d
  = if bool_decide ((section, key) ∈ always_edited)
    then get (get config section) key
    else if bool_decide ((section, key) ∈ edited_if_defined)
            && is_defined (get (get config section) key)
         then get (get config section) key
         else d.
Proof.
  unfold edits_of. cbv zeta.
  rewrite !edited_value_app, !edited_value_optional. cbn [edited_value].
  destruct (decide ((section, key) ∈ always_edited)) as [Hin|Hnin].
  - rewrite bool_decide_eq_true_2 by done.
    unfold always_edited in Hin.
    repeat (apply elem_of_cons in Hin as [Hin|Hin];
            [injection Hin as -> ->;
             cbn [String.eqb Ascii.eqb Bool.eqb andb]; by split_ifs|]).
    by apply elem_of_nil in Hin.
  - rewrite bool_decide_eq_false_2 by done.
    destruct (decide ((section, key) ∈ edited_if_defined)) as [Hin|Hnin2].
    + rewrite bool_decide_eq_true_2 by done. unfold edited_if_defined in Hin.
      repeat (apply elem_of_cons in Hin as [Hin|Hin];
              [injection Hin as -> ->;
               cbn [String.eqb Ascii.eqb Bool.eqb andb]; by split_ifs|]).
      by apply elem_of_nil in Hin.
    + rewrite bool_decide_eq_false_2 by done. cbn [andb].
      assert (Hmiss : ∀ s' k',
        (s', k') ∈ always_edited ∨ (s', k') ∈ edited_if_defined →
        String.eqb section s' && String.eqb key k' = false).
      { intros s' k' Hin. apply andb_false_iff.
        destruct (String.eqb section s') eqn:E1; [|by left].
        destruct (String.eqb key k') eqn:E2; [|by right].
        apply String.eqb_eq in E1 as ->. apply String.eqb_eq in E2 as ->.
        by destruct Hin. }
      rewrite !Hmiss; [done|..];
        first [left; unfold always_edited; in_list
              |right; unfold edited_if_defined; in_list].
Qed.
End WriteFacts.

Section MigrationFacts.
Context `{Constants}.

Lemma remove_each_returns e paths removed s :
  ∃ r s', remove_each e paths removed s = (Ok r, s').
Proof.
  revert removed s. induction paths as [|p paths IH]; intros removed s.
  - by eexists _, _.
  - cbn [remove_each]. unfold bind at 1, try_catch, bind.
    destruct (rmSync e p s) as [[[]|err] s1]; apply IH.
Qed.

(** C2, as amended.  [migrateZcfConfigIfNeeded] returns a result, whatever
    deletions fail, when the canonical file exists, when no legacy source
    exists, or when the move of the first legacy source goes through. *)
Theorem migrate_returns e s :
  is_Some (s !! ZCF_CONFIG_FILE)
  ∨ legacy_sources s = []
  ∨ (∃ source rest s1, legacy_sources s = source :: rest
       ∧ move_legacy e source ZCF_CONFIG_FILE s = (Ok (), s1)) →
  ∃ r s', migrateZcfConfigIfNeeded e s = (Ok r, s').
Proof.
  intros Hcase. unfold migrateZcfConfigIfNeeded, bind at 1 2, existsSync.
  destruct (legacy_sources s) as [|source rest] eqn:Hsrc; [by eexists _, _|].
  case_bool_decide as Ht; cbn [negb].
  - unfold bind.
    destruct (remove_each_returns e (source :: rest) [] s) as (r & s' & ->).
    by eexists _, _.
  - destruct Hcase as [?|[?|(source' & rest' & s1 & Heq & Hmove)]]; [done..|].
    injection Heq as <- <-. unfold bind at 1. rewrite Hmove. unfold bind.
    destruct (remove_each_returns e rest [] s1) as (r & s' & ->).
    by eexists _, _.
Qed.

(** The state after the deletion of each path in turn. *)
Lemma remove_each_benign e paths removed (s : fs) :
  benign e → (∀ p, p ∈ paths → s !! p ≠ Some Dir) →
  remove_each e paths removed s
  = (Ok (removed ++ paths)%list, foldl (fun m p => delete p m) s paths).
Proof.
  intros (_ & Hunlink & _) . revert removed s.
  induction paths as [|p paths IH]; intros removed s Hnodir.
  - by rewrite app_nil_r.
  - cbn [remove_each foldl]. unfold bind at 1, try_catch, bind at 1, rmSync.
    assert (Hp : s !! p ≠ Some Dir) by (apply Hnodir; by left).
    assert (Hrest : ∀ s' : fs, (∀ q, s' !! q = None ∨ s' !! q = s !! q) →
              ∀ q, q ∈ paths → s' !! q ≠ Some Dir).
    { intros s' Hs' q Hq. destruct (Hs' q) as [->| ->]; [done|].
      apply Hnodir. by right. }
    destruct (s !! p) as [[c|]|] eqn:E; [|done|].
    + rewrite Hunlink. cbn [ret]. rewrite IH.
      * by rewrite <- app_assoc.
      * apply Hrest. intros q. destruct (decide (p = q)) as [->|Hne].
        -- left. apply lookup_delete_eq.
        -- right. by apply lookup_delete_ne.
    + cbn [ret]. rewrite IH.
      * rewrite <- app_assoc. by rewrite delete_id.
      * apply Hrest. by right.
Qed.

Lemma lookup_delete_each (s : fs) paths q :
  foldl (fun m p => delete p m) s paths !! q
  = if decide (q ∈ paths) then None else s !! q.
Proof.
  revert s. induction paths as [|p paths IH]; intros s; cbn [foldl].
  - destruct (decide (q ∈ [])) as [Hin|]; [|done]. by apply elem_of_nil in Hin.
  - rewrite IH. destruct (decide (q ∈ paths)) as [Hin|Hnin].
    + destruct (decide (q ∈ p :: paths)) as [|Hn]; [done|].
      exfalso. apply Hn. by right.
    + destruct (decide (q = p)) as [->|Hne].
      * destruct (decide (p ∈ p :: paths)) as [|Hn]; [apply lookup_delete_eq|].
        exfalso. apply Hn. by left.
      * destruct (decide (q ∈ p :: paths)) as [Hin|]; [|by apply lookup_delete_ne].
        apply elem_of_cons in Hin as [?|?]; done.
Qed.

Lemma legacy_sources_nil (s : fs) :
  (∀ p, p ∈ LEGACY_ZCF_CONFIG_FILES → s !! p = None) → legacy_sources s = [].
Proof.
  intros Hs. unfold legacy_sources.
  induction LEGACY_ZCF_CONFIG_FILES as [|p l IH]; [done|].
  rewrite filter_cons_False.
  - apply IH. intros q Hq. apply Hs. by right.
  - rewrite Hs by by left. by intros [? ?].
Qed.

Lemma elem_of_legacy_sources (s : fs) p :
  p ∈ legacy_sources s ↔ p ∈ LEGACY_ZCF_CONFIG_FILES ∧ is_Some (s !! p).
Proof. unfold legacy_sources. rewrite list_elem_of_filter. tauto. Qed.

Lemma migrate_nothing e (s : fs) :
  legacy_sources s = [] →
  migrateZcfConfigIfNeeded e s = (Ok nothing_to_migrate, s).
Proof.
  intros Hs. unfold migrateZcfConfigIfNeeded, bind, existsSync. by rewrite Hs.
Qed.

(** The move puts the node of the source at the target and leaves every
    other legacy path as it was. *)
Lemma move_legacy_benign e source (s : fs) :
  benign e → distinct_paths → legacy_files_only s →
  source ∈ legacy_sources s →
  ∃ s1, move_legacy e source ZCF_CONFIG_FILE s = (Ok (), s1)
        ∧ s1 !! source = None
        ∧ ∀ p, p ∈ LEGACY_ZCF_CONFIG_FILES → p ≠ source → s1 !! p = s !! p.
Proof.
  intros (Hmkdir & Hunlink & Hcopy & Hrename) [Ht Hd] Hfiles Hsrc.
  apply elem_of_legacy_sources in Hsrc as [Hleg [n Hn]].
  assert (Hst : source ≠ ZCF_CONFIG_FILE) by (intros ->; done).
  assert (Hsd : source ≠ ZCF_CONFIG_DIR) by (intros ->; done).
  unfold move_legacy, bind at 1, existsSync.
  set (s0 := if bool_decide (is_Some (s !! ZCF_CONFIG_DIR)) then s
             else <[ZCF_CONFIG_DIR := Dir]> s).
  assert (Hmk : (if negb (bool_decide (is_Some (s !! ZCF_CONFIG_DIR)))
                 then mkdirSync e ZCF_CONFIG_DIR else ret ()) s = (Ok (), s0)).
  { unfold s0. case_bool_decide as Hdir; cbn [negb]; [done|].
    unfold mkdirSync. rewrite Hmkdir.
    destruct (s !! ZCF_CONFIG_DIR) eqn:E; [|done].
    exfalso. apply Hdir. eauto. }
  assert (Hs0 : ∀ p, p ≠ ZCF_CONFIG_DIR → s0 !! p = s !! p).
  { intros p Hp. unfold s0. case_bool_decide; [done|]. by rewrite lookup_insert_ne. }
  unfold bind. rewrite Hmk. unfold try_catch, renameSync.
  rewrite (Hs0 source Hsd), Hn.
  destruct (rename_error e source ZCF_CONFIG_FILE) as [err|] eqn:Herr.
  - rewrite (Hrename _ _ _ Herr). cbn [negb]. unfold bind, copyFileSync.
    rewrite Hcopy, (Hs0 source Hsd), Hn.
    destruct n as [c|]; [|by destruct (Hfiles source Hleg)].
    unfold rmSync. rewrite lookup_insert_ne, (Hs0 source Hsd), Hn, Hunlink by done.
    eexists. split; [done|]. split; [apply lookup_delete_eq|].
    intros p Hp Hne.
    assert (source ≠ p) by done.
    assert (ZCF_CONFIG_FILE ≠ p) by (intros <-; done).
    assert (p ≠ ZCF_CONFIG_DIR) by (intros ->; done).
    rewrite lookup_delete_ne, lookup_insert_ne by done. by apply Hs0.
  - eexists. split; [done|]. split.
    + rewrite lookup_insert_ne by done. apply lookup_delete_eq.
    + intros p Hp Hne.
      assert (source ≠ p) by done.
      assert (ZCF_CONFIG_FILE ≠ p) by (intros <-; done).
      assert (p ≠ ZCF_CONFIG_DIR) by (intros ->; done).
      rewrite lookup_insert_ne, lookup_delete_ne by done. by apply Hs0.
Qed.

(** C7, as amended.  Where no directory creation, deletion or copy fails, a
    rename fails at most across devices, no legacy candidate is a directory
    and the canonical paths are not legacy paths: the migration returns, no
    legacy candidate is left, and a second run finds nothing to do and
    leaves the file system as it is. *)
Theorem migrate_twice e (s : fs) :
  benign e → distinct_paths → legacy_files_only s →
  ∃ r1 s1,
    migrateZcfConfigIfNeeded e s = (Ok r1, s1)
    ∧ legacy_sources s1 = []
    ∧ migrateZcfConfigIfNeeded e s1 = (Ok nothing_to_migrate, s1).
Proof.
  intros He Hd Hfiles.
  assert (Hgoal : ∃ r1 s1, migrateZcfConfigIfNeeded e s = (Ok r1, s1)
                           ∧ legacy_sources s1 = []).
  { unfold migrateZcfConfigIfNeeded, bind at 1 2, existsSync.
    destruct (legacy_sources s) as [|source rest] eqn:Hsrc.
    { eexists _, _. split; [done|]. done. }
    case_bool_decide as Ht; cbn [negb].
    - unfold bind. rewrite remove_each_benign; [|done|].
      + eexists _, _. split; [done|]. apply legacy_sources_nil.
        intros p Hp. rewrite lookup_delete_each, <- Hsrc.
        destruct (decide (p ∈ legacy_sources s)) as [|Hnin]; [done|].
        rewrite elem_of_legacy_sources in Hnin.
        destruct (s !! p) eqn:E; [|done]. exfalso. apply Hnin. eauto.
      + intros p Hp. apply Hfiles. rewrite <- Hsrc in Hp.
        by apply elem_of_legacy_sources in Hp as [? _].
    - destruct (move_legacy_benign e source s He Hd Hfiles)
        as (s1 & Hmove & Hgone & Hsame).
      { rewrite Hsrc. by left. }
      unfold bind at 1. rewrite Hmove. unfold bind.
      assert (Hrest : ∀ p, p ∈ rest → p ∈ LEGACY_ZCF_CONFIG_FILES ∧ is_Some (s !! p)).
      { intros p Hp. apply elem_of_legacy_sources. rewrite Hsrc. by right. }
      rewrite remove_each_benign; [|done|].
      + eexists _, _. split; [done|]. apply legacy_sources_nil.
        intros p Hp. rewrite lookup_delete_each.
        destruct (decide (p ∈ rest)) as [|Hnin]; [done|].
        destruct (decide (p = source)) as [->|Hne]; [done|].
        rewrite Hsame by done.
        destruct (s !! p) eqn:E; [|done]. exfalso.
        assert (Hin : p ∈ legacy_sources s) by (apply elem_of_legacy_sources; eauto).
        rewrite Hsrc in Hin. apply elem_of_cons in Hin as [?|?]; done.
      + intros p Hp. destruct (Hrest p Hp) as [Hleg _].
        destruct (decide (p = source)) as [->|Hne]; [by rewrite Hgone|].
        rewrite Hsame by done. by apply Hfiles. }
  destruct Hgoal as (r1 & s1 & Hrun & Hnone).
  exists r1, s1. split; [done|]. split; [done|]. by apply migrate_nothing.
Qed.

Lemma normalize_null e : normalizeZcfConfig e Null = Null.
Proof. done. Qed.

Lemma json_at_absent e (s : fs) path : s !! path = None → json_at e s path = Null.
Proof. intros Hs. unfold json_at. rewrite Hs. by destruct (read_fails e path). Qed.

Lemma read_legacy_first e paths (s : fs) :
  read_legacy e paths s = (Ok (first_normalized e s paths), s).
Proof.
  induction paths as [|p paths IH]; [done|].
  cbn [read_legacy first_normalized]. unfold bind at 1, existsSync.
  case_bool_decide as Hp.
  - unfold bind, readJsonConfig. fold (flat_json_read e s p).
    by destruct (truthy (flat_json_read e s p)).
  - assert (Hnone : s !! p = None).
    { destruct (s !! p) eqn:E; [|done]. exfalso. apply Hp. eauto. }
    unfold flat_json_read. rewrite json_at_absent by done.
    cbn [or_else truthy]. rewrite normalize_null. cbn [truthy]. apply IH.
Qed.

Lemma readTomlConfig_structured e (s : fs) :
  readTomlConfig e ZCF_CONFIG_FILE s
  = (Ok match structured_read e s with
        | Some table => Obj table
        | None => Null
        end, s).
Proof.
  unfold readTomlConfig, try_catch, bind at 1, existsSync, structured_read.
  case_bool_decide as Hp; cbn [negb].
  - unfold bind, readFile. destruct (read_fails e ZCF_CONFIG_FILE); [done|].
    destruct (s !! ZCF_CONFIG_FILE) as [[[t|j|x]|]|]; done.
  - destruct (s !! ZCF_CONFIG_FILE) eqn:E; [exfalso; apply Hp; eauto|].
    by destruct (read_fails e ZCF_CONFIG_FILE).
Qed.

Lemma readZcfConfig_after_migration e (s : fs) :
  readZcfConfig e s
  = match migrateZcfConfigIfNeeded e s with
    | (Ok _, s1) => read_after_migration e s1
    | (Throw err, s1) => (Throw err, s1)
    end.
Proof.
  unfold readZcfConfig, bind at 1.
  destruct (migrateZcfConfigIfNeeded e s) as [[r|err] s1]; [|done].
  unfold bind at 1. rewrite readTomlConfig_structured.
  unfold read_after_migration.
  destruct (structured_read e s1) as [table|]; [done|].
  cbn [truthy]. unfold bind, readJsonConfig.
  cbn [first_normalized]. fold (flat_json_read e s1 json_config_file).
  destruct (truthy (flat_json_read e s1 json_config_file)); [done|].
  apply read_legacy_first.
Qed.
End MigrationFacts.

(** The theorem of C2 where the canonical file and two legacy files exist
    and every deletion is refused. *)
Lemma migrate_returns_witness :
  is_Some (canonical_and_legacy !! @ZCF_CONFIG_FILE demo_constants)
  ∧ ∃ r s', @migrateZcfConfigIfNeeded demo_constants (unlink_denied "t")
              canonical_and_legacy = (Ok r, s').
Proof.
  assert (Hex : is_Some (canonical_and_legacy !! @ZCF_CONFIG_FILE demo_constants)).
  { vm_compute. eauto. }
  split; [exact Hex|].
  apply (@migrate_returns demo_constants). by left.
Defined.

(** A rename refused for a reason other than crossing devices. *)
Lemma rename_error_is_thrown :
  (@migrateZcfConfigIfNeeded demo_constants (rename_denied "t") legacy_only).1
  = Throw (ErrCode "EACCES").
Proof. vm_compute. reflexivity. Qed.

(** The theorem of C7 on a file system with one legacy file. *)
Lemma migrate_twice_witness :
  benign (calm "t") ∧ @distinct_paths demo_constants
  ∧ @legacy_files_only demo_constants legacy_only
  ∧ ∃ r1 s1,
      @migrateZcfConfigIfNeeded demo_constants (calm "t") legacy_only = (Ok r1, s1)
      ∧ @legacy_sources demo_constants s1 = []
      ∧ @migrateZcfConfigIfNeeded demo_constants (calm "t") s1
        = (Ok (@nothing_to_migrate demo_constants), s1).
Proof.
  assert (H1 : benign (calm "t")) by (repeat split; done).
  assert (H2 : @distinct_paths demo_constants).
  { split; intros Hin; repeat (apply elem_of_cons in Hin as [Hin|Hin]; [done|]);
      by apply elem_of_nil in Hin. }
  assert (H3 : @legacy_files_only demo_constants legacy_only).
  { intros p Hin. repeat (apply elem_of_cons in Hin as [->|Hin]; [done|]).
    by apply elem_of_nil in Hin. }
  split; [exact H1|]. split; [exact H2|]. split; [exact H3|].
  exact (@migrate_twice demo_constants (calm "t") legacy_only H1 H2 H3).
Defined.

(** C7, counterexample: the canonical file exists and the deletions of the
    legacy files fail; the call returns and both legacy files are left. *)
Lemma legacy_survives_failed_deletion :
  ∃ r1 s1,
    @migrateZcfConfigIfNeeded demo_constants (unlink_denied "t") canonical_and_legacy
    = (Ok r1, s1)
    ∧ @legacy_sources demo_constants s1
      = ["/home/u/.claude/.zcf-config.json"; "/home/u/.zcf.json"].
Proof. eexists _, _. split; [reflexivity|]. vm_compute. reflexivity. Qed.

(** ** The path of the flat-JSON fallback *)

Lemma replace_first_extension base :
  extension_only base = true →
  replace_first ".toml" ".json" (base +:+ ".toml") = base +:+ ".json".
Proof.
  induction base as [|c base IH]; intros Hb; [reflexivity|].
  cbn [extension_only] in Hb. apply andb_true_iff in Hb as [Hhere Hrest].
  apply negb_true_iff in Hhere.
  change (String c base +:+ ".toml") with (String c (base +:+ ".toml")) in *.
  change (String c base +:+ ".json") with (String c (base +:+ ".json")).
  cbn [replace_first]. rewrite Hhere.
  f_equal. by apply IH.
Qed.

Example json_config_file_demo :
  @json_config_file demo_constants = "/home/u/.ufomiao/zcf/config.json".
Proof. reflexivity. Qed.

Section PersistFacts.
Context `{Constants}.

Lemma apply_edit_indep table ed (s1 s2 : fs) :
  (apply_edit table ed s1).1 = (apply_edit table ed s2).1
  ∧ (apply_edit table ed s1).2 = s1.
Proof.
  destruct ed as [[section key] v]. cbn [apply_edit].
  by destruct (get table section).
Qed.

Lemma apply_edits_indep edits : ∀ table (s1 s2 : fs),
  (apply_edits table edits s1).1 = (apply_edits table edits s2).1
  ∧ (apply_edits table edits s1).2 = s1.
Proof.
  induction edits as [|ed edits IH]; intros table s1 s2; [done|].
  cbn [apply_edits]. unfold bind.
  destruct (apply_edit_indep table ed s1 s2) as [H1 H2].
  destruct (apply_edit_indep table ed s2 s2) as [_ H3].
  destruct (apply_edit table ed s1) as [[t1|err] s1'],
           (apply_edit table ed s2) as [[t2|err2] s2'];
    cbn [fst snd] in *; subst; try done.
  injection H1 as ->. apply IH.
Qed.

Lemma batchEditToml_indep c edits (s : fs) :
  batchEditToml c edits s = ((batchEditToml c edits ∅).1, s).
Proof.
  destruct c as [text table|j|x]; [|done..]. cbn [batchEditToml]. unfold bind.
  destruct (apply_edits_indep edits (Obj table) s ∅) as [H1 H2].
  destruct (apply_edits (Obj table) edits s) as [[t1|err] s1],
           (apply_edits (Obj table) edits ∅) as [[t2|err2] s2];
    cbn [fst snd] in *; subst; try done;
    injection H1 as ->; done.
Qed.

Lemma ensureDir_with_dir e dir (s : fs) :
  mkdir_fails e dir = false →
  ensureDir e dir s = (Ok (), with_dir dir s).
Proof.
  intros Hmk. unfold ensureDir, bind, existsSync, with_dir.
  case_bool_decide as Hdir; [done|]. unfold mkdirSync. rewrite Hmk.
  destruct (s !! dir) eqn:E; [|done]. exfalso. apply Hdir. eauto.
Qed.

Lemma with_dir_lookup dir (s : fs) p : p ≠ dir → with_dir dir s !! p = s !! p.
Proof.
  intros Hne. unfold with_dir. case_bool_decide; [done|].
  by rewrite lookup_insert_ne.
Qed.

(** What [writeTomlConfig] does when the canonical file can be written. *)
Lemma writeTomlConfig_persists e config (s : fs) :
  has_sections config → writable e s →
  writeTomlConfig e ZCF_CONFIG_FILE config s
  = (Ok (),
     <[ZCF_CONFIG_FILE := File (persisted_content config (s !! ZCF_CONFIG_FILE))]>
       (with_dir (dirname ZCF_CONFIG_FILE) s)).
Proof.
  intros Hsec (Hw & Hr & Hmk & Hdir & Hnodir).
  unfold writeTomlConfig, try_catch at 1, bind at 1.
  rewrite ensureDir_with_dir by done.
  set (s0 := with_dir (dirname ZCF_CONFIG_FILE) s).
  assert (Hs0 : s0 !! ZCF_CONFIG_FILE = s !! ZCF_CONFIG_FILE).
  { apply with_dir_lookup. intros Heq. by apply Hdir. }
  unfold bind at 1, existsSync. rewrite Hs0. unfold persisted_content.
  destruct (s !! ZCF_CONFIG_FILE) as [[c|]|] eqn:E; [|done|].
  - rewrite bool_decide_eq_true_2 by eauto.
    unfold bind at 1, readFile. rewrite Hr, Hs0, ?E.
    unfold bind at 1. rewrite build_edits_sections by done.
    unfold try_catch, bind. rewrite batchEditToml_indep.
    destruct (batchEditToml c (edits_of config) ∅).1 as [c'|err];
      unfold writeFile; by rewrite Hw, Hs0, ?E.
  - rewrite bool_decide_eq_false_2 by (by intros [? ?]).
    unfold writeFile. by rewrite Hw, Hs0, ?E.
Qed.

(** ** What is in the file after the write *)

Lemma touches_edits_of config section :
  section ∈ section_names → touches section (edits_of config).
Proof.
  intros Hin. unfold section_names in Hin. unfold touches, edits_of. cbv zeta.
  assert (Hkey : section = "general" ∧ (∃ key : string, key = "preferredLang")
                 ∨ section ∈ ["claudeCode"; "codex"]).
  { apply elem_of_cons in Hin as [->|Hin]; [left; eauto|by right]. }
  destruct Hkey as [[-> _]|Hin'].
  - eexists "preferredLang", _. rewrite !elem_of_app. left. in_list.
  - eexists "enabled", _. rewrite !elem_of_app.
    repeat (apply elem_of_cons in Hin' as [->|Hin'];
            [repeat (first [left; in_list | right]); in_list|]).
    by apply elem_of_nil in Hin'.
Qed.

(** The document that the patcher leaves, where the codec reads it. *)
Lemma patched_content_read text table version lastUpdated :
  patch_read (TomlText text table) version lastUpdated →
  ∃ text' table',
    on_text (patch_text version lastUpdated) (TomlText text table)
    = TomlText text' table'
    ∧ ∀ k, get (Obj table') k
           = get (set (set (Obj table) "version" (Str (to_string version)))
                      "lastUpdated" (Str (to_string lastUpdated))) k.
Proof.
  intros (table' & Hparse & Hsame). cbn [on_text]. unfold as_content.
  rewrite Hparse. eexists _, table'. split; [reflexivity|]. intros k.
  cbn [get]. rewrite (Hsame k). unfold patched_table.
  destruct (set_is_obj table "version" (Str (to_string version))) as [f ->].
  by destruct (set_is_obj f "lastUpdated" (Str (to_string lastUpdated))) as [f' ->].
Qed.

Lemma persisted_lookup config existing :
  has_sections config →
  patch_read_on config existing →
  ∃ text table,
    persisted_content config existing = TomlText text table
    ∧ (∀ section key v,
         (section, key) ∈ (always_edited ++ edited_if_defined)%list →
         get (get config section) key = v → flat v →
         get (get (Obj table) section) key = v)
    ∧ (∀ k str, k = "version" ∨ k = "lastUpdated" →
         get config k = Str str → get (Obj table) k = Str str)
    ∧ (∀ section, section ∈ section_names → ∃ g, get (Obj table) section = Obj g)
    ∧ (∀ section key,
         (section, key) ∈ edited_if_defined →
         get (get config section) key = Undefined →
         get (get (Obj table) section) key
         = get (get (edited_table config existing) section) key).
Proof.
  intros Hsec Hread.
  assert (Hfull : ∃ text table,
    stringifyToml config = TomlText text table
    ∧ (∀ section key v,
         (section, key) ∈ (always_edited ++ edited_if_defined)%list →
         get (get config section) key = v → flat v →
         get (get (Obj table) section) key = v)
    ∧ (∀ k str, k = "version" ∨ k = "lastUpdated" →
         get config k = Str str → get (Obj table) k = Str str)
    ∧ (∀ section, section ∈ section_names → ∃ g, get (Obj table) section = Obj g)
    ∧ (∀ section key,
         (section, key) ∈ edited_if_defined →
         get (get config section) key = Undefined →
         get (get (Obj table) section) key = Undefined)).
  { destruct Hsec as (ve & l & g & c & x & -> & Hg & Hc & Hx).
    eexists _, _. split; [reflexivity|].
    set (cfg := Obj _).
    assert (Hnd : NoDup (map fst (fields_of cfg))).
    { apply NoDup_keys. vm_compute. reflexivity. }
    change (Obj (fields_of (prune cfg))) with (prune cfg).
    split; [|split; [|split]].
    - intros section key v Hin Hv Hflat.
      assert (Hcases : section = "general" ∨ section = "claudeCode" ∨ section = "codex").
      { unfold always_edited, edited_if_defined in Hin. cbn [app] in Hin.
        repeat (apply elem_of_cons in Hin as [Hin|Hin];
                [injection Hin as -> _; by auto|]).
        by apply elem_of_nil in Hin. }
      destruct Hcases as [->|[->| ->]];
        (eapply prune_get_section; [exact Hnd|reflexivity|done|exact Hv|done]).
    - intros k str [->| ->] Hk; (apply prune_get_flat; [exact Hnd|exact Hk|done]).
    - intros section Hin. unfold section_names in Hin. subst cfg.
      repeat (apply elem_of_cons in Hin as [->|Hin];
              [rewrite prune_lookup by exact Hnd; by eexists|]).
      by apply elem_of_nil in Hin.
    - intros section key Hin Hv.
      assert (Hcases : section = "general" ∨ section = "claudeCode").
      { unfold edited_if_defined in Hin.
        repeat (apply elem_of_cons in Hin as [Hin|Hin];
                [injection Hin as -> _; by auto|]).
        by apply elem_of_nil in Hin. }
      destruct Hcases as [->| ->];
        (eapply prune_get_absent; [exact Hnd|reflexivity|done|exact Hv]). }
  assert (Hfallback : edited_table config existing = Undefined →
    ∃ text table,
      stringifyToml config = TomlText text table
      ∧ (∀ section key v,
           (section, key) ∈ (always_edited ++ edited_if_defined)%list →
           get (get config section) key = v → flat v →
           get (get (Obj table) section) key = v)
      ∧ (∀ k str, k = "version" ∨ k = "lastUpdated" →
           get config k = Str str → get (Obj table) k = Str str)
      ∧ (∀ section, section ∈ section_names → ∃ g, get (Obj table) section = Obj g)
      ∧ (∀ section key,
           (section, key) ∈ edited_if_defined →
           get (get config section) key = Undefined →
           get (get (Obj table) section) key
           = get (get (edited_table config existing) section) key)).
  { intros ->. exact Hfull. }
  unfold persisted_content, patch_read_on in *.
  destruct existing as [[c|]|]; [|by apply Hfallback..].
  destruct c as [tx f|j|x]; [|by apply Hfallback..].
  cbn [edited_table] in *. cbn [batchEditToml] in *. unfold bind in *.
  destruct (apply_edits (Obj f) (edits_of config) ∅) as [[t'|err] s'] eqn:Hrun;
    [|by apply Hfallback].
  clear Hfull Hfallback.
  destruct (apply_edits_ok _ _ _ _ _ _ eq_refl Hrun)
    as (_ & [f' ->] & Hget & Hother & Hobj).
  cbn [fst ret fields_of] in *.
  destruct (patched_content_read _ _ _ _ Hread) as (text' & table' & -> & Hsame).
  exists text', table'. split; [reflexivity|].
  set (v' := Str (to_string (get config "version"))) in *.
  set (l' := Str (to_string (get config "lastUpdated"))) in *.
  assert (Hsections : ∀ section, section ∈ section_names →
    get (Obj table') section = get (Obj f') section).
  { intros section Hin. rewrite Hsame. unfold section_names in Hin.
    repeat (apply elem_of_cons in Hin as [->|Hin];
            [by rewrite !get_set_ne|]).
    by apply elem_of_nil in Hin. }
  split; [|split; [|split]].
  - intros section key v Hin Hv Hflat.
    assert (Hs : section ∈ section_names).
    { unfold always_edited, edited_if_defined in Hin. cbn [app] in Hin.
      unfold section_names.
      repeat (apply elem_of_cons in Hin as [Hin|Hin];
              [injection Hin as -> _; in_list|]).
      by apply elem_of_nil in Hin. }
    rewrite Hsections, Hget, edited_value_edits_of, Hv by done.
    apply elem_of_app in Hin as [Hin|Hin].
    + by rewrite bool_decide_eq_true_2.
    + rewrite (bool_decide_eq_true_2 _ Hin).
      assert (is_defined v = true) as -> by by destruct v.
      by destruct (bool_decide _).
  - intros k str [->| ->] Hk; rewrite Hsame.
    + rewrite get_set_ne, get_set_eq by done. unfold v'. by rewrite Hk.
    + destruct (set_is_obj f' "version" v') as [f'' ->].
      transitivity l'; [apply get_set_eq|unfold l'; by rewrite Hk].
  - intros section Hin. rewrite Hsections by done. apply Hobj. left.
    by apply touches_edits_of.
  - intros section key Hin Hv.
    assert (Hs : section ∈ section_names).
    { unfold edited_if_defined in Hin. unfold section_names.
      repeat (apply elem_of_cons in Hin as [Hin|Hin];
              [injection Hin as -> _; in_list|]).
      by apply elem_of_nil in Hin. }
    rewrite Hsections, Hget, edited_value_edits_of, Hv by done.
    cbn [is_defined]. rewrite andb_false_r.
    rewrite bool_decide_eq_false_2; [done|].
    intros Hin'. unfold edited_if_defined in Hin. unfold always_edited in Hin'.
    repeat (apply elem_of_cons in Hin as [Hin|Hin];
            [injection Hin as ? ?; subst; not_in_list Hin'|]).
    by apply elem_of_nil in Hin.
Qed.
End PersistFacts.



Section StoreFacts.
Context `{Constants}.

Lemma set_in_get config section key v section' key' :
  has_sections config → section ∈ section_names →
  get (get (set_in config section key v) section') key'
  = if String.eqb section' section && String.eqb key' key then v
    else get (get config section') key'.
Proof.
  intros (ve & l & g & c & x & -> & _) Hin. unfold set_in.
  assert (Hobj : ∃ f, get (Obj [("version", ve); ("lastUpdated", l);
                                ("general", Obj g); ("claudeCode", Obj c);
                                ("codex", Obj x)]) section = Obj f).
  { unfold section_names in Hin.
    repeat (apply elem_of_cons in Hin as [->|Hin]; [by eexists|]).
    by apply elem_of_nil in Hin. }
  destruct Hobj as [f Hf]. rewrite Hf.
  destruct (String.eqb section' section) eqn:E1.
  - apply String.eqb_eq in E1 as ->. rewrite get_set_eq. cbn [andb].
    destruct (String.eqb key' key) eqn:E2.
    + apply String.eqb_eq in E2 as ->. apply get_set_eq.
    + apply String.eqb_neq in E2. rewrite get_set_ne by (by intros ->).
      by rewrite Hf.
  - apply String.eqb_neq in E1. by rewrite get_set_ne by (by intros ->).
Qed.

Lemma set_in_top config section key v k :
  k ≠ section → get (set_in config section key v) k = get config k.
Proof. intros Hne. unfold set_in. by rewrite get_set_ne by (by intros ->). Qed.

(** What [carry_forward] changes: at most four paths. *)
Lemma carry_forward_get existing sanitizedConfig config section key :
  has_sections config →
  get (get (carry_forward existing sanitizedConfig config) section) key
  = let ec := get existing "claudeCode" in
    let next := or_else (get sanitizedConfig "systemPromptStyle")
                        (get (get existing "codex") "systemPromptStyle") in
    if truthy ec && truthy (get ec "version")
       && (String.eqb section "claudeCode" && String.eqb key "version")
    then get ec "version"
    else if truthy ec && is_defined (get ec "currentProfile")
            && (String.eqb section "claudeCode" && String.eqb key "currentProfile")
    then get ec "currentProfile"
    else if truthy ec && truthy (get ec "profiles")
            && (String.eqb section "claudeCode" && String.eqb key "profiles")
    then get ec "profiles"
    else if truthy next
            && (String.eqb section "codex" && String.eqb key "systemPromptStyle")
    then next
    else get (get config section) key.
Proof.
  intros Hsec. unfold carry_forward. cbv zeta.
  set (ec := get existing "claudeCode").
  set (next := or_else _ _).
  assert (Hs1 : has_sections
    (if truthy next then set_in config "codex" "systemPromptStyle" next else config)).
  { destruct (truthy next); [|done]. apply set_in_sections; auto. }
  assert (Hs2 : has_sections
    (if truthy (get ec "profiles")
     then set_in (if truthy next then set_in config "codex" "systemPromptStyle" next
                  else config) "claudeCode" "profiles" (get ec "profiles")
     else if truthy next then set_in config "codex" "systemPromptStyle" next
          else config)).
  { destruct (truthy (get ec "profiles")); [|done]. apply set_in_sections; auto. }
  assert (Hin1 : "claudeCode" ∈ section_names) by in_list.
  assert (Hin2 : "codex" ∈ section_names) by in_list.
  destruct (truthy ec); cbn [andb].
  - destruct (truthy (get ec "version")); cbn [andb];
      [rewrite set_in_get; [|destruct (is_defined (get ec "currentProfile"));
                             [apply set_in_sections; auto|done]|done];
       destruct (String.eqb section "claudeCode" && String.eqb key "version");
       [done|]|];
      (destruct (is_defined (get ec "currentProfile")); cbn [andb];
       [rewrite set_in_get by done;
        destruct (String.eqb section "claudeCode" && String.eqb key "currentProfile");
        [done|]|]);
      (destruct (truthy (get ec "profiles")); cbn [andb];
       [rewrite set_in_get by done;
        destruct (String.eqb section "claudeCode" && String.eqb key "profiles");
        [done|]|]);
      (destruct (truthy next); cbn [andb]; [by rewrite set_in_get|done]).
  - destruct (truthy next); cbn [andb]; [by rewrite set_in_get|done].
Qed.

Lemma carry_forward_top existing sanitizedConfig config k :
  k ∉ section_names →
  get (carry_forward existing sanitizedConfig config) k = get config k.
Proof.
  intros Hk. unfold carry_forward. cbv zeta.
  assert (k ≠ "claudeCode") by (intros ->; apply Hk; in_list).
  assert (k ≠ "codex") by (intros ->; apply Hk; in_list).
  split_ifs; by rewrite ?set_in_top.
Qed.

(** ** [writeZcfConfig] *)

Lemma writeZcfConfig_persists e fields (s : fs) :
  writable e s →
  writeZcfConfig e (Obj fields) s
  = (Ok (),
     <[ZCF_CONFIG_FILE :=
         File (persisted_content
                 (toml_to_write e (existing_table e s) (Obj fields))
                 (s !! ZCF_CONFIG_FILE))]>
       (with_dir (dirname ZCF_CONFIG_FILE) s)).
Proof.
  intros Hw. unfold writeZcfConfig, try_catch, bind at 1. cbn [get_strict ret].
  unfold bind. rewrite readTomlConfig_structured.
  fold (existing_table e s). fold (sanitized (Obj fields)).
  fold (toml_to_write e (existing_table e s) (Obj fields)).
  rewrite writeTomlConfig_persists; [done| |done].
  apply toml_to_write_sections.
Qed.

(** The fields of the configuration to write that do not depend on the
    document on disk. *)
Lemma toml_to_write_fields e existing fields :
  let config := Obj fields in
  let tc := toml_to_write e existing config in
  let tool := sanitizeCodeToolType (get config "codeToolType") in
  get tc "version" = or_else (get config "version") (Str "1.0.0")
  ∧ get tc "lastUpdated" = or_else (get config "lastUpdated") (Str (now e))
  ∧ get (get tc "general") "preferredLang"
    = or_else (get config "preferredLang") (Str "en")
  ∧ get (get tc "general") "templateLang"
    = or_else (get config "templateLang")
        (or_else (get config "preferredLang") (Str "en"))
  ∧ get (get tc "general") "aiOutputLang"
    = or_else (get config "aiOutputLang") Undefined
  ∧ get (get tc "general") "currentTool"
    = or_else tool (Str DEFAULT_CODE_TOOL_TYPE)
  ∧ get (get tc "claudeCode") "enabled" = Bool (same_string tool "claude-code")
  ∧ get (get tc "claudeCode") "outputStyles"
    = or_else (get config "outputStyles") (Arr [Str "engineer-professional"])
  ∧ get (get tc "claudeCode") "defaultOutputStyle"
    = coalesce (get config "defaultOutputStyle") (Str "engineer-professional")
  ∧ get (get tc "claudeCode") "installType"
    = or_else (get (get config "claudeCodeInstallation") "type") (Str "global")
  ∧ get (get tc "codex") "enabled" = Bool (same_string tool "codex").
Proof.
  intros config tc tool. subst tc tool config. unfold toml_to_write.
  rewrite !carry_forward_top
    by (intros Hin; unfold section_names in Hin;
        repeat (apply elem_of_cons in Hin as [?|Hin]; [done|]);
        by apply elem_of_nil in Hin).
  rewrite !carry_forward_get by apply migrateFromJsonConfig_sections.
  cbv zeta. keys. rewrite !andb_false_r.
  unfold convertLegacyToTomlConfig, migrateFromJsonConfig, createDefaultTomlConfig.
  cbn [get lookup_field String.eqb Ascii.eqb Bool.eqb].
  rewrite !sanitized_get. keys.
  repeat split; reflexivity.
Qed.

Lemma valid_tool_is_flat v : isCodeToolType v = true → flat v.
Proof.
  unfold isCodeToolType, includes. intros Hv.
  apply existsb_exists in Hv as (t & _ & Ht). by destruct v.
Qed.

Lemma written_tool_valid v :
  isCodeToolType (Str DEFAULT_CODE_TOOL_TYPE) = true →
  isCodeToolType (or_else (sanitizeCodeToolType v) (Str DEFAULT_CODE_TOOL_TYPE)) = true.
Proof.
  intros Hd. unfold or_else, sanitizeCodeToolType.
  destruct (isCodeToolType v) eqn:E; [|by destruct (truthy _)].
  destruct (truthy v); done.
Qed.

Lemma flat_or_else v d : (∀ fields, v ≠ Obj fields) → flat (or_else v (Str d)).
Proof.
  intros Hv. unfold or_else.
  destruct v as [| |b|n|str|items|fields]; cbn [truthy]; try done.
  - by destruct b.
  - by destruct (negb _).
  - by destruct (negb _).
  - by destruct (Hv fields).
Qed.

(** C9, as amended.  Where the canonical file can be written and the codec
    reads the text that the patcher leaves, [writeZcfConfig] writes a
    supported tool in [general.currentTool]: the given one when it is
    supported and not empty, the default tool otherwise.  The language is
    written as it is given, with [en] only for an absent or empty one. *)
Theorem write_coerces_tool e config (s : fs) :
  (∃ fields, config = Obj fields) →
  writable e s →
  patch_read_on (toml_to_write e (existing_table e s) config) (s !! ZCF_CONFIG_FILE) →
  isCodeToolType (Str DEFAULT_CODE_TOOL_TYPE) = true →
  (∀ fields, get config "preferredLang" ≠ Obj fields) →
  ∃ s1 text table,
    writeZcfConfig e config s = (Ok (), s1)
    ∧ s1 !! ZCF_CONFIG_FILE = Some (File (TomlText text table))
    ∧ isCodeToolType (get (get (Obj table) "general") "currentTool") = true
    ∧ get (get (Obj table) "general") "currentTool"
      = or_else (sanitizeCodeToolType (get config "codeToolType"))
                (Str DEFAULT_CODE_TOOL_TYPE)
    ∧ get (get (Obj table) "general") "preferredLang"
      = or_else (get config "preferredLang") (Str "en").
Proof.
  intros [fields ->] Hw Hread Hd Hlang.
  rewrite writeZcfConfig_persists by done.
  set (tc := toml_to_write e (existing_table e s) (Obj fields)) in *.
  destruct (persisted_lookup tc (s !! ZCF_CONFIG_FILE))
    as (text & table & -> & Hget & _).
  { apply toml_to_write_sections. }
  { exact Hread. }
  destruct (toml_to_write_fields e (existing_table e s) fields)
    as (_ & _ & Hpl & _ & _ & Hct & _).
  fold tc in Hpl, Hct.
  eexists _, text, table. split; [done|]. split; [apply lookup_insert_eq|].
  assert (Htool : get (get (Obj table) "general") "currentTool"
                  = or_else (sanitizeCodeToolType (get (Obj fields) "codeToolType"))
                            (Str DEFAULT_CODE_TOOL_TYPE)).
  { apply Hget; [|done|].
    - apply elem_of_app. left. unfold always_edited. in_list.
    - by apply valid_tool_is_flat, written_tool_valid. }
  split; [rewrite Htool; by apply written_tool_valid|]. split; [done|].
  apply Hget; [|done|].
  - apply elem_of_app. left. unfold always_edited. in_list.
  - by apply flat_or_else.
Qed.

(** ** Reading back *)

Lemma remove_each_other e paths : ∀ removed (s s' : fs) r p,
  remove_each e paths removed s = (r, s') → p ∉ paths → s' !! p = s !! p.
Proof.
  induction paths as [|q paths IH]; intros removed s s' r p Hrun Hp.
  - by injection Hrun as _ <-.
  - cbn [remove_each] in Hrun. unfold bind at 1, try_catch, bind at 1, rmSync in Hrun.
    assert (Hq : p ≠ q) by (intros ->; apply Hp; by left).
    assert (Hps : p ∉ paths) by (intros Hin; apply Hp; by right).
    destruct (s !! q) as [[c|]|] eqn:E.
    + destruct (unlink_fails e q); cbn [ret] in Hrun.
      * by eapply IH.
      * rewrite (IH _ _ _ _ p Hrun Hps). apply lookup_delete_ne. by intros ->.
    + cbn [ret] in Hrun. by eapply IH.
    + cbn [ret] in Hrun. by eapply IH.
Qed.

(** With the canonical file in place, the migration only cleans up: it
    returns, and the canonical file is as it was. *)
Lemma migrate_keeps_target e (s : fs) :
  is_Some (s !! ZCF_CONFIG_FILE) →
  ZCF_CONFIG_FILE ∉ LEGACY_ZCF_CONFIG_FILES →
  ∃ r s', migrateZcfConfigIfNeeded e s = (Ok r, s')
          ∧ s' !! ZCF_CONFIG_FILE = s !! ZCF_CONFIG_FILE.
Proof.
  intros Ht Hnin. unfold migrateZcfConfigIfNeeded, bind at 1 2, existsSync.
  rewrite bool_decide_eq_true_2 by done. cbn [negb].
  destruct (legacy_sources s) as [|source rest] eqn:Hsrc; [by eexists _, _|].
  unfold bind.
  destruct (remove_each e (source :: rest) [] s) as [[r|err] s'] eqn:Hrun.
  - eexists _, _. split; [done|]. eapply remove_each_other; [exact Hrun|].
    rewrite <- Hsrc. intros Hin. by apply elem_of_legacy_sources in Hin as [? _].
  - destruct (remove_each_returns e (source :: rest) [] s) as (r & s'' & Hok).
    by rewrite Hok in Hrun.
Qed.






End StoreFacts.


Section UpdateFacts.
Context `{Constants}.




End UpdateFacts.

Section RecordFacts.
Context `{Constants}.

(** C5.  The legacy flat record with [codeToolType: 'claude-code'],
    [preferredLang: 'zh-CN'] and [outputStyles: ['engineer-professional']]
    migrates to a configuration with that language, that tool as the current
    tool, [claudeCode] enabled, [codex] disabled and that list of styles. *)
Theorem migrate_flat_record e :
  let canonical :=
    migrateFromJsonConfig e
      (Obj [("codeToolType", Str "claude-code");
            ("preferredLang", Str "zh-CN");
            ("outputStyles", Arr [Str "engineer-professional"])]) in
  get (get canonical "general") "preferredLang" = Str "zh-CN"
  ∧ get (get canonical "general") "currentTool" = Str "claude-code"
  ∧ get (get canonical "claudeCode") "enabled" = Bool true
  ∧ get (get canonical "codex") "enabled" = Bool false
  ∧ get (get canonical "claudeCode") "outputStyles"
    = Arr [Str "engineer-professional"].
Proof. repeat split; reflexivity. Qed.

Lemma sanitizePreferredLang_supported v :
  isSupportedLang (Str "en") = true →
  isSupportedLang (sanitizePreferredLang v) = true.
Proof.
  intros Hen. unfold sanitizePreferredLang.
  by destruct (isSupportedLang v) eqn:E.
Qed.

Lemma sanitizeCodeToolType_valid v :
  isCodeToolType (Str DEFAULT_CODE_TOOL_TYPE) = true →
  isCodeToolType (sanitizeCodeToolType v) = true.
Proof.
  intros Hd. unfold sanitizeCodeToolType.
  by destruct (isCodeToolType v) eqn:E.
Qed.

(** C10.  [normalizeZcfConfig] returns [null] exactly for [null]; for a
    record it returns the eight fields, with a supported language ([en] for
    an unsupported one), a supported tool (the default for an unsupported
    one), and texts for the version and the time stamp ([1.0.0] and the
    current time where the input has no text). *)
Theorem normalize_record e config :
  isSupportedLang (Str "en") = true →
  isCodeToolType (Str DEFAULT_CODE_TOOL_TYPE) = true →
  config = Null ∨ (∃ fields, config = Obj fields) →
  (normalizeZcfConfig e config = Null ↔ config = Null)
  ∧ (config ≠ Null →
     let record := normalizeZcfConfig e config in
     map fst (fields_of record) = accepted_fields
     ∧ isSupportedLang (get record "preferredLang") = true
     ∧ get record "preferredLang"
       = (if isSupportedLang (get config "preferredLang")
          then get config "preferredLang" else Str "en")
     ∧ isCodeToolType (get record "codeToolType") = true
     ∧ get record "codeToolType"
       = (if isCodeToolType (get config "codeToolType")
          then get config "codeToolType" else Str DEFAULT_CODE_TOOL_TYPE)
     ∧ is_string (get record "version") = true
     ∧ get record "version"
       = (if is_string (get config "version")
          then get config "version" else Str "1.0.0")
     ∧ is_string (get record "lastUpdated") = true
     ∧ get record "lastUpdated"
       = (if is_string (get config "lastUpdated")
          then get config "lastUpdated" else Str (now e))).
Proof.
  intros Hen Hd [->|[fields ->]].
  - split; [done|]. by intros [].
  - split; [split; discriminate|]. intros _. cbv zeta.
    unfold normalizeZcfConfig. cbn [truthy negb].
    cbn [get lookup_field String.eqb Ascii.eqb Bool.eqb fields_of map fst].
    repeat split.
    + by apply sanitizePreferredLang_supported.
    + by apply sanitizeCodeToolType_valid.
    + by destruct (is_string (lookup_field "version" fields)) eqn:E.
    + by destruct (is_string (lookup_field "lastUpdated" fields)) eqn:E.
Qed.

Lemma convert_tables table :
  nullish (get (Obj table) "general") = false →
  nullish (get (Obj table) "claudeCode") = false →
  ∀ s : fs,
    convertTomlToLegacyConfig (Obj table) s
    = (Ok (Obj [("version", get (Obj table) "version");
                ("preferredLang", get (get (Obj table) "general") "preferredLang");
                ("templateLang", get (get (Obj table) "general") "templateLang");
                ("aiOutputLang", get (get (Obj table) "general") "aiOutputLang");
                ("outputStyles", get (get (Obj table) "claudeCode") "outputStyles");
                ("defaultOutputStyle",
                   get (get (Obj table) "claudeCode") "defaultOutputStyle");
                ("codeToolType", get (get (Obj table) "general") "currentTool");
                ("lastUpdated", get (Obj table) "lastUpdated")]), s).
Proof.
  intros Hg Hc s. unfold convertTomlToLegacyConfig.
  destruct (get (Obj table) "general"); try done;
    destruct (get (Obj table) "claudeCode"); done.
Qed.

(** C8, as amended.  [readZcfConfig] runs the migration first, and what the
    migration throws it throws.  When the migration returns, it reads the
    canonical file: a document that parses and has its [general] and
    [claudeCode] tables gives the flat record of the document.  When the
    file is missing, cannot be read or does not parse, nothing is thrown:
    the result is the first flat-JSON read that normalizes, from the
    canonical path with [.json] for its extension [.toml] and then from the
    legacy paths in order, or [null] when there is none. *)
Theorem read_flow e base (s s1 : fs) result :
  ZCF_CONFIG_FILE = base +:+ ".toml" →
  extension_only base = true →
  migrateZcfConfigIfNeeded e s = (result, s1) →
  match result with
  | Throw err => readZcfConfig e s = (Throw err, s1)
  | Ok _ =>
      (∀ text table,
         read_fails e ZCF_CONFIG_FILE = false →
         s1 !! ZCF_CONFIG_FILE = Some (File (TomlText text table)) →
         nullish (get (Obj table) "general") = false →
         nullish (get (Obj table) "claudeCode") = false →
         readZcfConfig e s
         = (Ok (Obj [("version", get (Obj table) "version");
                     ("preferredLang",
                        get (get (Obj table) "general") "preferredLang");
                     ("templateLang",
                        get (get (Obj table) "general") "templateLang");
                     ("aiOutputLang",
                        get (get (Obj table) "general") "aiOutputLang");
                     ("outputStyles",
                        get (get (Obj table) "claudeCode") "outputStyles");
                     ("defaultOutputStyle",
                        get (get (Obj table) "claudeCode") "defaultOutputStyle");
                     ("codeToolType",
                        get (get (Obj table) "general") "currentTool");
                     ("lastUpdated", get (Obj table) "lastUpdated")]), s1))
      ∧ (read_fails e ZCF_CONFIG_FILE = true
         ∨ (∀ text table,
              s1 !! ZCF_CONFIG_FILE ≠ Some (File (TomlText text table))) →
         readZcfConfig e s
         = (Ok (first_normalized e s1
                  ((base +:+ ".json") :: LEGACY_ZCF_CONFIG_FILES)), s1))
  end.
Proof.
  intros Hfile Hbase Hmig.
  pose proof (readZcfConfig_after_migration e s) as Hread. rewrite Hmig in Hread.
  destruct result as [m|err]; [|exact Hread].
  assert (Hjson : json_config_file = base +:+ ".json").
  { unfold json_config_file. rewrite Hfile. by apply replace_first_extension. }
  unfold read_after_migration, structured_read in Hread. rewrite Hjson in Hread.
  split.
  - intros text table Hr Hs1 Hg Hc. rewrite Hr, Hs1 in Hread.
    by rewrite convert_tables in Hread.
  - intros [Hr|Hnone]; [by rewrite Hr in Hread|].
    destruct (read_fails e ZCF_CONFIG_FILE); [done|].
    destruct (s1 !! ZCF_CONFIG_FILE) as [[[text table|j|x]|]|] eqn:E; try done.
    by destruct (Hnone text table).
Qed.
End RecordFacts.

Lemma demo_writable t (s : fs) :
  s !! @ZCF_CONFIG_FILE demo_constants ≠ Some Dir →
  @writable demo_constants (calm t) s.
Proof. intros Hs. repeat split; done. Qed.

Lemma demo_target_not_legacy :
  @ZCF_CONFIG_FILE demo_constants ∉ @LEGACY_ZCF_CONFIG_FILES demo_constants.
Proof. intros Hin. not_in_list Hin. Qed.

(** The condition on the codec, from what it reads: the text that the
    patcher leaves parses as the table with the two fields set. *)
Lemma patch_read_on_exact `{Constants} config text table :
  match (batchEditToml (TomlText text table) (edits_of config) ∅).1 with
  | Ok (TomlText text1 table1) =>
      parse_text (patch_text (get config "version") (get config "lastUpdated") text1)
      = Some (patched_table table1 (get config "version") (get config "lastUpdated"))
  | _ => True
  end →
  patch_read_on config (Some (File (TomlText text table))).
Proof.
  unfold patch_read_on.
  destruct (batchEditToml (TomlText text table) (edits_of config) ∅).1
    as [[text1 table1|j|x]|err]; try done.
  intros Hparse. eexists. split; [exact Hparse|done].
Qed.

(** Outside the condition: a version that holds a quote.  The first write
    puts it in the place of the old version; the second write does not find
    that line again, adds a second version line, and the codec does not
    read the file any more: the read that follows finds nothing. *)
Example quoted_version_is_written_twice :
  let e := calm "2025-06-01T00:00:00.000Z" in
  let s1 := (@writeZcfConfig demo_constants e quoted_record both_tools_state).2 in
  let s2 := (@writeZcfConfig demo_constants e quoted_record s1).2 in
  get (@document_at demo_constants s1) "version" = Str "it's"
  ∧ @document_at demo_constants s2 = Null
  ∧ (@readZcfConfig demo_constants e s2).1 = Ok Null
  ∧ ¬ @patch_read_on demo_constants
        (@toml_to_write demo_constants e (@existing_table demo_constants e s1)
           quoted_record)
        (s1 !! @ZCF_CONFIG_FILE demo_constants).
Proof.
  intros e s1 s2. split; [vm_compute; reflexivity|].
  split; [vm_compute; reflexivity|]. split; [vm_compute; reflexivity|].
  intros Hread. vm_compute in Hread. destruct Hread as (table' & Hparse & _).
  discriminate Hparse.
Qed.





(** C8, counterexample: one legacy file, no canonical file, and a rename
    refused for a reason other than crossing devices.  The read throws: it
    returns neither the record of the legacy file nor [null]. *)
Lemma read_throws_on_rename_error :
  (@readZcfConfig demo_constants (rename_denied "t") legacy_only).1
  = Throw (ErrCode "EACCES")
  ∧ ¬ ∃ r s', @readZcfConfig demo_constants (rename_denied "t") legacy_only
              = (Ok r, s').
Proof.
  assert (Hthrow : (@readZcfConfig demo_constants (rename_denied "t") legacy_only).1
                   = Throw (ErrCode "EACCES")) by (vm_compute; reflexivity).
  split; [exact Hthrow|]. intros (r & s' & Hrun). by rewrite Hrun in Hthrow.
Qed.

(** The theorem of C8 on the stored document with both tools enabled. *)
Lemma read_flow_witness :
  @ZCF_CONFIG_FILE demo_constants = "/home/u/.ufomiao/zcf/config" +:+ ".toml"
  ∧ extension_only "/home/u/.ufomiao/zcf/config" = true
  ∧ @migrateZcfConfigIfNeeded demo_constants (calm "t") both_tools_state
    = (Ok (@nothing_to_migrate demo_constants), both_tools_state)
  ∧ @readZcfConfig demo_constants (calm "t") both_tools_state
    = (Ok (Obj [("version", Str "1.0.0");
                ("preferredLang", Str "zh-CN");
                ("templateLang", Undefined);
                ("aiOutputLang", Undefined);
                ("outputStyles", Arr [Str "nekomata-engineer"]);
                ("defaultOutputStyle", Undefined);
                ("codeToolType", Str "claude-code");
                ("lastUpdated", Str "2025-01-01T00:00:00.000Z")]),
       both_tools_state).
Proof.
  assert (H1 : @ZCF_CONFIG_FILE demo_constants
               = "/home/u/.ufomiao/zcf/config" +:+ ".toml") by reflexivity.
  assert (H2 : extension_only "/home/u/.ufomiao/zcf/config" = true) by reflexivity.
  assert (H3 : @migrateZcfConfigIfNeeded demo_constants (calm "t") both_tools_state
               = (Ok (@nothing_to_migrate demo_constants), both_tools_state))
    by reflexivity.
  split; [exact H1|]. split; [exact H2|]. split; [exact H3|].
  exact (proj1 (@read_flow demo_constants (calm "t") _ _ _ _ H1 H2 H3)
           both_tools_text both_tools_document eq_refl eq_refl eq_refl eq_refl).
Defined.

(** C9, counterexample: an unsupported language is written as it is. *)
Lemma unsupported_language_is_written :
  let s1 := (@writeZcfConfig demo_constants (calm "2025-06-01T00:00:00.000Z")
               french_record ∅).2 in
  let written := get (get (@document_at demo_constants s1) "general") "preferredLang" in
  written = Str "fr" ∧ @isSupportedLang demo_constants written = false.
Proof. split; vm_compute; reflexivity. Qed.

(** The theorem of C9 on a record with an unknown tool and language, over
    an existing document. *)
Lemma write_coerces_tool_witness :
  (∃ fields, french_record = Obj fields)
  ∧ @writable demo_constants (calm "2025-06-01T00:00:00.000Z") both_tools_state
  ∧ @patch_read_on demo_constants
      (@toml_to_write demo_constants (calm "2025-06-01T00:00:00.000Z")
         (@existing_table demo_constants (calm "2025-06-01T00:00:00.000Z")
            both_tools_state)
         french_record)
      (both_tools_state !! @ZCF_CONFIG_FILE demo_constants)
  ∧ @isCodeToolType demo_constants (Str (@DEFAULT_CODE_TOOL_TYPE demo_constants)) = true
  ∧ (∀ fields, get french_record "preferredLang" ≠ Obj fields)
  ∧ ∃ s1 text table,
      @writeZcfConfig demo_constants (calm "2025-06-01T00:00:00.000Z") french_record
        both_tools_state = (Ok (), s1)
      ∧ s1 !! @ZCF_CONFIG_FILE demo_constants = Some (File (TomlText text table))
      ∧ @isCodeToolType demo_constants
          (get (get (Obj table) "general") "currentTool") = true
      ∧ get (get (Obj table) "general") "currentTool" = Str "claude-code"
      ∧ get (get (Obj table) "general") "preferredLang" = Str "fr".
Proof.
  assert (H1 : ∃ fields, french_record = Obj fields) by (by eexists).
  assert (H2 : @writable demo_constants (calm "2025-06-01T00:00:00.000Z")
                 both_tools_state).
  { apply demo_writable. vm_compute. discriminate. }
  assert (H3 : @isCodeToolType demo_constants
                 (Str (@DEFAULT_CODE_TOOL_TYPE demo_constants)) = true)
    by reflexivity.
  assert (H4 : ∀ fields, get french_record "preferredLang" ≠ Obj fields)
    by (intros fields; vm_compute; discriminate).
  assert (H5 : @patch_read_on demo_constants
                 (@toml_to_write demo_constants (calm "2025-06-01T00:00:00.000Z")
                    (@existing_table demo_constants (calm "2025-06-01T00:00:00.000Z")
                       both_tools_state)
                    french_record)
                 (both_tools_state !! @ZCF_CONFIG_FILE demo_constants)).
  { change (both_tools_state !! @ZCF_CONFIG_FILE demo_constants)
      with (Some (File (TomlText both_tools_text both_tools_document))).
    apply @patch_read_on_exact. vm_compute. reflexivity. }
  split; [exact H1|]. split; [exact H2|]. split; [exact H5|]. split; [exact H3|].
  split; [exact H4|].
  exact (@write_coerces_tool demo_constants (calm "2025-06-01T00:00:00.000Z")
           french_record both_tools_state H1 H2 H5 H3 H4).
Defined.

(** The theorem of C10 on a record with an unknown tool and language. *)
Lemma normalize_record_witness :
  @isSupportedLang demo_constants (Str "en") = true
  ∧ @isCodeToolType demo_constants (Str (@DEFAULT_CODE_TOOL_TYPE demo_constants)) = true
  ∧ (@normalizeZcfConfig demo_constants (calm "2025-06-01T00:00:00.000Z") french_record
     = Null ↔ french_record = Null)
  ∧ get (@normalizeZcfConfig demo_constants (calm "2025-06-01T00:00:00.000Z")
           french_record) "preferredLang" = Str "en".
Proof.
  assert (H1 : @isSupportedLang demo_constants (Str "en") = true) by reflexivity.
  assert (H2 : @isCodeToolType demo_constants
                 (Str (@DEFAULT_CODE_TOOL_TYPE demo_constants)) = true)
    by reflexivity.
  split; [exact H1|]. split; [exact H2|].
  destruct (@normalize_record demo_constants (calm "2025-06-01T00:00:00.000Z")
              french_record H1 H2) as [Hnull Hrec].
  { right. by eexists. }
  split; [exact Hnull|].
  destruct (Hrec ltac:(discriminate)) as (_ & _ & -> & _). reflexivity.
Defined.

(** C2, counterexample: one legacy file, no canonical file, and a rename
    refused for a reason other than crossing devices. *)
Lemma migration_throws_on_rename_error :
  ¬ ∃ r s', @migrateZcfConfigIfNeeded demo_constants (rename_denied "t") legacy_only
            = (Ok r, s').
Proof. intros (r & s' & Hrun). vm_compute in Hrun. discriminate Hrun. Qed.

End StoreFacts.
(* ===================================================================== *)
(** * More on the configuration store                                    *)
(* ===================================================================== *)

Module StoreApiFacts.
Import Js Store StoreApi StoreFacts.
Local Open Scope string_scope.

(** ** Which paths a call can change *)

Section FrameFacts.
Context `{Constants}.

Lemma ensureDir_frame e dir (s s' : fs) r :
  ensureDir e dir s = (r, s') → ∀ p, p ≠ dir → s' !! p = s !! p.
Proof.
  unfold ensureDir, bind, existsSync. case_bool_decide.
  - intros [= _ <-]. done.
  - unfold mkdirSync. destruct (mkdir_fails e dir); [by intros [= _ <-]|].
    destruct (s !! dir) as [[c|]|]; intros [= _ <-] p Hp;
      by rewrite ?lookup_insert_ne.
Qed.

Lemma writeFile_frame e path c (s s' : fs) r :
  writeFile e path c s = (r, s') →
  (∀ p, p ≠ path → s' !! p = s !! p)
  ∧ (write_fails e path = true → s' = s)
  ∧ (∀ err, r = Throw err → s' = s).
Proof.
  unfold writeFile. destruct (write_fails e path); [by intros [= <- <-]|].
  destruct (s !! path) as [[c0|]|]; intros [= <- <-];
    (split; [intros p Hp; by rewrite ?lookup_insert_ne|done]).
Qed.

Lemma readFile_state e path (s s' : fs) r : readFile e path s = (r, s') → s' = s.
Proof.
  unfold readFile. destruct (read_fails e path); [by intros [= _ <-]|].
  destruct (s !! path) as [[c|]|]; by intros [= _ <-].
Qed.

Lemma get_strict_state o k (s s' : fs) r : get_strict o k s = (r, s') → s' = s.
Proof. destruct o; by intros [= _ <-]. Qed.

Lemma build_edits_state config (s s' : fs) r : build_edits config s = (r, s') → s' = s.
Proof.
  unfold build_edits, bind.
  repeat match goal with
         | |- context [get_strict ?o ?k s] =>
             let E := fresh "E" in
             destruct (get_strict o k s) as [[?|?] ?] eqn:E;
             apply get_strict_state in E; subst
         end; by intros [= _ <-].
Qed.

Lemma batchEditToml_state c edits (s s' : fs) r :
  batchEditToml c edits s = (r, s') → s' = s.
Proof. rewrite batchEditToml_indep. by intros [= _ <-]. Qed.

(** The body of [writeTomlConfig] after [ensureDir]. *)
Lemma write_after_dir_frame e configPath config (s s' : fs) r :
  (let* present := existsSync configPath in
   if present then
     let* existingContent := readFile e configPath in
     let* edits := build_edits config in
     try_catch
       (let* updatedContent := batchEditToml existingContent edits in
        let updatedContent :=
          on_text (patch_text (get config "version") (get config "lastUpdated"))
                  updatedContent in
        writeFile e configPath updatedContent)
       (fun _ => writeFile e configPath (stringifyToml config))
   else writeFile e configPath (stringifyToml config)) s = (r, s') →
  (∀ p, p ≠ configPath → s' !! p = s !! p)
  ∧ (write_fails e configPath = true → s' = s).
Proof.
  unfold bind at 1, existsSync. case_bool_decide as Hp.
  - unfold bind at 1.
    destruct (readFile e configPath s) as [[c|err] s1] eqn:Hread;
      apply readFile_state in Hread as ->; [|by intros [= _ <-]].
    unfold bind at 1.
    destruct (build_edits config s) as [[edits|err] s1] eqn:Hed;
      apply build_edits_state in Hed as ->; [|by intros [= _ <-]].
    unfold try_catch, bind.
    destruct (batchEditToml c edits s) as [[c'|err] s1] eqn:Hb;
      apply batchEditToml_state in Hb as ->.
    + destruct (writeFile e configPath _ s) as [[[]|err] s1] eqn:Hw.
      * intros [= _ <-]. apply writeFile_frame in Hw as (? & ? & _). done.
      * apply writeFile_frame in Hw as (_ & _ & Hs1). rewrite (Hs1 err eq_refl).
        intros Hw. apply writeFile_frame in Hw as (? & ? & _). done.
    + intros Hw. apply writeFile_frame in Hw as (? & ? & _). done.
  - intros Hw. apply writeFile_frame in Hw as (? & ? & _). done.
Qed.

Lemma writeTomlConfig_frame e configPath config (s : fs) :
  ∃ s', writeTomlConfig e configPath config s = (Ok (), s')
        ∧ (∀ p, p ≠ configPath → p ≠ dirname configPath → s' !! p = s !! p)
        ∧ (write_fails e configPath = true →
           ∀ p, p ≠ dirname configPath → s' !! p = s !! p).
Proof.
  unfold writeTomlConfig, try_catch, bind at 1.
  destruct (ensureDir e (dirname configPath) s) as [[[]|err] s0] eqn:Hdir.
  - pose proof (ensureDir_frame _ _ _ _ _ Hdir) as Hframe.
    match goal with
    | |- context [match ?m s0 with _ => _ end] =>
        destruct (m s0) as [r s1] eqn:Hbody
    end.
    apply write_after_dir_frame in Hbody as [Hother Hfail].
    exists s1. split; [by destruct r as [[]|]|]. split.
    + intros p Hp Hd. by rewrite Hother, Hframe.
    + intros Hw p Hd. rewrite (Hfail Hw). by apply Hframe.
  - pose proof (ensureDir_frame _ _ _ _ _ Hdir) as Hframe.
    exists s0. split; [done|]. split; intros; by apply Hframe.
Qed.

(** The structured read changes nothing and does not throw. *)
Lemma readTomlConfig_state e configPath (s : fs) :
  ∃ v, readTomlConfig e configPath s = (Ok v, s).
Proof.
  unfold readTomlConfig, try_catch, bind at 1, existsSync.
  case_bool_decide; cbn [negb]; [|by eexists].
  unfold bind at 1.
  destruct (readFile e configPath s) as [[c|err] s1] eqn:Hread;
    apply readFile_state in Hread as ->; [|by eexists].
  unfold bind, parseToml. destruct c; by eexists.
Qed.

(** X1.  [writeTomlConfig] never throws, whatever fails underneath: it
    returns, and it can only have changed the file at the path it was given
    and the directory of that path.  When the write of the file is refused,
    the file is as it was. *)
Theorem writeTomlConfig_never_throws e configPath config (s : fs) :
  ∃ s', writeTomlConfig e configPath config s = (Ok (), s')
        ∧ (∀ p, p ≠ configPath → p ≠ dirname configPath → s' !! p = s !! p)
        ∧ (write_fails e configPath = true →
           ∀ p, p ≠ dirname configPath → s' !! p = s !! p).
Proof. apply writeTomlConfig_frame. Qed.

(** X2.  [writeZcfConfig] never throws, for any value it is given: it
    returns, it can only have changed the canonical file and its directory,
    and for [null] or [undefined] it changes nothing at all. *)
Theorem writeZcfConfig_never_throws e config (s : fs) :
  ∃ s', writeZcfConfig e config s = (Ok (), s')
        ∧ (∀ p, p ≠ ZCF_CONFIG_FILE → p ≠ dirname ZCF_CONFIG_FILE →
             s' !! p = s !! p)
        ∧ (nullish config = true → s' = s).
Proof.
  unfold writeZcfConfig, try_catch, bind at 1.
  destruct (get_strict config "codeToolType" s) as [[tool|err] s0] eqn:Hget;
    pose proof (get_strict_state _ _ _ _ _ Hget) as ->.
  - unfold bind at 1.
    destruct (readTomlConfig_state e ZCF_CONFIG_FILE s) as [existing ->].
    match goal with
    | |- context [writeTomlConfig e ?p ?c s] =>
        destruct (writeTomlConfig_frame e p c s) as (s' & -> & Hframe & _)
    end.
    exists s'. split; [done|]. split; [done|].
    intros Hnull. by destruct config.
  - exists s. by cbn.
Qed.

End FrameFacts.

(** ** More on the migration of the legacy files *)

Section MigrationMore.
Context `{Constants}.

(** The cleanup loop records a path only once it is gone, and touches no
    path outside its list. *)
Lemma remove_each_sound e paths : ∀ removed (s s' : fs) r,
  remove_each e paths removed s = (Ok r, s') →
  (∀ p, p ∈ removed → s !! p = None) →
  ∀ p, p ∈ r → s' !! p = None ∧ (p ∈ removed ∨ p ∈ paths).
Proof.
  induction paths as [|q paths IH]; intros removed s s' r Hrun Hinv p Hp.
  - injection Hrun as <- <-. split; [by apply Hinv|by left].
  - cbn [remove_each] in Hrun.
    unfold bind at 1, try_catch, bind at 1, rmSync in Hrun.
    assert (Hstep : ∀ removed' (s1 : fs),
              remove_each e paths removed' s1 = (Ok r, s') →
              (∀ p, p ∈ removed' → s1 !! p = None) →
              (∀ p, p ∈ removed' → p ∈ removed ∨ p = q) →
              s' !! p = None ∧ (p ∈ removed ∨ p ∈ q :: paths)).
    { intros removed' s1 Hrun' Hinv' Hsub.
      destruct (IH _ _ _ _ Hrun' Hinv' p Hp) as [Hnone [Hin|Hin]].
      - split; [done|]. destruct (Hsub _ Hin) as [?| ->]; [by left|].
        right. by left.
      - split; [done|]. right. by right. }
    destruct (s !! q) as [[c|]|] eqn:E.
    + destruct (unlink_fails e q); cbn [ret] in Hrun.
      * eapply Hstep; [exact Hrun|done|]. intros; by left.
      * eapply Hstep; [exact Hrun| |].
        -- intros p' [Hin| ->%list_elem_of_singleton]%elem_of_app.
           ++ destruct (decide (p' = q)) as [->|Hne];
                [apply lookup_delete_eq|].
              rewrite lookup_delete_ne by done. by apply Hinv.
           ++ apply lookup_delete_eq.
        -- intros p' [Hin| ->%list_elem_of_singleton]%elem_of_app;
             [by left|by right].
    + cbn [ret] in Hrun. eapply Hstep; [exact Hrun|done|]. intros; by left.
    + cbn [ret] in Hrun. eapply Hstep; [exact Hrun| |].
      * intros p' [Hin| ->%list_elem_of_singleton]%elem_of_app; [by apply Hinv|done].
      * intros p' [Hin| ->%list_elem_of_singleton]%elem_of_app; [by left|by right].
Qed.

(** The directory of the store is created as a directory, where nothing
    was: no file changes. *)
Lemma config_dir_files e (s s0 : fs) r0 p c :
  (if negb (bool_decide (is_Some (s !! ZCF_CONFIG_DIR)))
   then mkdirSync e ZCF_CONFIG_DIR else ret ()) s = (r0, s0) →
  s0 !! p = Some (File c) ↔ s !! p = Some (File c).
Proof.
  case_bool_decide as Hd; cbn [negb]; [by intros [= _ <-]|].
  unfold mkdirSync. destruct (mkdir_fails e ZCF_CONFIG_DIR); [by intros [= _ <-]|].
  destruct (s !! ZCF_CONFIG_DIR) as [[c'|]|] eqn:E; intros [= _ <-]; try done.
  - destruct (decide (p = ZCF_CONFIG_DIR)) as [->|Hp].
    + rewrite lookup_insert_eq, E. split; intros [=].
    + by rewrite lookup_insert_ne.
  - destruct (decide (p = ZCF_CONFIG_DIR)) as [->|Hp].
    + rewrite lookup_insert_eq, E. split; intros [=].
    + by rewrite lookup_insert_ne.
Qed.

(** The move of the first legacy source touches the source and the
    target, and no other file. *)
Lemma move_legacy_files e source target (s s' : fs) r :
  move_legacy e source target s = (r, s') →
  ∀ p c, p ≠ source → p ≠ target →
    s' !! p = Some (File c) ↔ s !! p = Some (File c).
Proof.
  intros Hrun p c Hs Ht. revert Hrun.
  unfold move_legacy, bind at 1, existsSync. unfold bind at 1.
  destruct ((if negb (bool_decide (is_Some (s !! ZCF_CONFIG_DIR)))
             then mkdirSync e ZCF_CONFIG_DIR else ret ()) s) as [[[]|err] s0] eqn:E;
    pose proof (config_dir_files _ _ _ _ p c E) as Hs0;
    [|by intros [= _ <-]].
  rewrite <- Hs0. unfold try_catch, renameSync.
  destruct (rename_error e source target) as [err|].
  - destruct (negb (is_EXDEV err)); [by intros [= _ <-]|].
    unfold bind, copyFileSync. destruct (copy_fails e source target);
      [by intros [= _ <-]|].
    destruct (s0 !! source) as [[c0|]|] eqn:Es; [|by intros [= _ <-]..].
    unfold rmSync.
    destruct (<[target := File c0]> s0 !! source) as [[c'|]|];
      [destruct (unlink_fails e source)|..]; intros [= _ <-];
      by rewrite ?lookup_delete_ne, ?lookup_insert_ne.
  - destruct (s0 !! source) as [n|]; intros [= _ <-];
      by rewrite ?lookup_insert_ne, ?lookup_delete_ne.
Qed.

Lemma remove_each_subset e paths removed (s s' : fs) r p :
  remove_each e paths removed s = (Ok r, s') → removed = [] →
  (∀ q, q ∈ paths → q ∈ LEGACY_ZCF_CONFIG_FILES) →
  p ∈ r → s' !! p = None ∧ p ∈ LEGACY_ZCF_CONFIG_FILES.
Proof.
  intros Hrun -> Hsub Hp.
  destruct (remove_each_sound _ _ _ _ _ _ Hrun (λ p (Hin : p ∈ []),
              False_ind _ (not_elem_of_nil _ Hin)) p Hp) as [Hnone [Hin|Hin]].
  - by apply not_elem_of_nil in Hin.
  - split; [done|by apply Hsub].
Qed.

(** X3.  Where no legacy candidate is a directory (a directory would be
    moved with the files in it, which the flat file system does not show):
    what the migration reports as removed is gone, and was a legacy file;
    the migration touches no file but the legacy files and the canonical
    file: every other file is as it was, and none appears. *)
Theorem migration_reports_what_it_removed e (s s' : fs) r :
  legacy_files_only s →
  migrateZcfConfigIfNeeded e s = (Ok r, s') →
  (∀ p, p ∈ removed r → s' !! p = None ∧ p ∈ LEGACY_ZCF_CONFIG_FILES)
  ∧ (∀ p c, p ∉ LEGACY_ZCF_CONFIG_FILES → p ≠ ZCF_CONFIG_FILE →
       s' !! p = Some (File c) ↔ s !! p = Some (File c)).
Proof.
  intros _. unfold migrateZcfConfigIfNeeded, bind at 1 2, existsSync.
  assert (Hleg : ∀ q, q ∈ legacy_sources s → q ∈ LEGACY_ZCF_CONFIG_FILES).
  { intros q Hq. by apply elem_of_legacy_sources in Hq as [? _]. }
  destruct (legacy_sources s) as [|source rest] eqn:Hsrc.
  { intros [= <- <-]. split; [|done]. intros p Hp. by apply not_elem_of_nil in Hp. }
  case_bool_decide as Ht; cbn [negb].
  - unfold bind.
    destruct (remove_each e (source :: rest) [] s) as [[r'|err] s1] eqn:Hrun;
      [|done].
    intros [= <- <-]. cbn [removed]. split.
    + intros p Hp. by eapply remove_each_subset.
    + intros p c Hp _. rewrite (remove_each_other _ _ _ _ _ _ p Hrun); [done|].
      intros Hin. apply Hp, Hleg, Hin.
  - unfold bind at 1.
    destruct (move_legacy e source ZCF_CONFIG_FILE s) as [[[]|err] s0] eqn:Hmove;
      [|done].
    unfold bind.
    destruct (remove_each e rest [] s0) as [[r'|err] s1] eqn:Hrun; [|done].
    intros [= <- <-]. cbn [removed]. split.
    + intros p Hp. eapply remove_each_subset; [exact Hrun|done| |done].
      intros q Hq. apply Hleg. by right.
    + intros p c Hp Hfile.
      rewrite (remove_each_other _ _ _ _ _ _ p Hrun).
      * eapply move_legacy_files; [exact Hmove| |done].
        intros ->. apply Hp, Hleg. by left.
      * intros Hin. apply Hp, Hleg. by right.
Qed.

(** X4.  When the canonical file exists, the migration moves nothing: it
    returns, whatever fails, and reports no migration; every path that is not
    in the list of legacy files is as it was. *)
Theorem canonical_file_wins e (s : fs) :
  is_Some (s !! ZCF_CONFIG_FILE) →
  ∃ r s',
    migrateZcfConfigIfNeeded e s = (Ok r, s')
    ∧ migrated r = false
    ∧ source r = None
    ∧ ∀ p, p ∉ LEGACY_ZCF_CONFIG_FILES → s' !! p = s !! p.
Proof.
  intros Ht. unfold migrateZcfConfigIfNeeded, bind at 1 2, existsSync.
  rewrite bool_decide_eq_true_2 by done. cbn [negb].
  destruct (legacy_sources s) as [|src rest] eqn:Hsrc; [by eexists _, _|].
  unfold bind.
  destruct (remove_each_returns e (src :: rest) [] s) as (r & s' & Hrun).
  rewrite Hrun. eexists _, _. split; [done|]. split; [done|]. split; [done|].
  intros p Hp. eapply remove_each_other; [exact Hrun|].
  rewrite <- Hsrc. intros Hin. by apply elem_of_legacy_sources in Hin as [? _].
Qed.

(** The first legacy source is the first legacy path that exists. *)
Lemma legacy_sources_head (s : fs) src rest :
  legacy_sources s = src :: rest →
  ∃ before after,
    LEGACY_ZCF_CONFIG_FILES = (before ++ src :: after)%list
    ∧ (∀ p, p ∈ before → s !! p = None)
    ∧ is_Some (s !! src).
Proof.
  unfold legacy_sources. induction LEGACY_ZCF_CONFIG_FILES as [|q l IH]; [done|].
  rewrite filter_cons. destruct (decide (is_Some (s !! q))) as [Hq|Hq].
  - intros [= -> _]. exists [], l. split; [done|]. split; [|done].
    intros p Hp. by apply not_elem_of_nil in Hp.
  - intros Hl. destruct (IH Hl) as (before & after & -> & Hb & Hs).
    exists (q :: before), after. split; [done|]. split; [|done].
    intros p [->|Hp]%elem_of_cons; [|by apply Hb].
    by apply eq_None_not_Some.
Qed.

(** X5.  When the canonical file is missing and no file operation fails for
    good (a rename may fail across devices), the content of the first legacy
    file that exists, in the order of the list, becomes the content of the
    canonical file; the result names that file as the source and the other
    legacy files that existed as removed. *)
Theorem first_legacy_file_becomes_canonical e (s : fs) src rest :
  benign e → distinct_paths → legacy_files_only s →
  s !! ZCF_CONFIG_FILE = None →
  legacy_sources s = src :: rest →
  ∃ s',
    migrateZcfConfigIfNeeded e s
    = (Ok {| migrated := true; source := Some src; target := ZCF_CONFIG_FILE;
             removed := rest |}, s')
    ∧ s' !! ZCF_CONFIG_FILE = s !! src
    ∧ ∃ before after,
        LEGACY_ZCF_CONFIG_FILES = (before ++ src :: after)%list
        ∧ (∀ p, p ∈ before → s !! p = None)
        ∧ is_Some (s !! src).
Proof.
  intros Hb [Hfile Hdir] Hfiles Hnone Hsrc.
  pose proof Hb as (Hmk & Hun & Hcp & Hre).
  assert (Hleg : ∀ q, q ∈ src :: rest → q ∈ LEGACY_ZCF_CONFIG_FILES ∧ is_Some (s !! q)).
  { intros q Hq. rewrite <- Hsrc in Hq. by apply elem_of_legacy_sources in Hq. }
  destruct (Hleg src ltac:(by left)) as [Hin [n Hn]].
  assert (Hsf : src ≠ ZCF_CONFIG_FILE) by (by intros ->).
  assert (Hsd : src ≠ ZCF_CONFIG_DIR) by (by intros ->).
  assert (∃ c, n = File c) as [c ->].
  { destruct n as [c|]; [by eexists|]. by destruct (Hfiles src Hin). }
  assert (Hmove : ∃ s0, move_legacy e src ZCF_CONFIG_FILE s = (Ok (), s0)
                        ∧ s0 !! ZCF_CONFIG_FILE = Some (File c)
                        ∧ ∀ p, p ∈ LEGACY_ZCF_CONFIG_FILES → p ≠ src →
                               s0 !! p = s !! p).
  { unfold move_legacy, bind at 1, existsSync.
    set (s0 := if bool_decide (is_Some (s !! ZCF_CONFIG_DIR)) then s
               else <[ZCF_CONFIG_DIR := Dir]> s).
    assert (Hs0 : (if negb (bool_decide (is_Some (s !! ZCF_CONFIG_DIR)))
                   then mkdirSync e ZCF_CONFIG_DIR else ret ()) s = (Ok (), s0)).
    { unfold s0. case_bool_decide as Hd; cbn [negb]; [done|].
      unfold mkdirSync. rewrite Hmk.
      destruct (s !! ZCF_CONFIG_DIR) eqn:E; [|done]. exfalso. apply Hd. eauto. }
    unfold bind at 1. rewrite Hs0.
    assert (Hs0src : s0 !! src = Some (File c)).
    { unfold s0. case_bool_decide; [done|]. by rewrite lookup_insert_ne. }
    assert (Hs0leg : ∀ p, p ∈ LEGACY_ZCF_CONFIG_FILES → s0 !! p = s !! p).
    { intros p Hp. unfold s0. case_bool_decide; [done|].
      rewrite lookup_insert_ne; [done|]. by intros <-. }
    unfold try_catch, renameSync.
    destruct (rename_error e src ZCF_CONFIG_FILE) as [err|] eqn:Herr.
    - rewrite (Hre _ _ _ Herr). cbn [negb].
      unfold bind, copyFileSync. rewrite Hcp, Hs0src. unfold rmSync.
      rewrite lookup_insert_ne by done. rewrite Hs0src, Hun.
      eexists. split; [done|]. split.
      + rewrite lookup_delete_ne by done. apply lookup_insert_eq.
      + intros p Hp Hne. rewrite lookup_delete_ne by done.
        rewrite lookup_insert_ne by (by intros <-). by apply Hs0leg.
    - rewrite Hs0src. eexists. split; [done|]. split.
      + apply lookup_insert_eq.
      + intros p Hp Hne. rewrite lookup_insert_ne by (by intros <-).
        rewrite lookup_delete_ne by done. by apply Hs0leg. }
  destruct Hmove as (s0 & Hmove & Hs0t & Hs0leg).
  unfold migrateZcfConfigIfNeeded, bind at 1 2, existsSync.
  rewrite Hsrc, bool_decide_eq_false_2 by (rewrite Hnone; by intros [? ?]).
  cbn [negb]. unfold bind at 1. rewrite Hmove. unfold bind.
  assert (Hrest : ∀ p, p ∈ rest → s0 !! p ≠ Some Dir).
  { intros p Hp. destruct (Hleg p ltac:(by right)) as [Hpl _].
    destruct (decide (p = src)) as [->|Hne].
    - pose proof (move_legacy_benign e src s Hb (conj Hfile Hdir) Hfiles
                    ltac:(rewrite Hsrc; by left)) as (s1 & Hm & Hgone & _).
      rewrite Hmove in Hm. injection Hm as <-. by rewrite Hgone.
    - rewrite Hs0leg by done. by apply Hfiles. }
  rewrite (remove_each_benign e rest [] s0 Hb Hrest). cbn [app ret].
  eexists. split; [done|]. split.
  - rewrite lookup_delete_each. destruct (decide (ZCF_CONFIG_FILE ∈ rest)) as [Hin'|];
      [|by rewrite Hs0t, Hn].
    destruct (Hleg ZCF_CONFIG_FILE ltac:(by right)) as [? _]. done.
  - by eapply legacy_sources_head.
Qed.

End MigrationMore.

(** ** More on the read operations *)

Section ReadMore.
Context `{Constants}.

Lemma normalize_shape e config :
  normalizeZcfConfig e config = Null
  ∨ ∃ fields, normalizeZcfConfig e config = Obj fields
              ∧ map fst fields = accepted_fields.
Proof.
  unfold normalizeZcfConfig. destruct (truthy config); cbn [negb]; [|by left].
  right. by eexists.
Qed.

Lemma first_normalized_shape e (s : fs) paths :
  first_normalized e s paths = Null
  ∨ ∃ fields, first_normalized e s paths = Obj fields
              ∧ map fst fields = accepted_fields.
Proof.
  induction paths as [|p paths IH]; [by left|]. cbn [first_normalized].
  destruct (truthy (flat_json_read e s p)); [|done].
  apply normalize_shape.
Qed.

Lemma convert_shape tomlConfig (s s' : fs) r :
  convertTomlToLegacyConfig tomlConfig s = (Ok r, s') →
  s' = s ∧ ∃ fields, r = Obj fields ∧ map fst fields = accepted_fields.
Proof.
  unfold convertTomlToLegacyConfig, bind.
  repeat match goal with
         | |- context [get_strict ?o ?k s] =>
             let E := fresh "E" in
             destruct (get_strict o k s) as [[?|?] ?] eqn:E;
             apply get_strict_state in E; subst; [|done]
         end.
  intros [= <- <-]. split; [done|]. by eexists.
Qed.

Lemma read_after_migration_shape e (s s' : fs) r :
  read_after_migration e s = (Ok r, s') →
  s' = s ∧ (r = Null ∨ ∃ fields, r = Obj fields ∧ map fst fields = accepted_fields).
Proof.
  unfold read_after_migration. destruct (structured_read e s) as [table|].
  - intros Hc. apply convert_shape in Hc as [-> ?]. split; [done|by right].
  - intros [= <- <-]. split; [done|].
    apply (first_normalized_shape e s (json_config_file :: LEGACY_ZCF_CONFIG_FILES)).
Qed.

Lemma read_shape e (s s' : fs) r :
  readZcfConfig e s = (Ok r, s') →
  r = Null ∨ ∃ fields, r = Obj fields ∧ map fst fields = accepted_fields.
Proof.
  rewrite readZcfConfig_after_migration.
  destruct (migrateZcfConfigIfNeeded e s) as [[m|err] s1]; [|done].
  intros Hr. by apply read_after_migration_shape in Hr as [_ ?].
Qed.

(** X6.  [getZcfConfig] never returns [null]: when it returns, the result
    is a record that has the four required fields among its keys. *)
Theorem getZcfConfig_returns_a_record e (s s' : fs) r :
  getZcfConfig e s = (Ok r, s') →
  ∃ fields,
    r = Obj fields
    ∧ ∀ k, k ∈ ["version"; "preferredLang"; "codeToolType"; "lastUpdated"] →
           k ∈ map fst fields.
Proof.
  unfold getZcfConfig, bind.
  destruct (readZcfConfig e s) as [[config|err] s1] eqn:Hread; [|done].
  intros [= <- <-].
  destruct (read_shape _ _ _ _ Hread) as [->|(fields & -> & Hkeys)].
  - eexists. split; [done|]. intros k Hk. exact Hk.
  - exists fields. split; [done|]. rewrite Hkeys. intros k Hk.
    unfold accepted_fields.
    repeat (apply elem_of_cons in Hk as [->|Hk]; [in_list|]).
    by apply elem_of_nil in Hk.
Qed.

Lemma first_normalized_absent e (s : fs) paths :
  (∀ p, p ∈ paths → s !! p = None) → first_normalized e s paths = Null.
Proof.
  induction paths as [|p paths IH]; intros Hnone; [done|].
  cbn [first_normalized]. unfold flat_json_read.
  rewrite json_at_absent by (apply Hnone; by left). cbn.
  apply IH. intros q Hq. apply Hnone. by right.
Qed.

(** X7.  With no canonical file, no flat-JSON file beside it and no legacy
    file, [getZcfConfig] returns the default record (version [1.0.0],
    language [en], the default tool, the current time) and leaves the file
    system as it is. *)
Theorem getZcfConfig_defaults_when_nothing_is_stored e (s : fs) :
  s !! ZCF_CONFIG_FILE = None →
  s !! json_config_file = None →
  (∀ p, p ∈ LEGACY_ZCF_CONFIG_FILES → s !! p = None) →
  getZcfConfig e s = (Ok (default_record e), s).
Proof.
  intros Hc Hj Hl. unfold getZcfConfig, bind.
  rewrite readZcfConfig_after_migration.
  rewrite migrate_nothing by (by apply legacy_sources_nil).
  unfold read_after_migration, structured_read. rewrite Hc.
  destruct (read_fails e ZCF_CONFIG_FILE);
    (rewrite first_normalized_absent; [done|]);
    intros p [->|Hp]%elem_of_cons; auto.
Qed.

(** X8.  A canonical document that parses but has no [general] table, or no
    [claudeCode] table, makes the read throw a [TypeError]: the fallbacks
    are not tried, and [getZcfConfig] and [updateZcfConfig] throw with it. *)
Theorem read_throws_without_sections e (s : fs) text table :
  s !! ZCF_CONFIG_FILE = Some (File (TomlText text table)) →
  read_fails e ZCF_CONFIG_FILE = false →
  ZCF_CONFIG_FILE ∉ LEGACY_ZCF_CONFIG_FILES →
  nullish (get (Obj table) "general") = true
  ∨ nullish (get (Obj table) "claudeCode") = true →
  ∃ s',
    readZcfConfig e s = (Throw TypeError, s')
    ∧ getZcfConfig e s = (Throw TypeError, s')
    ∧ ∀ updates, updateZcfConfig e updates s = (Throw TypeError, s').
Proof.
  intros Hs Hr Hnin Hmiss.
  destruct (migrate_keeps_target e s ltac:(by rewrite Hs) Hnin)
    as (m & s' & Hmig & Hs').
  assert (Hread : readZcfConfig e s = (Throw TypeError, s')).
  { rewrite readZcfConfig_after_migration, Hmig.
    unfold read_after_migration, structured_read. rewrite Hr, Hs', Hs.
    unfold convertTomlToLegacyConfig.
    destruct (get (Obj table) "general") as [| | | | | |g] eqn:Eg;
      try done; destruct Hmiss as [Hg|Hc]; try done;
      by destruct (get (Obj table) "claudeCode"). }
  exists s'. split; [done|]. split.
  - unfold getZcfConfig, bind. by rewrite Hread.
  - intros updates. unfold updateZcfConfig, bind. by rewrite Hread.
Qed.

Lemma sanitizePreferredLang_idem v :
  isSupportedLang (Str "en") = true →
  sanitizePreferredLang (sanitizePreferredLang v) = sanitizePreferredLang v.
Proof.
  intros Hen. unfold sanitizePreferredLang.
  destruct (isSupportedLang v) eqn:E; by rewrite ?E, ?Hen.
Qed.

Lemma sanitizeCodeToolType_idem v :
  isCodeToolType (Str DEFAULT_CODE_TOOL_TYPE) = true →
  sanitizeCodeToolType (sanitizeCodeToolType v) = sanitizeCodeToolType v.
Proof.
  intros Hd. unfold sanitizeCodeToolType.
  destruct (isCodeToolType v) eqn:E; by rewrite ?E, ?Hd.
Qed.

Lemma includes_elem l v : includes l v = true → ∃ str, v = Str str ∧ str ∈ l.
Proof.
  unfold includes. intros Hin. apply existsb_exists in Hin as (x & Hx & Hsame).
  destruct v; try done. cbn in Hsame. apply String.eqb_eq in Hsame as ->.
  eexists. split; [done|]. by apply list_elem_of_In.
Qed.

(** X9.  Normalizing twice is normalizing once: [normalizeZcfConfig] leaves
    a record it has produced as it is, for any input value. *)
Theorem normalize_idempotent e config :
  isSupportedLang (Str "en") = true →
  isCodeToolType (Str DEFAULT_CODE_TOOL_TYPE) = true →
  normalizeZcfConfig e (normalizeZcfConfig e config) = normalizeZcfConfig e config.
Proof.
  intros Hen Hd. destruct (truthy config) eqn:Ht.
  2: { assert (normalizeZcfConfig e config = Null) as ->;
         [unfold normalizeZcfConfig; by rewrite Ht|apply normalize_null]. }
  unfold normalizeZcfConfig. rewrite Ht. cbn [truthy negb get lookup_field].
  keys.
  rewrite sanitizePreferredLang_idem, sanitizeCodeToolType_idem by done.
  repeat f_equal.
  - by destruct (is_string (get config "version")) eqn:E; cbn; rewrite ?E.
  - destruct (truthy (get config "templateLang")) eqn:E; [|done].
    rewrite sanitizePreferredLang_idem by done.
    unfold sanitizePreferredLang at 1.
    destruct (isSupportedLang (get config "templateLang")); by rewrite ?E.
  - by destruct (is_array (get config "outputStyles")) eqn:E; cbn; rewrite ?E.
  - by destruct (is_string (get config "defaultOutputStyle")) eqn:E; cbn; rewrite ?E.
  - by destruct (is_string (get config "lastUpdated")) eqn:E; cbn; rewrite ?E.
Qed.

End ReadMore.

(** ** More on the write operations *)

Section WriteMore.
Context `{Constants}.

(** What [writeTomlConfig] does at any path that can be written. *)
Lemma writeTomlConfig_persists_at e path config (s : fs) :
  has_sections config → writable_at e path s →
  writeTomlConfig e path config s
  = (Ok (),
     <[path := File (persisted_content config (s !! path))]>
       (with_dir (dirname path) s)).
Proof.
  intros Hsec (Hw & Hr & Hmk & Hdir & Hnodir).
  unfold writeTomlConfig, try_catch at 1, bind at 1.
  rewrite ensureDir_with_dir by done.
  set (s0 := with_dir (dirname path) s).
  assert (Hs0 : s0 !! path = s !! path).
  { apply with_dir_lookup. intros Heq. by apply Hdir. }
  unfold bind at 1, existsSync. rewrite Hs0. unfold persisted_content.
  destruct (s !! path) as [[c|]|] eqn:E; [|done|].
  - rewrite bool_decide_eq_true_2 by eauto.
    unfold bind at 1, readFile. rewrite Hr, Hs0, ?E.
    unfold bind at 1. rewrite build_edits_sections by done.
    unfold try_catch, bind. rewrite batchEditToml_indep.
    destruct (batchEditToml c (edits_of config) ∅).1 as [c'|err];
      unfold writeFile; by rewrite Hw, Hs0, ?E.
  - rewrite bool_decide_eq_false_2 by (by intros [? ?]).
    unfold writeFile. by rewrite Hw, Hs0, ?E.
Qed.

Lemma has_sections_obj config : has_sections config → ∃ fields, config = Obj fields.
Proof. intros (v & l & g & c & x & -> & _). by eexists. Qed.

(** X10.  Where there is no file, or a file that does not parse,
    [writeTomlConfig] writes the full serialization of the configuration,
    and the structured read then returns the configuration, without its
    absent fields. *)
Theorem unreadable_document_is_rewritten e path config (s : fs) :
  has_sections config →
  writable_at e path s →
  s !! path = None
  ∨ (∃ c, s !! path = Some (File c) ∧ ∀ text table, c ≠ TomlText text table) →
  ∃ s',
    writeTomlConfig e path config s = (Ok (), s')
    ∧ s' !! path = Some (File (stringifyToml config))
    ∧ readTomlConfig e path s' = (Ok (prune config), s').
Proof.
  intros Hsec Hw Hold. rewrite writeTomlConfig_persists_at by done.
  eexists. split; [done|].
  assert (Hc : persisted_content config (s !! path) = stringifyToml config).
  { destruct Hold as [->|(c & -> & Hc)]; [done|].
    unfold persisted_content, batchEditToml. destruct c; try done.
    by destruct (Hc text table). }
  rewrite Hc. split; [apply lookup_insert_eq|].
  destruct Hw as (_ & Hr & _).
  unfold readTomlConfig, try_catch, bind at 1, existsSync.
  rewrite lookup_insert_eq, bool_decide_eq_true_2 by eauto. cbn [negb].
  unfold bind at 1, readFile. rewrite Hr, lookup_insert_eq.
  destruct (has_sections_obj _ Hsec) as [fields ->]. done.
Qed.

(** X11.  Where the codec reads the text that the patcher leaves, the
    flags that [writeZcfConfig] writes follow the current tool: the tool
    written is a supported one, [claudeCode.enabled] says whether it is
    [claude-code] and [codex.enabled] whether it is [codex], so the two are
    never both set. *)
Theorem written_flags_follow_the_current_tool e config (s : fs) :
  (∃ fields, config = Obj fields) →
  writable e s →
  patch_read_on (toml_to_write e (existing_table e s) config) (s !! ZCF_CONFIG_FILE) →
  isCodeToolType (Str DEFAULT_CODE_TOOL_TYPE) = true →
  "" ∉ CODE_TOOL_TYPES →
  ∃ s1 text table tool,
    writeZcfConfig e config s = (Ok (), s1)
    ∧ s1 !! ZCF_CONFIG_FILE = Some (File (TomlText text table))
    ∧ get (get (Obj table) "general") "currentTool" = Str tool
    ∧ tool ∈ CODE_TOOL_TYPES
    ∧ get (get (Obj table) "claudeCode") "enabled"
      = Bool (String.eqb tool "claude-code")
    ∧ get (get (Obj table) "codex") "enabled" = Bool (String.eqb tool "codex")
    ∧ (String.eqb tool "claude-code" && String.eqb tool "codex" = false).
Proof.
  intros [fields ->] Hw Hread Hd Hne.
  rewrite writeZcfConfig_persists by done.
  set (tc := toml_to_write e (existing_table e s) (Obj fields)) in *.
  destruct (persisted_lookup tc (s !! ZCF_CONFIG_FILE)
              (toml_to_write_sections _ _ _) Hread)
    as (text & table & Ht & Hman & _ & _).
  pose proof (toml_to_write_fields e (existing_table e s) fields)
    as (_ & _ & _ & _ & _ & Htool & Hcc & _ & _ & _ & Hcx).
  fold tc in Htool, Hcc, Hcx.
  assert (Hvalid : isCodeToolType
            (sanitizeCodeToolType (get (Obj fields) "codeToolType")) = true).
  { unfold sanitizeCodeToolType.
    by destruct (isCodeToolType (get (Obj fields) "codeToolType")) eqn:E. }
  destruct (includes_elem _ _ Hvalid) as (tool & Hstr & Hin).
  assert (Hnonempty : tool ≠ "") by (by intros ->).
  rewrite Hstr in Htool, Hcc, Hcx. unfold or_else in Htool. cbn [truthy] in Htool.
  rewrite (proj2 (String.eqb_neq tool "") Hnonempty) in Htool. cbn [negb] in Htool.
  cbn [same_string] in Hcc, Hcx.
  exists (<[ZCF_CONFIG_FILE := File (TomlText text table)]>
            (with_dir (dirname ZCF_CONFIG_FILE) s)), text, table, tool.
  rewrite Ht. split; [done|]. split; [apply lookup_insert_eq|].
  split; [apply (Hman "general" "currentTool" _ ltac:(in_list) Htool I)|].
  split; [done|].
  split; [apply (Hman "claudeCode" "enabled" _ ltac:(in_list) Hcc I)|].
  split; [apply (Hman "codex" "enabled" _ ltac:(in_list) Hcx I)|].
  destruct (String.eqb tool "claude-code") eqn:E; [|done].
  apply String.eqb_eq in E as ->. done.
Qed.

End WriteMore.

(** ** Spread *)

Lemma lookup_field_app k l1 l2 :
  lookup_field k (l1 ++ l2)
  = if bool_decide (k ∈ map fst l1) then lookup_field k l1 else lookup_field k l2.
Proof.
  induction l1 as [|[k' v] l1 IH]; [done|]. cbn [app lookup_field map fst].
  destruct (String.eqb k k') eqn:E.
  - apply String.eqb_eq in E as ->. rewrite bool_decide_eq_true_2; [done|by left].
  - apply String.eqb_neq in E. rewrite IH.
    case_bool_decide as Hin.
    + rewrite bool_decide_eq_true_2; [done|by right].
    + rewrite bool_decide_eq_false_2; [done|].
      by intros [?|?]%elem_of_cons.
Qed.

Lemma lookup_field_elem k v l :
  NoDup (map fst l) → (k, v) ∈ l → lookup_field k l = v.
Proof.
  induction l as [|[k' v'] l IH]; intros Hnd Hin; [by apply elem_of_nil in Hin|].
  cbn [map fst] in Hnd. apply NoDup_cons in Hnd as [Hk Hnd].
  cbn [lookup_field]. apply elem_of_cons in Hin as [[= <- <-]|Hin].
  - by rewrite eqb_string_refl.
  - destruct (String.eqb k k') eqn:E; [|by apply IH].
    apply String.eqb_eq in E as ->. exfalso. apply Hk.
    apply list_elem_of_fmap. by exists (k', v).
Qed.

Lemma lookup_field_in k l :
  k ∈ map fst l → (k, lookup_field k l) ∈ l.
Proof.
  induction l as [|[k' v'] l IH]; intros Hin; [by apply elem_of_nil in Hin|].
  cbn [lookup_field]. destruct (String.eqb k k') eqn:E.
  - apply String.eqb_eq in E as ->. by left.
  - right. apply IH. cbn [map fst] in Hin.
    apply elem_of_cons in Hin as [->|Hin]; [|done].
    by rewrite eqb_string_refl in E.
Qed.

Lemma lookup_field_reverse k l :
  NoDup (map fst l) → lookup_field k (reverse l) = lookup_field k l.
Proof.
  intros Hnd. destruct (decide (k ∈ map fst l)) as [Hin|Hin].
  - apply lookup_field_elem.
    + rewrite fmap_reverse. by rewrite reverse_Permutation.
    + apply elem_of_reverse. by apply lookup_field_in.
  - rewrite !lookup_field_not_in; [done|done|].
    rewrite fmap_reverse. by rewrite elem_of_reverse.
Qed.

Lemma fold_set_is_obj l : ∀ fields,
  ∃ fields', fold_left (fun o kv => set o kv.1 kv.2) l (Obj fields) = Obj fields'
             ∧ (NoDup (map fst fields) → NoDup (map fst fields')).
Proof.
  induction l as [|[k v] l IH]; intros fields; [by eexists|].
  cbn [fold_left set fst snd].
  destruct (IH (update_field k v fields)) as (fields' & -> & Hnd).
  exists fields'. split; [done|]. intros Hf. by apply Hnd, update_field_keys.
Qed.

Lemma fold_set_get l : ∀ fields k,
  get (fold_left (fun o kv => set o kv.1 kv.2) l (Obj fields)) k
  = lookup_field k (reverse l ++ fields).
Proof.
  induction l as [|[k' v] l IH]; intros fields k; [done|].
  cbn [fold_left set fst snd]. rewrite IH, reverse_cons, <- app_assoc.
  rewrite !(lookup_field_app k (reverse l)). case_bool_decide; [done|].
  cbn [app lookup_field]. destruct (String.eqb k k') eqn:E.
  - apply String.eqb_eq in E as ->. apply lookup_update_eq.
  - apply String.eqb_neq in E. by apply lookup_update_ne.
Qed.

Lemma spread_both_table a b :
  ∃ fields, spread_both a b = Obj fields ∧ NoDup (map fst fields).
Proof.
  unfold spread_both.
  destruct (fold_set_is_obj (own_properties a ++ own_properties b) [])
    as (fields & -> & Hnd).
  exists fields. split; [done|]. apply Hnd. constructor.
Qed.

Lemma own_properties_get v k :
  table_or_absent v → lookup_field k (own_properties v) = get v k.
Proof. by intros [->|(fields & -> & _)]. Qed.

Lemma own_properties_NoDup v :
  table_or_absent v → NoDup (map fst (own_properties v)).
Proof. intros [->|(fields & -> & ?)]; [constructor|done]. Qed.

(** [{ ...a, ...b }.k] is [b.k] when [b] has the key, and [a.k] otherwise. *)
Lemma spread_both_get a b k :
  table_or_absent a → table_or_absent b →
  get (spread_both a b) k = if patches b k then get b k else get a k.
Proof.
  intros Ha Hb. unfold spread_both, patches.
  rewrite fold_set_get, app_nil_r, reverse_app, lookup_field_app.
  rewrite fmap_reverse.
  case_bool_decide as Hin; case_bool_decide as Hin'.
  - rewrite lookup_field_reverse by (by apply own_properties_NoDup).
    by apply own_properties_get.
  - exfalso. apply Hin'. exact (proj1 (elem_of_reverse _ _) Hin).
  - exfalso. apply Hin. exact (proj2 (elem_of_reverse _ _) Hin').
  - rewrite lookup_field_reverse by (by apply own_properties_NoDup).
    by apply own_properties_get.
Qed.

Lemma is_patch_table v : is_patch v → table_or_absent v.
Proof. intros [->|(fields & -> & Hnd & _)]; [by left|right; eauto]. Qed.



(** ** [updateTomlConfig] *)

Section UpdateTomlFacts.
Context `{Constants}.

Lemma updated_config_sections e existingConfig updates :
  has_sections (updated_config e existingConfig updates).
Proof.
  unfold updated_config.
  destruct (spread_both_table (get existingConfig "general") (get updates "general"))
    as (g & -> & Hg).
  destruct (spread_both_table (get existingConfig "claudeCode")
              (get updates "claudeCode")) as (c & -> & Hc).
  destruct (spread_both_table (get existingConfig "codex") (get updates "codex"))
    as (x & -> & Hx).
  by eexists _, _, g, c, x.
Qed.

(** The call, step by step, where the file can be written. *)
Lemma updateTomlConfig_run e path fields existing (s : fs) :
  writable_at e path s →
  readTomlConfig e path s = (Ok existing, s) →
  let config :=
    updated_config e
      (or_else existing (createDefaultTomlConfig e (Str "en") (Str "global")))
      (Obj fields) in
  updateTomlConfig e path (Obj fields) s
  = (Ok config,
     <[path := File (persisted_content config (s !! path))]>
       (with_dir (dirname path) s)).
Proof.
  intros Hw Hread config. unfold updateTomlConfig, bind at 1. rewrite Hread.
  unfold bind at 1. cbn [get_strict ret]. unfold bind at 1.
  fold (updated_config e
          (or_else existing (createDefaultTomlConfig e (Str "en") (Str "global")))
          (Obj fields)).
  fold config.
  by rewrite (writeTomlConfig_persists_at e path config s
                (updated_config_sections _ _ _) Hw).
Qed.


Lemma readTomlConfig_unreadable e path (s : fs) :
  s !! path = None
  ∨ (∃ c, s !! path = Some (File c) ∧ ∀ text table, c ≠ TomlText text table) →
  readTomlConfig e path s = (Ok Null, s).
Proof.
  intros Hold. unfold readTomlConfig, try_catch, bind at 1, existsSync.
  destruct Hold as [Hs|(c & Hs & Hc)]; rewrite Hs.
  - by rewrite bool_decide_eq_false_2 by (by intros [? ?]).
  - rewrite bool_decide_eq_true_2 by eauto. cbn [negb].
    unfold bind at 1, readFile. destruct (read_fails e path); [done|].
    rewrite Hs. unfold bind, parseToml. destruct c; try done.
    by destruct (Hc text table).
Qed.

(** The sections of the configuration that [updateTomlConfig] writes. *)
Lemma updated_config_get e existingConfig updates section key :
  section ∈ section_names →
  table_or_absent (get existingConfig section) →
  table_or_absent (get updates section) →
  get (get (updated_config e existingConfig updates) section) key
  = if patches (get updates section) key then get (get updates section) key
    else get (get existingConfig section) key.
Proof.
  intros Hsec Ha Hb. unfold section_names in Hsec.
  repeat (apply elem_of_cons in Hsec as [->|Hsec];
          [by apply spread_both_get|]).
  by apply elem_of_nil in Hsec.
Qed.




End UpdateTomlFacts.

Section UpdateTomlMore.
Context `{Constants}.


Lemma patch_of_one key v : is_defined v = true → is_patch (Obj [(key, v)]).
Proof.
  intros Hv. right. eexists. split; [done|]. split.
  - apply NoDup_singleton.
  - by constructor.
Qed.


Lemma default_sections e section :
  section ∈ section_names →
  table_or_absent (get (createDefaultTomlConfig e (Str "en") (Str "global")) section).
Proof.
  intros Hsec. unfold section_names in Hsec.
  repeat (apply elem_of_cons in Hsec as [->|Hsec];
          [right; eexists; split; [reflexivity|]; by apply NoDup_keys|]).
  by apply elem_of_nil in Hsec.
Qed.

(** X14.  Where there is no file, or a file that does not parse,
    [updateTomlConfig] starts from the default configuration: it returns
    the defaults with the update merged in, section by section, and writes
    the full serialization of that; what an unparsable file held is gone. *)
Theorem updateTomlConfig_starts_from_defaults e path fields (s : fs) :
  writable_at e path s →
  s !! path = None
  ∨ (∃ c, s !! path = Some (File c) ∧ ∀ text table, c ≠ TomlText text table) →
  is_patch (get (Obj fields) "general") →
  is_patch (get (Obj fields) "claudeCode") →
  is_patch (get (Obj fields) "codex") →
  let updates := Obj fields in
  let defaults := createDefaultTomlConfig e (Str "en") (Str "global") in
  ∃ config s',
    updateTomlConfig e path updates s = (Ok config, s')
    ∧ s' !! path = Some (File (stringifyToml config))
    ∧ (∀ section key, section ∈ section_names →
         get (get config section) key
         = if patches (get updates section) key then get (get updates section) key
           else get (get defaults section) key)
    ∧ get config "version" = or_else (get updates "version") (Str "1.0.0")
    ∧ get config "lastUpdated" = Str (now e).
Proof.
  intros Hw Hold Hpg Hpc Hpx updates defaults. subst updates defaults.
  rewrite (updateTomlConfig_run e path fields Null s Hw
             (readTomlConfig_unreadable _ _ _ Hold)).
  change (or_else Null ?d) with d.
  set (config := updated_config e _ (Obj fields)).
  assert (Hc : persisted_content config (s !! path) = stringifyToml config).
  { destruct Hold as [->|(c & -> & Hc)]; [done|].
    unfold persisted_content, batchEditToml. destruct c; try done.
    by destruct (Hc text table). }
  rewrite Hc. eexists _, _. split; [done|]. split; [apply lookup_insert_eq|].
  split; [|done].
  intros section key Hsec. apply updated_config_get; [done| |].
  - by apply default_sections.
  - apply is_patch_table. unfold section_names in Hsec.
    repeat (apply elem_of_cons in Hsec as [->|Hsec]; [done|]).
    by apply elem_of_nil in Hsec.
Qed.

End UpdateTomlMore.

(** ** The statements above, on the concrete world *)

Lemma demo_writable_at t (s : fs) :
  s !! "/home/u/.ufomiao/zcf/config.toml" ≠ Some Dir →
  @writable_at demo_constants (calm t) "/home/u/.ufomiao/zcf/config.toml" s.
Proof. intros Hs. repeat split; done. Qed.


(** The migration on the canonical file with two legacy files. *)
Lemma migration_reports_what_it_removed_witness :
  @legacy_files_only demo_constants canonical_and_legacy
  ∧ ∃ r s',
    @migrateZcfConfigIfNeeded demo_constants (calm "t") canonical_and_legacy
    = (Ok r, s')
    ∧ removed r = ["/home/u/.claude/.zcf-config.json"; "/home/u/.zcf.json"]
    ∧ (∀ p, p ∈ removed r →
         s' !! p = None ∧ p ∈ @LEGACY_ZCF_CONFIG_FILES demo_constants)
    ∧ (∀ p c, p ∉ @LEGACY_ZCF_CONFIG_FILES demo_constants →
         p ≠ @ZCF_CONFIG_FILE demo_constants →
         s' !! p = Some (File c) ↔ canonical_and_legacy !! p = Some (File c)).
Proof.
  assert (H1 : @legacy_files_only demo_constants canonical_and_legacy).
  { intros p Hin. repeat (apply elem_of_cons in Hin as [->|Hin]; [done|]).
    by apply elem_of_nil in Hin. }
  split; [exact H1|].
  set (run := @migrateZcfConfigIfNeeded demo_constants (calm "t")
                canonical_and_legacy).
  destruct run.1 as [r|err] eqn:E; [|vm_compute in E; discriminate].
  assert (Hrun : run = (Ok r, run.2)).
  { rewrite <- E. apply surjective_pairing. }
  exists r, run.2. split; [exact Hrun|]. split.
  { vm_compute in E. by injection E as <-. }
  exact (@migration_reports_what_it_removed demo_constants (calm "t")
           canonical_and_legacy run.2 r H1 Hrun).
Defined.

Lemma canonical_file_wins_witness :
  is_Some (canonical_and_legacy !! @ZCF_CONFIG_FILE demo_constants)
  ∧ ∃ r s',
      @migrateZcfConfigIfNeeded demo_constants (unlink_denied "t")
        canonical_and_legacy = (Ok r, s')
      ∧ migrated r = false
      ∧ source r = None
      ∧ ∀ p, p ∉ @LEGACY_ZCF_CONFIG_FILES demo_constants →
             s' !! p = canonical_and_legacy !! p.
Proof.
  assert (H1 : is_Some (canonical_and_legacy !! @ZCF_CONFIG_FILE demo_constants))
    by (by eexists).
  split; [exact H1|].
  exact (@canonical_file_wins demo_constants (unlink_denied "t")
           canonical_and_legacy H1).
Defined.

Lemma demo_benign t : benign (calm t).
Proof. repeat split; done. Qed.

Lemma demo_distinct : @distinct_paths demo_constants.
Proof. split; intros Hin; not_in_list Hin. Qed.

Lemma first_legacy_file_becomes_canonical_witness :
  benign (calm "t")
  ∧ @distinct_paths demo_constants
  ∧ @legacy_files_only demo_constants legacy_only
  ∧ legacy_only !! @ZCF_CONFIG_FILE demo_constants = None
  ∧ @legacy_sources demo_constants legacy_only = ["/home/u/.zcf.json"]
  ∧ ∃ s',
      @migrateZcfConfigIfNeeded demo_constants (calm "t") legacy_only
      = (Ok {| migrated := true; source := Some "/home/u/.zcf.json";
               target := @ZCF_CONFIG_FILE demo_constants; removed := [] |}, s')
      ∧ s' !! @ZCF_CONFIG_FILE demo_constants = legacy_only !! "/home/u/.zcf.json".
Proof.
  assert (H3 : @legacy_files_only demo_constants legacy_only).
  { intros p Hp. cbn in Hp.
    repeat (apply elem_of_cons in Hp as [->|Hp]; [by vm_compute|]).
    by apply elem_of_nil in Hp. }
  assert (H4 : legacy_only !! @ZCF_CONFIG_FILE demo_constants = None)
    by reflexivity.
  assert (H5 : @legacy_sources demo_constants legacy_only = ["/home/u/.zcf.json"])
    by reflexivity.
  split; [apply demo_benign|]. split; [apply demo_distinct|].
  split; [exact H3|]. split; [exact H4|]. split; [exact H5|].
  destruct (@first_legacy_file_becomes_canonical demo_constants (calm "t")
              legacy_only _ _ (demo_benign "t") demo_distinct H3 H4 H5)
    as (s' & Hrun & Hmoved & _).
  exists s'. split; [exact Hrun|exact Hmoved].
Defined.

Lemma getZcfConfig_returns_a_record_witness :
  ∃ r s' fields,
    @getZcfConfig demo_constants (calm "t") legacy_only = (Ok r, s')
    ∧ r = Obj fields
    ∧ ∀ k, k ∈ ["version"; "preferredLang"; "codeToolType"; "lastUpdated"] →
           k ∈ map fst fields.
Proof.
  set (run := @getZcfConfig demo_constants (calm "t") legacy_only).
  destruct run.1 as [v|err] eqn:E; [|vm_compute in E; discriminate].
  assert (Hrun : run = (Ok v, run.2)).
  { rewrite <- E. apply surjective_pairing. }
  destruct (@getZcfConfig_returns_a_record demo_constants (calm "t") legacy_only
              run.2 v Hrun) as (fields & Hv & Hkeys).
  exists v, run.2, fields. split; [exact Hrun|]. split; [exact Hv|exact Hkeys].
Defined.

Lemma getZcfConfig_defaults_when_nothing_is_stored_witness :
  (∅ : fs) !! @ZCF_CONFIG_FILE demo_constants = None
  ∧ (∅ : fs) !! @json_config_file demo_constants = None
  ∧ (∀ p, p ∈ @LEGACY_ZCF_CONFIG_FILES demo_constants → (∅ : fs) !! p = None)
  ∧ @getZcfConfig demo_constants (calm "t") ∅
    = (Ok (@default_record demo_constants (calm "t")), ∅).
Proof.
  assert (H3 : ∀ p, p ∈ @LEGACY_ZCF_CONFIG_FILES demo_constants →
                    (∅ : fs) !! p = None) by done.
  split; [done|]. split; [done|]. split; [exact H3|].
  exact (@getZcfConfig_defaults_when_nothing_is_stored demo_constants (calm "t") ∅
           eq_refl eq_refl H3).
Defined.

Lemma read_throws_without_sections_witness :
  sectionless_state !! @ZCF_CONFIG_FILE demo_constants
    = Some (File (TomlText (TopLevel.version_line (JsText.lit "1.0.0"))
                           [("version", Str "1.0.0")]))
  ∧ (@ZCF_CONFIG_FILE demo_constants ∉ @LEGACY_ZCF_CONFIG_FILES demo_constants)
  ∧ ∃ s',
      @readZcfConfig demo_constants (calm "t") sectionless_state
      = (Throw TypeError, s')
      ∧ @getZcfConfig demo_constants (calm "t") sectionless_state
        = (Throw TypeError, s')
      ∧ ∀ updates,
          @updateZcfConfig demo_constants (calm "t") updates sectionless_state
          = (Throw TypeError, s').
Proof.
  split; [reflexivity|]. split; [exact demo_target_not_legacy|].
  exact (@read_throws_without_sections demo_constants (calm "t") sectionless_state
           (TopLevel.version_line (JsText.lit "1.0.0")) [("version", Str "1.0.0")]
           eq_refl eq_refl demo_target_not_legacy (or_introl eq_refl)).
Defined.

Lemma normalize_idempotent_witness :
  @isSupportedLang demo_constants (Str "en") = true
  ∧ @isCodeToolType demo_constants (Str (@DEFAULT_CODE_TOOL_TYPE demo_constants)) = true
  ∧ @normalizeZcfConfig demo_constants (calm "t")
      (@normalizeZcfConfig demo_constants (calm "t") french_record)
    = @normalizeZcfConfig demo_constants (calm "t") french_record.
Proof.
  split; [reflexivity|]. split; [reflexivity|].
  exact (@normalize_idempotent demo_constants (calm "t") french_record
           eq_refl eq_refl).
Defined.

Lemma demo_default_sections :
  has_sections
    (@createDefaultTomlConfig demo_constants (calm "t") (Str "en") (Str "global")).
Proof. eexists _, _, _, _, _. split; [reflexivity|]. repeat split; by apply NoDup_keys. Qed.

Lemma unreadable_document_is_rewritten_witness :
  let path := "/home/u/.ufomiao/zcf/config.toml" in
  let config :=
    @createDefaultTomlConfig demo_constants (calm "t") (Str "en") (Str "global") in
  has_sections config
  ∧ @writable_at demo_constants (calm "t") path garbled_state
  ∧ (∃ c, garbled_state !! path = Some (File c)
          ∧ ∀ text table, c ≠ TomlText text table)
  ∧ ∃ s',
      @writeTomlConfig demo_constants (calm "t") path config garbled_state
      = (Ok (), s')
      ∧ s' !! path = Some (File (@stringifyToml demo_constants config))
      ∧ readTomlConfig (calm "t") path s' = (Ok (prune config), s').
Proof.
  intros path config.
  assert (H2 : @writable_at demo_constants (calm "t") path garbled_state).
  { apply demo_writable_at. by vm_compute. }
  assert (H3 : ∃ c, garbled_state !! path = Some (File c)
                    ∧ ∀ text table, c ≠ TomlText text table).
  { exists (RawText (JsText.lit "[general")). split; [reflexivity|done]. }
  split; [exact demo_default_sections|]. split; [exact H2|]. split; [exact H3|].
  exact (@unreadable_document_is_rewritten demo_constants (calm "t") path config
           garbled_state demo_default_sections H2 (or_intror H3)).
Defined.

Lemma demo_no_empty_tool : "" ∉ @CODE_TOOL_TYPES demo_constants.
Proof. intros Hin. not_in_list Hin. Qed.

Lemma written_flags_follow_the_current_tool_witness :
  (∃ fields, full_record = Obj fields)
  ∧ @writable demo_constants (calm "t") both_tools_state
  ∧ @patch_read_on demo_constants
      (@toml_to_write demo_constants (calm "t")
         (@existing_table demo_constants (calm "t") both_tools_state) full_record)
      (both_tools_state !! @ZCF_CONFIG_FILE demo_constants)
  ∧ @isCodeToolType demo_constants (Str (@DEFAULT_CODE_TOOL_TYPE demo_constants)) = true
  ∧ ("" ∉ @CODE_TOOL_TYPES demo_constants)
  ∧ ∃ s1 text table tool,
      @writeZcfConfig demo_constants (calm "t") full_record both_tools_state
      = (Ok (), s1)
      ∧ s1 !! @ZCF_CONFIG_FILE demo_constants = Some (File (TomlText text table))
      ∧ get (get (Obj table) "general") "currentTool" = Str tool
      ∧ get (get (Obj table) "claudeCode") "enabled"
        = Bool (String.eqb tool "claude-code")
      ∧ get (get (Obj table) "codex") "enabled" = Bool (String.eqb tool "codex").
Proof.
  assert (H1 : ∃ fields, full_record = Obj fields) by (by eexists).
  assert (H2 : @writable demo_constants (calm "t") both_tools_state).
  { apply demo_writable. by vm_compute. }
  assert (H3 : @patch_read_on demo_constants
                 (@toml_to_write demo_constants (calm "t")
                    (@existing_table demo_constants (calm "t") both_tools_state)
                    full_record)
                 (both_tools_state !! @ZCF_CONFIG_FILE demo_constants)).
  { change (both_tools_state !! @ZCF_CONFIG_FILE demo_constants)
      with (Some (File (TomlText both_tools_text both_tools_document))).
    apply @patch_read_on_exact. vm_compute. reflexivity. }
  split; [exact H1|]. split; [exact H2|]. split; [exact H3|]. split; [reflexivity|].
  split; [exact demo_no_empty_tool|].
  destruct (@written_flags_follow_the_current_tool demo_constants (calm "t")
              full_record both_tools_state H1 H2 H3 eq_refl demo_no_empty_tool)
    as (s1 & text & table & tool & Hrun & Hs1 & Htool & _ & Hcc & Hcx & _).
  exists s1, text, table, tool.
  split; [exact Hrun|]. split; [exact Hs1|]. split; [exact Htool|].
  split; [exact Hcc|exact Hcx].
Defined.

Lemma demo_language_update :
  is_patch (get (Obj language_update) "general")
  ∧ is_patch (get (Obj language_update) "claudeCode")
  ∧ is_patch (get (Obj language_update) "codex").
Proof.
  split; [by apply patch_of_one|]. split; [by apply patch_of_one|]. by left.
Qed.



Lemma updateTomlConfig_starts_from_defaults_witness :
  let path := "/home/u/.ufomiao/zcf/config.toml" in
  @writable_at demo_constants (calm "t") path garbled_state
  ∧ (∃ c, garbled_state !! path = Some (File c)
          ∧ ∀ text table, c ≠ TomlText text table)
  ∧ is_patch (get (Obj language_update) "general")
  ∧ is_patch (get (Obj language_update) "claudeCode")
  ∧ is_patch (get (Obj language_update) "codex")
  ∧ ∃ config s',
      @updateTomlConfig demo_constants (calm "t") path (Obj language_update)
        garbled_state = (Ok config, s')
      ∧ s' !! path = Some (File (@stringifyToml demo_constants config))
      ∧ get config "version" = Str "1.0.0"
      ∧ get config "lastUpdated" = Str "t".
Proof.
  intros path.
  assert (H1 : @writable_at demo_constants (calm "t") path garbled_state).
  { apply demo_writable_at. by vm_compute. }
  assert (H2 : ∃ c, garbled_state !! path = Some (File c)
                    ∧ ∀ text table, c ≠ TomlText text table).
  { exists (RawText (JsText.lit "[general")). split; [reflexivity|done]. }
  destruct demo_language_update as (H4 & H5 & H6).
  split; [exact H1|]. split; [exact H2|].
  split; [exact H4|]. split; [exact H5|]. split; [exact H6|].
  destruct (@updateTomlConfig_starts_from_defaults demo_constants (calm "t") path
              language_update garbled_state H1 (or_intror H2) H4 H5 H6)
    as (config & s' & Hrun & Hs' & _ & Hver & Hlast).
  exists config, s'. split; [exact Hrun|]. split; [exact Hs'|].
  split; [exact Hver|exact Hlast].
Defined.

End StoreApiFacts.
(* ===================================================================== *)
(** * The output styles                                                  *)
(* ===================================================================== *)

Module OutputStylesFacts.
Import Js Store StoreApi OutputStyles StoreFacts StoreApiFacts.
Local Open Scope string_scope.

(** ** The output styles *)

Section StyleFacts.
Context `{Constants} `{Host}.

(** The styles that have a file are the six custom ones, and the file of
    each is its name with the extension [.md]. *)
Lemma custom_file_some styleId path :
  custom_file styleId = Some path →
  styleId ∈ map id (filter (fun style => isCustom style = true) OUTPUT_STYLES)
  ∧ path = styleId +:+ ".md".
Proof.
  unfold custom_file, find_style, OUTPUT_STYLES. cbn [List.find id].
  repeat match goal with
         | |- context [String.eqb ?a styleId] =>
             let E := fresh "E" in
             destruct (String.eqb a styleId) eqn:E;
             [apply String.eqb_eq in E as <-; cbn;
              first [done|intros [= <-]; split; [in_list|reflexivity]]|]
         end.
  done.
Qed.

Lemma copy_each_skips lang selectedStyles (s : fs) :
  (∀ styleId, styleId ∈ selectedStyles → custom_file styleId = None) →
  copy_each lang selectedStyles s = (Ok (), s).
Proof.
  induction selectedStyles as [|styleId rest IH]; intros Hnone; [done|].
  cbn [copy_each]. rewrite (Hnone styleId) by (by left).
  apply IH. intros x Hx. apply Hnone. by right.
Qed.

(** X15.  [copyOutputStyles] copies nothing for a style that is not one of
    the custom styles: for a selection of built-in or unknown names it only
    makes sure that the directory of the output styles exists, whatever
    [copyFile] does. *)
Theorem copyOutputStyles_skips_other_styles e selectedStyles lang (s : fs) :
  (∀ styleId, styleId ∈ selectedStyles →
     styleId ∉ map id (filter (fun style => isCustom style = true) OUTPUT_STYLES)) →
  copyOutputStyles e selectedStyles lang s = ensureDir e outputStylesDir s.
Proof.
  intros Hother. unfold copyOutputStyles, bind.
  destruct (ensureDir e outputStylesDir s) as [[[]|err] s0]; [|done].
  apply copy_each_skips. intros styleId Hin.
  destruct (custom_file styleId) as [path|] eqn:E; [|done].
  apply custom_file_some in E as [Hcustom _]. by destruct (Hother styleId Hin).
Qed.

(** ** The legacy files of the personality *)

Lemma some_exists_false filenames (s s' : fs) :
  some_exists filenames s = (Ok false, s') →
  s' = s ∧ ∀ filename, filename ∈ filenames → s !! join [CLAUDE_DIR; filename] = None.
Proof.
  induction filenames as [|filename rest IH]; cbn [some_exists].
  - intros [= <-]. split; [done|]. intros f Hf. by apply elem_of_nil in Hf.
  - unfold bind, existsSync. case_bool_decide as Hp; [done|].
    intros Hrest. destruct (IH Hrest) as [-> Hnone]. split; [done|].
    intros f [->|Hf]%elem_of_cons; [|by apply Hnone].
    by apply eq_None_not_Some.
Qed.

Lemma some_exists_absent filenames (s : fs) :
  (∀ filename, filename ∈ filenames → s !! join [CLAUDE_DIR; filename] = None) →
  some_exists filenames s = (Ok false, s).
Proof.
  induction filenames as [|filename rest IH]; intros Hnone; [done|].
  cbn [some_exists]. unfold bind, existsSync.
  rewrite bool_decide_eq_false_2.
  - apply IH. intros f Hf. apply Hnone. by right.
  - rewrite (Hnone filename) by (by left). by intros [? ?].
Qed.

Lemma remove_existing_absent filenames (s : fs) :
  (∀ filename, filename ∈ filenames → s !! join [CLAUDE_DIR; filename] = None) →
  remove_existing filenames s = (Ok (), s).
Proof.
  induction filenames as [|filename rest IH]; intros Hnone; [done|].
  cbn [remove_existing]. unfold bind at 1, existsSync.
  rewrite bool_decide_eq_false_2.
  - unfold bind. cbn [ret]. apply IH. intros f Hf. apply Hnone. by right.
  - rewrite (Hnone filename) by (by left). by intros [? ?].
Qed.

(** X16.  When [hasLegacyPersonalityFiles] answers no, the cleanup calls
    [removeFile] for no path and leaves the file system as it is, whatever
    [removeFile] does. *)
Theorem cleanup_without_legacy_files (s s' : fs) :
  hasLegacyPersonalityFiles s = (Ok false, s') →
  cleanupLegacyPersonalityFiles s = (Ok (), s).
Proof.
  intros Hno. apply some_exists_false in Hno as [_ Hnone].
  by apply remove_existing_absent.
Qed.

Lemma remove_existing_deletes filenames : ∀ s : fs,
  removes_files →
  remove_existing filenames s
  = (Ok (),
     foldl (fun m p => delete p m) s
           (map (fun filename => join [CLAUDE_DIR; filename]) filenames)).
Proof.
  induction filenames as [|filename rest IH]; intros s Hrm; [done|].
  cbn [remove_existing map foldl]. unfold bind at 1, existsSync.
  case_bool_decide as Hp.
  - unfold bind at 1. rewrite (Hrm _ _ Hp). by apply IH.
  - unfold bind at 1. cbn [ret]. rewrite IH by done.
    rewrite delete_id; [done|]. by apply eq_None_not_Some.
Qed.

(** X17.  Where [removeFile] removes the file it is given, the cleanup
    returns, no legacy file of the personality is left, so that
    [hasLegacyPersonalityFiles] then answers no, and every other path is as
    it was. *)
Theorem cleanup_removes_legacy_files (s : fs) :
  removes_files →
  ∃ s',
    cleanupLegacyPersonalityFiles s = (Ok (), s')
    ∧ hasLegacyPersonalityFiles s' = (Ok false, s')
    ∧ (∀ p, p ∈ legacy_paths → s' !! p = None)
    ∧ (∀ p, p ∉ legacy_paths → s' !! p = s !! p).
Proof.
  intros Hrm. unfold cleanupLegacyPersonalityFiles.
  rewrite remove_existing_deletes by done.
  eexists. split; [done|].
  assert (Hgone : ∀ p, p ∈ legacy_paths →
            foldl (fun m p => delete p m) s
              (map (fun filename => join [CLAUDE_DIR; filename]) LEGACY_FILES) !! p
            = None).
  { intros p Hp. rewrite lookup_delete_each. by rewrite decide_True. }
  split; [|split; [exact Hgone|]].
  - apply some_exists_absent. intros filename Hf. apply Hgone.
    unfold legacy_paths. apply list_elem_of_fmap. by exists filename.
  - intros p Hp. rewrite lookup_delete_each. by rewrite decide_False.
Qed.

(** ** The default output style of the settings *)

Lemma lookup_field_filter k k' fields :
  lookup_field k' (filter (fun kv : string * value => kv.1 ≠ k) fields)
  = if String.eqb k' k then Undefined else lookup_field k' fields.
Proof.
  induction fields as [|[k0 v0] fields IH].
  - by destruct (String.eqb k' k).
  - rewrite filter_cons. cbn [fst]. destruct (decide (k0 ≠ k)) as [Hne|Heq].
    + cbn [lookup_field]. destruct (String.eqb k' k0) eqn:E; [|done].
      apply String.eqb_eq in E as ->. by rewrite (proj2 (String.eqb_neq _ _) Hne).
    + apply dec_stable in Heq as ->. rewrite IH. cbn [lookup_field].
      by destruct (String.eqb k' k).
Qed.

Lemma settings_or_empty v :
  v = Null ∨ is_table v → table_or_absent (or_else v (Obj [])) ∧
  ∀ k, get (or_else v (Obj [])) k = get v k.
Proof.
  intros [->|(fields & -> & Hnd)].
  - split; [|done]. right. eexists. split; [done|]. constructor.
  - split; [|done]. right. by eexists.
Qed.

(** X18.  Where [writeJsonConfig] stores what [readJsonConfig] reads back,
    setting the default output style stores the style under [outputStyle]
    and keeps every other setting as it was; settings that are missing or
    do not parse count as empty. *)
Theorem default_style_is_stored e styleId (s s' : fs) :
  stores_json e →
  settings_on_disk e s = Null ∨ is_table (settings_on_disk e s) →
  setGlobalDefaultOutputStyle e styleId s = (Ok (), s') →
  get (settings_on_disk e s') "outputStyle" = Str styleId
  ∧ ∀ k, k ≠ "outputStyle" →
         get (settings_on_disk e s') k = get (settings_on_disk e s) k.
Proof.
  intros Hstore Hold. unfold setGlobalDefaultOutputStyle, bind, readJsonConfig.
  fold (settings_on_disk e s). intros Hrun.
  unfold settings_on_disk at 1 2. rewrite (Hstore _ _ _ _ Hrun).
  destruct (settings_or_empty _ Hold) as [Htab Hget].
  assert (Hone : table_or_absent (Obj [("outputStyle", Str styleId)])).
  { right. eexists. split; [done|]. apply NoDup_singleton. }
  split.
  - by rewrite spread_both_get.
  - intros k Hk. rewrite spread_both_get by done. unfold patches.
    rewrite bool_decide_eq_false_2; [apply Hget|].
    by intros ->%list_elem_of_singleton.
Qed.

(** X19.  Where [writeJsonConfig] stores what [readJsonConfig] reads back,
    clearing the default output style removes the key [outputStyle] and
    keeps every other setting as it was. *)
Theorem default_style_is_cleared e (s s' : fs) :
  stores_json e →
  settings_on_disk e s = Null ∨ is_table (settings_on_disk e s) →
  clearGlobalOutputStyle e s = (Ok (), s') →
  get (settings_on_disk e s') "outputStyle" = Undefined
  ∧ ∀ k, k ≠ "outputStyle" →
         get (settings_on_disk e s') k = get (settings_on_disk e s) k.
Proof.
  intros Hstore Hold. unfold clearGlobalOutputStyle, bind, readJsonConfig.
  fold (settings_on_disk e s). intros Hrun.
  unfold settings_on_disk at 1 2. rewrite (Hstore _ _ _ _ Hrun).
  destruct (settings_or_empty _ Hold) as [Htab Hget].
  unfold rest_without. cbn [get]. split.
  - by rewrite lookup_field_filter, eqb_string_refl.
  - intros k Hk. rewrite lookup_field_filter.
    rewrite (proj2 (String.eqb_neq _ _) Hk).
    rewrite own_properties_get by done. apply Hget.
Qed.

End StyleFacts.

Lemma copyOutputStyles_skips_other_styles_witness :
  (∀ styleId, styleId ∈ ["default"; "my-style"] →
     styleId ∉ map id (filter (fun style => isCustom style = true) OUTPUT_STYLES))
  ∧ @copyOutputStyles demo_constants demo_host (calm "t") ["default"; "my-style"]
      "zh-CN" ∅
    = ensureDir (calm "t") (@outputStylesDir demo_host) ∅.
Proof.
  assert (H1 : ∀ styleId, styleId ∈ ["default"; "my-style"] →
            styleId ∉ map id (filter (fun style => isCustom style = true)
                                OUTPUT_STYLES)).
  { intros styleId Hin.
    repeat (apply elem_of_cons in Hin as [->|Hin];
            [intros Hc; vm_compute in Hc; not_in_list Hc|]).
    by apply elem_of_nil in Hin. }
  split; [exact H1|].
  exact (@copyOutputStyles_skips_other_styles demo_constants demo_host (calm "t")
           ["default"; "my-style"] "zh-CN" ∅ H1).
Defined.

Lemma cleanup_without_legacy_files_witness :
  @hasLegacyPersonalityFiles demo_host ∅ = (Ok false, ∅)
  ∧ @cleanupLegacyPersonalityFiles demo_host ∅ = (Ok (), ∅).
Proof.
  split; [reflexivity|].
  exact (@cleanup_without_legacy_files demo_host ∅ ∅ eq_refl).
Defined.

Lemma demo_removes_files : @removes_files demo_host.
Proof. by intros path s _. Qed.

Lemma cleanup_removes_legacy_files_witness :
  @removes_files demo_host
  ∧ ∃ s',
      @cleanupLegacyPersonalityFiles demo_host personality_state = (Ok (), s')
      ∧ @hasLegacyPersonalityFiles demo_host s' = (Ok false, s')
      ∧ s' !! "/home/u/.claude/rules.md" = None
      ∧ s' !! "/home/u/.claude/settings.json"
        = personality_state !! "/home/u/.claude/settings.json".
Proof.
  split; [exact demo_removes_files|].
  destruct (@cleanup_removes_legacy_files demo_host personality_state
              demo_removes_files) as (s' & Hrun & Hno & Hgone & Hkept).
  exists s'. split; [exact Hrun|]. split; [exact Hno|]. split.
  - apply Hgone. vm_compute. in_list.
  - apply Hkept. intros Hin. vm_compute in Hin. not_in_list Hin.
Defined.

Lemma demo_stores_json : @stores_json demo_host (calm "t").
Proof.
  intros path v s s' [= <-]. unfold json_at. cbn. by rewrite lookup_insert_eq.
Qed.

Lemma demo_settings :
  is_table (@settings_on_disk demo_host (calm "t") personality_state).
Proof. eexists. split; [reflexivity|]. by apply NoDup_keys. Qed.

Lemma default_style_is_stored_witness :
  @stores_json demo_host (calm "t")
  ∧ is_table (@settings_on_disk demo_host (calm "t") personality_state)
  ∧ ∃ s',
      @setGlobalDefaultOutputStyle demo_host (calm "t") "nekomata-engineer"
        personality_state = (Ok (), s')
      ∧ get (@settings_on_disk demo_host (calm "t") s') "outputStyle"
        = Str "nekomata-engineer"
      ∧ get (@settings_on_disk demo_host (calm "t") s') "model" = Str "opus".
Proof.
  split; [exact demo_stores_json|]. split; [exact demo_settings|].
  set (run := @setGlobalDefaultOutputStyle demo_host (calm "t") "nekomata-engineer"
                personality_state).
  assert (Hrun : run = (Ok (), run.2)) by reflexivity.
  exists run.2. split; [exact Hrun|].
  destruct (@default_style_is_stored demo_host (calm "t") "nekomata-engineer"
              personality_state run.2 demo_stores_json (or_intror demo_settings)
              Hrun)
    as [Hstyle Hother].
  split; [exact Hstyle|]. exact (Hother "model" ltac:(done)).
Defined.

Lemma default_style_is_cleared_witness :
  @stores_json demo_host (calm "t")
  ∧ is_table (@settings_on_disk demo_host (calm "t") personality_state)
  ∧ ∃ s',
      @clearGlobalOutputStyle demo_host (calm "t") personality_state = (Ok (), s')
      ∧ get (@settings_on_disk demo_host (calm "t") s') "outputStyle" = Undefined
      ∧ get (@settings_on_disk demo_host (calm "t") s') "model" = Str "opus".
Proof.
  split; [exact demo_stores_json|]. split; [exact demo_settings|].
  set (run := @clearGlobalOutputStyle demo_host (calm "t") personality_state).
  assert (Hrun : run = (Ok (), run.2)) by reflexivity.
  exists run.2. split; [exact Hrun|].
  destruct (@default_style_is_cleared demo_host (calm "t")
              personality_state run.2 demo_stores_json (or_intror demo_settings)
              Hrun)
    as [Hstyle Hother].
  split; [exact Hstyle|]. exact (Hother "model" ltac:(done)).
Defined.

(** ** The styles that are installed *)

Section CopyFacts.
Context `{Constants} `{Host}.

(** The file of a custom style is its name with the extension [.md]. *)
Lemma custom_file_custom styleId :
  styleId ∈ map id (filter (fun style => isCustom style = true) OUTPUT_STYLES) →
  custom_file styleId = Some (styleId +:+ ".md").
Proof.
  intros Hin. vm_compute in Hin.
  repeat (apply elem_of_cons in Hin as [->|Hin]; [reflexivity|]).
  by apply elem_of_nil in Hin.
Qed.

Lemma copy_each_installs lang selectedStyles : ∀ s : fs,
  copies_files → separate_paths lang →
  (∀ p, s !! template_path lang p ≠ Some Dir) →
  ∃ s',
    copy_each lang selectedStyles s = (Ok (), s')
    ∧ (∀ p, (∀ q, p ≠ installed_path q) → s' !! p = s !! p)
    ∧ (∀ path, s' !! installed_path path = s !! installed_path path
               ∨ ∃ c, s !! template_path lang path = Some (File c)
                      ∧ s' !! installed_path path = Some (File c))
    ∧ (∀ styleId path c,
         styleId ∈ selectedStyles → custom_file styleId = Some path →
         s !! template_path lang path = Some (File c) →
         s' !! installed_path path = Some (File c)).
Proof.
  induction selectedStyles as [|x rest IH]; intros s Hcp Hsep Hfiles.
  - exists s. split; [done|]. split; [done|]. split; [by left|].
    intros styleId path c Hin. by apply elem_of_nil in Hin.
  - destruct Hsep as (Hti & Htd & Hinj). cbn [copy_each].
    destruct (custom_file x) as [path|] eqn:Ex.
    2: { destruct (IH s Hcp (conj Hti (conj Htd Hinj)) Hfiles)
           as (s' & Hrun & Hframe & Hor & Hin).
         exists s'. split; [done|]. split; [done|]. split; [done|].
         intros styleId path c [->|Hs]%elem_of_cons Hc; [congruence|].
         by apply (Hin styleId). }
    fold (template_path lang path). fold (installed_path path).
    unfold bind at 1, existsSync.
    destruct (s !! template_path lang path) as [[c|]|] eqn:Et.
    + rewrite bool_decide_eq_true_2 by eauto. unfold bind at 1.
      rewrite (Hcp _ _ c s Et).
      set (s2 := <[installed_path path := File c]> s).
      assert (Htpl : ∀ p, s2 !! template_path lang p = s !! template_path lang p).
      { intros p. unfold s2. by rewrite lookup_insert_ne. }
      destruct (IH s2 Hcp (conj Hti (conj Htd Hinj)))
        as (s' & Hrun & Hframe & Hor & Hin).
      { intros p. rewrite Htpl. apply Hfiles. }
      assert (Hor' : ∀ q, s' !! installed_path q = s !! installed_path q
                ∨ ∃ c', s !! template_path lang q = Some (File c')
                        ∧ s' !! installed_path q = Some (File c')).
      { intros q. destruct (Hor q) as [Hq|(c' & Hq1 & Hq2)].
        - destruct (decide (installed_path q = installed_path path)) as [Heq|Hne].
          + right. exists c. apply Hinj in Heq as ->. split; [done|].
            rewrite Hq. unfold s2. by rewrite lookup_insert_eq.
          + left. rewrite Hq. unfold s2. by rewrite lookup_insert_ne.
        - right. exists c'. by rewrite <- Htpl. }
      exists s'. split; [done|]. split.
      { intros p Hp. rewrite Hframe by done. unfold s2.
        rewrite lookup_insert_ne; [done|]. intros Heq. by apply (Hp path). }
      split; [done|].
      intros styleId path' c' [->|Hs]%elem_of_cons Hc Hc'.
      * rewrite Ex in Hc. injection Hc as <-. rewrite Et in Hc'. injection Hc' as <-.
        destruct (Hor path) as [Hq|(c'' & Hq1 & Hq2)].
        -- rewrite Hq. unfold s2. by rewrite lookup_insert_eq.
        -- rewrite Htpl, Et in Hq1. by injection Hq1 as <-.
      * apply (Hin styleId); [done|done|]. by rewrite Htpl.
    + by destruct (Hfiles path).
    + rewrite bool_decide_eq_false_2 by (by intros [? ?]). unfold bind at 1.
      cbn [ret].
      destruct (IH s Hcp (conj Hti (conj Htd Hinj)) Hfiles)
        as (s' & Hrun & Hframe & Hor & Hin).
      exists s'. split; [done|]. split; [done|]. split; [done|].
      intros styleId path' c' [->|Hs]%elem_of_cons Hc Hc'.
      * rewrite Ex in Hc. injection Hc as <-. by rewrite Et in Hc'.
      * by apply (Hin styleId).
Qed.

(** X20.  Where [copyFile] copies a file that is there, the directory of
    the output styles can be made and the templates are apart from the
    installed files, [copyOutputStyles] returns and installs the template
    of every selected custom style that has one: the installed file holds
    what the template holds.  A path that is neither the directory nor an
    installed file is as it was. *)
Theorem copyOutputStyles_installs_selected_styles e selectedStyles lang (s : fs) :
  copies_files → separate_paths lang →
  mkdir_fails e outputStylesDir = false →
  (∀ p, s !! template_path lang p ≠ Some Dir) →
  ∃ s',
    copyOutputStyles e selectedStyles lang s = (Ok (), s')
    ∧ (∀ styleId c,
         styleId ∈ selectedStyles →
         styleId ∈ map id (filter (fun style => isCustom style = true) OUTPUT_STYLES) →
         s !! template_path lang (styleId +:+ ".md") = Some (File c) →
         s' !! installed_path (styleId +:+ ".md") = Some (File c))
    ∧ (∀ p, p ≠ outputStylesDir → (∀ q, p ≠ installed_path q) → s' !! p = s !! p).
Proof.
  intros Hcp Hsep Hmk Hfiles. unfold copyOutputStyles, bind.
  rewrite ensureDir_with_dir by done.
  pose proof Hsep as (_ & Htd & _).
  assert (Htpl : ∀ p, with_dir outputStylesDir s !! template_path lang p
                      = s !! template_path lang p).
  { intros p. by apply with_dir_lookup. }
  destruct (copy_each_installs lang selectedStyles (with_dir outputStylesDir s)
              Hcp Hsep) as (s' & Hrun & Hframe & _ & Hin).
  { intros p. rewrite Htpl. apply Hfiles. }
  exists s'. split; [done|]. split.
  - intros styleId c Hsel Hcustom Hc.
    apply (Hin styleId); [done|by apply custom_file_custom|by rewrite Htpl].
  - intros p Hp Hq. rewrite Hframe by done. by apply with_dir_lookup.
Qed.

End CopyFacts.

Lemma demo_copies_files : @copies_files demo_host.
Proof. intros src dst c s Hs. cbn. unfold copyFileSync. cbn. by rewrite Hs. Defined.

Lemma demo_separate_paths : @separate_paths demo_constants demo_host "en".
Proof.
  split; [|split].
  - intros p q. vm_compute. discriminate.
  - intros p. vm_compute. discriminate.
  - intros p q Heq. vm_compute in Heq. by simplify_eq.
Defined.

Lemma copyOutputStyles_installs_selected_styles_witness :
  @copies_files demo_host ∧ @separate_paths demo_constants demo_host "en"
  ∧ mkdir_fails (calm "t") (@outputStylesDir demo_host) = false
  ∧ (∀ p, templates_state !! @template_path demo_constants demo_host "en" p ≠ Some Dir)
  ∧ ∃ s',
      @copyOutputStyles demo_constants demo_host (calm "t")
        ["rem-engineer"; "default"] "en" templates_state = (Ok (), s')
      ∧ s' !! @installed_path demo_host "rem-engineer.md"
        = Some (File (RawText (JsText.lit "rem"))).
Proof.
  assert (Hfiles : ∀ p, templates_state !! @template_path demo_constants demo_host "en" p
                        ≠ Some Dir).
  { intros p. unfold templates_state.
    repeat (rewrite lookup_insert; case_decide; [done|]). by rewrite lookup_empty. }
  split; [exact demo_copies_files|]. split; [exact demo_separate_paths|].
  split; [reflexivity|]. split; [exact Hfiles|].
  destruct (@copyOutputStyles_installs_selected_styles demo_constants demo_host
              (calm "t") ["rem-engineer"; "default"] "en" templates_state
              demo_copies_files demo_separate_paths eq_refl Hfiles)
    as (s' & Hrun & Hin & _).
  exists s'. split; [exact Hrun|].
  apply (Hin "rem-engineer" (RawText (JsText.lit "rem"))).
  - by left.
  - vm_compute. in_list.
  - reflexivity.
Defined.

End OutputStylesFacts.
(* ===================================================================== *)
(** * The patched fields, for every document                             *)
(* ===================================================================== *)

Module FieldSearchFacts.
Import JsText TopLevel FieldSearch TopLevelFacts.
Local Open Scope N_scope.

(** ** Line terminators and the characters of the pattern *)

Lemma line_terminator_cases c :
  is_line_terminator c = true → c = 10 ∨ c = 13 ∨ c = 8232 ∨ c = 8233.
Proof.
  unfold is_line_terminator. rewrite !orb_true_iff, !N.eqb_eq. tauto.
Qed.

Lemma line_terminator_facts c :
  is_line_terminator c = true →
  (c =? EQUALS) = false ∧ is_quote c = false ∧ is_white_space c = true
  ∧ is_blank c = false ∧ (c =? HASH) = false ∧ (c =? LBRACKET) = false.
Proof.
  intros [->|[->|[->| ->]]]%line_terminator_cases; by vm_compute.
Qed.

(** ** The search, position by position *)

Lemma bol_after_cons b c A : bol_after b (c :: A) = bol_after (is_line_terminator c) A.
Proof.
  unfold bol_after. destruct A as [|c' A]; [done|]. simpl.
  destruct (last (c' :: A)) eqn:E; [done|]. by apply last_None in E.
Qed.

Lemma bol_after_app b A1 A2 :
  bol_after b (A1 ++ A2) = bol_after (bol_after b A1) A2.
Proof.
  revert b. induction A1 as [|c A1 IH]; intros b; [done|].
  cbn [app]. by rewrite !bol_after_cons, IH.
Qed.

Lemma bol_after_snoc b A c : bol_after b (A ++ [c]) = is_line_terminator c.
Proof. by rewrite bol_after_app. Qed.

Lemma quiet_app key b A1 A2 Z :
  quiet key b (A1 ++ A2) Z
  ↔ quiet key b A1 (A2 ++ Z) ∧ quiet key (bol_after b A1) A2 Z.
Proof.
  revert b. induction A1 as [|c A1 IH]; intros b.
  - cbn. tauto.
  - cbn [app quiet]. rewrite IH, bol_after_cons, <- app_assoc. cbn [app]. tauto.
Qed.

Lemma quiet_weaken key b A Z : quiet key true A Z → quiet key b A Z.
Proof. destruct A as [|c A]; [done|]. cbn [quiet]. intros [Hm Hq]. split; auto. Qed.

Lemma quiet_inside key W Z :
  Forall (fun c => is_line_terminator c = false) W → quiet key false W Z.
Proof.
  induction 1 as [|c W Hc _ IH]; [done|]. cbn [quiet]. rewrite Hc. by split.
Qed.

Lemma search_quiet key b A Z i :
  quiet key b A Z →
  field_search_from key b (A ++ Z) i
  = field_search_from key (bol_after b A) Z (i + length A).
Proof.
  revert b i. induction A as [|c A IH]; intros b i Hq.
  - cbn. by rewrite Nat.add_0_r.
  - destruct Hq as [Hm Hq]. cbn [app field_search_from].
    assert ((if b then field_match_here key (c :: A ++ Z) else None) = None) as ->.
    { destruct b; [by apply Hm|done]. }
    rewrite (IH _ _ Hq), bol_after_cons. cbn [length]. f_equal. lia.
Qed.

Lemma search_found key s : ∀ b i p len,
  field_search_from key b s i = Some (p, len) →
  ∃ A Z, s = A ++ Z ∧ p = (i + length A)%nat ∧ quiet key b A Z
         ∧ bol_after b A = true ∧ field_match_here key Z = Some len.
Proof.
  induction s as [|c s IH]; intros b i p len Hs.
  - cbn [field_search_from] in Hs. destruct b; [|done].
    destruct (field_match_here key []) as [l|] eqn:E; [|done].
    injection Hs as <- <-. exists [], []. rewrite Nat.add_0_r. done.
  - cbn [field_search_from] in Hs.
    destruct (if b then field_match_here key (c :: s) else None) as [l|] eqn:E.
    + injection Hs as <- <-. destruct b; [|done].
      exists [], (c :: s). rewrite Nat.add_0_r. done.
    + destruct (IH _ _ _ _ Hs) as (A & Z & -> & -> & Hq & Hb & Hm).
      exists (c :: A), Z. rewrite bol_after_cons. cbn [length quiet app].
      split; [done|]. split; [lia|]. split; [|done].
      split; [|done]. intros ->. exact E.
Qed.

Lemma search_missing key s : ∀ b i,
  field_search_from key b s i = None → quiet key b s [].
Proof.
  induction s as [|c s IH]; intros b i Hs; [done|].
  cbn [field_search_from] in Hs.
  destruct (if b then field_match_here key (c :: s) else None) as [l|] eqn:E;
    [done|].
  cbn [quiet]. rewrite app_nil_r. split; [by intros ->|]. by eapply IH.
Qed.

Lemma search_at key A Z len :
  quiet key true A Z → bol_after true A = true →
  field_match_here key Z = Some len →
  field_search key (A ++ Z) = Some (length A, len).
Proof.
  intros Hq Hb Hm. unfold field_search. rewrite search_quiet by done.
  rewrite Hb. destruct Z; cbn [field_search_from]; by rewrite Hm.
Qed.

(** ** The pattern across a line boundary *)

Lemma bol_after_tail b c s : bol_after b (c :: s) = true → bol_after true s = true.
Proof.
  rewrite bol_after_cons. unfold bol_after. by destruct (last s).
Qed.

(** Case analysis on the tests of one step of the automaton. *)
Ltac step_cases :=
  repeat match goal with
         | |- context [if ?b then _ else _] => destruct b eqn:?
         end.

(** The side condition of a step: a text that ends here ends with a line
    terminator, which no test of the pattern consumes towards the tail. *)
Ltac last_is_terminator Hb :=
  intros ->; rewrite bol_after_cons in Hb; cbn in Hb;
  destruct (line_terminator_facts _ Hb) as (? & ? & ? & ? & ? & ?);
  first [reflexivity|congruence].

(** A failed run stays failed when the text after a line boundary is
    replaced by a blocking one. *)
Lemma run_cross Z Z' s : ∀ q n,
  blocking Z' → bol_after true s = true → (s = [] → before_quote q = true) →
  field_run q (s ++ Z) n = None → field_run q (s ++ Z') n = None.
Proof.
  induction s as [|c s IH]; intros q n HZ' Hb Hq.
  - intros _. apply HZ'. by apply Hq.
  - pose proof (bol_after_tail _ _ _ Hb) as Hb'.
    destruct q; cbn [app field_run]; step_cases; try done;
      apply IH; try done; last_is_terminator Hb.
Qed.

(** Between two blocking texts the run is the same, and a match ends
    before the boundary. *)
Lemma run_cross_eq Z Z' s : ∀ q n,
  blocking Z → blocking Z' → bol_after true s = true →
  (s = [] → before_quote q = true) →
  field_run q (s ++ Z') n = field_run q (s ++ Z) n.
Proof.
  induction s as [|c s IH]; intros q n HZ HZ' Hb Hq.
  - cbn [app]. rewrite HZ, HZ' by (by apply Hq). done.
  - pose proof (bol_after_tail _ _ _ Hb) as Hb'.
    destruct q; cbn [app field_run]; step_cases; try done;
      apply IH; try done; last_is_terminator Hb.
Qed.

Lemma run_within Z s : ∀ q n m,
  blocking Z → bol_after true s = true → (s = [] → before_quote q = true) →
  field_run q (s ++ Z) n = Some m → (m < n + length s)%nat.
Proof.
  induction s as [|c s IH]; intros q n m HZ Hb Hq.
  - cbn [app]. by rewrite HZ by (by apply Hq).
  - pose proof (bol_after_tail _ _ _ Hb) as Hb'.
    destruct q; cbn [app field_run length]; step_cases; try done;
      try (intros [= <-]; lia);
      (intros Hrun; eapply (IH _ _ _ HZ Hb') in Hrun;
       [lia|last_is_terminator Hb]).
Qed.

(** Where a match ends. *)
Lemma run_end s : ∀ q n m,
  field_run q s n = Some m →
  (n ≤ m)%nat ∧ (m - n ≤ length s)%nat ∧ eol (drop (m - n) s).
Proof.
  induction s as [|c s IH]; intros q n m.
  - destruct q; cbn [field_run]; try done; intros [= <-];
      rewrite Nat.sub_diag; cbn; (split; [lia|split; [lia|done]]).
  - destruct q; cbn [field_run length]; step_cases; try done;
      try (intros [= <-]; rewrite Nat.sub_diag; cbn [drop eol];
           (split; [lia|split; [lia|done]]));
      (intros Hrun; apply IH in Hrun as (Hle & Hlen & Heol);
       replace (m - n)%nat with (S (m - S n)) by lia; cbn [drop];
       (split; [lia|split; [lia|done]])).
Qed.

Lemma strip_key_drop key : ∀ s s',
  strip_key key s = Some s' →
  s' = drop (length key) s ∧ (length key ≤ length s)%nat.
Proof.
  induction key as [|k key IH]; intros s s'.
  - intros [= <-]. cbn. split; [done|lia].
  - destruct s as [|c s]; [done|]. cbn [strip_key length drop].
    destruct (k =? c); [|done]. intros Hs. apply IH in Hs as [-> ?].
    split; [done|lia].
Qed.

Lemma match_end key s len :
  field_match_here key s = Some len →
  (length key ≤ len)%nat ∧ (len ≤ length s)%nat ∧ eol (drop len s).
Proof.
  unfold field_match_here. destruct (strip_key key s) as [s'|] eqn:E; [|done].
  apply strip_key_drop in E as [-> Hk]. intros Hrun.
  apply run_end in Hrun as (Hle & Hlen & Heol).
  rewrite length_drop in Hlen. rewrite drop_drop in Heol.
  replace (length key + (len - length key))%nat with len in Heol by lia.
  split; [done|]. split; [lia|done].
Qed.

(** The key does not cross a line boundary. *)
Lemma strip_key_cross key : ∀ s Z,
  Forall (fun c => is_line_terminator c = false) key →
  s ≠ [] → bol_after true s = true →
  strip_key key (s ++ Z) = None
  ∨ ∃ s', strip_key key (s ++ Z) = Some (s' ++ Z)
          ∧ (∀ Z', strip_key key (s ++ Z') = Some (s' ++ Z'))
          ∧ s' ≠ [] ∧ bol_after true s' = true
          ∧ (length s = length key + length s')%nat.
Proof.
  induction key as [|k key IH]; intros s Z Hkey Hs Hb.
  - right. exists s. by cbn.
  - destruct s as [|c s]; [done|]. cbn [app strip_key].
    apply Forall_cons in Hkey as [Hk Hkey].
    destruct (k =? c) eqn:E; [|by left]. apply N.eqb_eq in E as <-.
    destruct s as [|c' s].
    { cbn in Hb. congruence. }
    destruct (IH (c' :: s) Z Hkey ltac:(done) (bol_after_tail _ _ _ Hb))
      as [Hnone|(s' & Hsome & Hall & Hne & Hb' & Hlen)].
    + left. exact Hnone.
    + right. exists s'. split; [exact Hsome|]. split; [|split; [done|]].
      * intros Z'. cbn [app strip_key]. rewrite ?N.eqb_refl. apply Hall.
      * split; [done|]. cbn [length] in *. lia.
Qed.

Lemma strip_key_cross_none key s Z Z' :
  Forall (fun c => is_line_terminator c = false) key →
  s ≠ [] → bol_after true s = true →
  strip_key key (s ++ Z) = None → strip_key key (s ++ Z') = None.
Proof.
  revert s. induction key as [|k key IH]; intros s Hkey Hs Hb; [done|].
  destruct s as [|c s]; [done|]. cbn [app strip_key].
  apply Forall_cons in Hkey as [Hk Hkey].
  destruct (k =? c) eqn:E; [|done]. apply N.eqb_eq in E as <-.
  destruct s as [|c' s].
  { cbn in Hb. congruence. }
  apply IH; [done|done|]. by eapply bol_after_tail.
Qed.

(** A failed attempt stays failed when the text after a line boundary is
    replaced by a blocking one. *)
Lemma match_cross key s Z Z' :
  Forall (fun c => is_line_terminator c = false) key →
  blocking Z' → s ≠ [] → bol_after true s = true →
  field_match_here key (s ++ Z) = None → field_match_here key (s ++ Z') = None.
Proof.
  intros Hkey HZ' Hs Hb. unfold field_match_here.
  destruct (strip_key_cross key s Z Hkey Hs Hb)
    as [Hnone|(s' & Hsome & Hall & Hne & Hb' & _)].
  - by rewrite Hnone, (strip_key_cross_none key s Z Z').
  - rewrite Hsome, Hall. by apply run_cross.
Qed.

(** An attempt that succeeds before a blocking text ends before it, and
    does not depend on what follows the boundary. *)
Lemma match_within key s Z len :
  Forall (fun c => is_line_terminator c = false) key →
  blocking Z → s ≠ [] → bol_after true s = true →
  field_match_here key (s ++ Z) = Some len →
  (len < length s)%nat ∧ ∀ Z', blocking Z' → field_match_here key (s ++ Z') = Some len.
Proof.
  intros Hkey HZ Hs Hb. unfold field_match_here.
  destruct (strip_key_cross key s Z Hkey Hs Hb)
    as [Hnone|(s' & Hsome & Hall & Hne & Hb' & Hlen)].
  - by rewrite Hnone.
  - rewrite Hsome. intros Hrun. split.
    + apply run_within in Hrun; [lia|done|done|done].
    + intros Z' HZ'. rewrite Hall, <- Hrun. by apply run_cross_eq.
Qed.

Lemma quiet_cross key b A Z Z' :
  Forall (fun c => is_line_terminator c = false) key →
  blocking Z' → bol_after true A = true →
  quiet key b A Z → quiet key b A Z'.
Proof.
  intros Hkey HZ'. revert b. induction A as [|c A IH]; intros b Hb; [done|].
  cbn [quiet]. intros [Hm Hq]. split.
  - intros Hbt. change (c :: A ++ Z') with ((c :: A) ++ Z').
    eapply match_cross; [done|done|done|done|]. by apply Hm.
  - apply IH; [|done]. by eapply bol_after_tail.
Qed.

(** ** A final line feed *)

Lemma run_snoc_nl s : ∀ q n, field_run q (s ++ [NL]) n = field_run q s n.
Proof.
  induction s as [|c s IH]; intros q n.
  - by destruct q.
  - destruct q; cbn [app field_run]; step_cases; try done; apply IH.
Qed.

Lemma match_snoc_nl key s :
  NL ∉ key → field_match_here key (s ++ [NL]) = field_match_here key s.
Proof.
  intros Hkey. unfold field_match_here.
  assert (Hstrip : ∀ key s, NL ∉ key →
            strip_key key (s ++ [NL]) = option_map (fun r => r ++ [NL]) (strip_key key s)).
  { clear. induction key as [|k key IH]; intros s Hk; [done|].
    destruct s as [|c s]; cbn [app strip_key].
    - destruct (k =? NL) eqn:E; [|done]. apply N.eqb_eq in E as ->.
      exfalso. apply Hk. by left.
    - destruct (k =? c); [|done]. apply IH. intros Hin. apply Hk. by right. }
  rewrite Hstrip by done. destruct (strip_key key s) as [r|]; [|done].
  apply run_snoc_nl.
Qed.

Lemma quiet_snoc_nl key b A :
  NL ∉ key → quiet key b A [] → quiet key b A [NL].
Proof.
  intros Hkey. revert b. induction A as [|c A IH]; intros b; [done|].
  cbn [quiet]. intros [Hm Hq]. split; [|by apply IH].
  intros Hb. change (c :: A ++ [NL]) with ((c :: A) ++ [NL]).
  rewrite match_snoc_nl by done. rewrite app_nil_r in Hm. by apply Hm.
Qed.

(** ** The line of a field *)

Lemma version_line_field v : version_line v = field_line version_key v.
Proof. reflexivity. Qed.

Lemma lastUpdated_line_field t : lastUpdated_line t = field_line lastUpdated_key t.
Proof. reflexivity. Qed.

Lemma plain_version_key : plain_key version_key.
Proof.
  split; [by eexists _, _|]. repeat constructor.
Qed.

Lemma plain_lastUpdated_key : plain_key lastUpdated_key.
Proof.
  split; [by eexists _, _|]. repeat constructor.
Qed.

Lemma plain_key_no_terminator key :
  plain_key key → Forall (fun c => is_line_terminator c = false) key.
Proof. intros [_ Hk]. eapply Forall_impl; [exact Hk|]. cbn. tauto. Qed.

Lemma plain_key_no_newline key : plain_key key → NL ∉ key.
Proof.
  intros Hk%plain_key_no_terminator Hin.
  rewrite Forall_forall in Hk. by apply Hk in Hin.
Qed.

Lemma literal_value_plain v : literal_value v → plain_value v.
Proof. intros Hv. eapply Forall_impl; [exact Hv|]. cbn. tauto. Qed.

Lemma length_field_line key v :
  length (field_line key v) = (length key + length v + 5)%nat.
Proof. unfold field_line. rewrite !length_app. cbn [length lit map]. rewrite length_app. cbn. lia. Qed.

Lemma field_line_no_terminator key v :
  plain_key key → literal_value v →
  Forall (fun c => is_line_terminator c = false) (field_line key v).
Proof.
  intros Hk Hv. unfold field_line.
  apply Forall_app. split; [by apply plain_key_no_terminator|].
  apply Forall_app. split; [by repeat constructor|].
  constructor; [done|]. apply Forall_app. split; [|by repeat constructor].
  eapply Forall_impl; [exact Hv|]. cbn. tauto.
Qed.

Lemma field_line_nonempty key v : field_line key v ≠ [].
Proof. unfold field_line. destruct key; [done|done]. Qed.

Lemma bol_after_field_line b A key v : bol_after b (A ++ field_line key v) = false.
Proof.
  unfold field_line. rewrite !app_assoc.
  change (DQUOTE :: v ++ [DQUOTE]) with ([DQUOTE] ++ v ++ [DQUOTE]).
  rewrite !app_assoc. by rewrite bol_after_snoc.
Qed.

Lemma strip_key_same key : ∀ s, strip_key key (key ++ s) = Some s.
Proof.
  induction key as [|k key IH]; intros s; [done|].
  cbn [app strip_key]. by rewrite N.eqb_refl.
Qed.

Lemma run_tail_literal v Y m :
  literal_value v → field_run FTail (v ++ DQUOTE :: Y) m = None.
Proof.
  intros Hv. revert m. induction Hv as [|c v (Hq & Hlt & Hh & _) _ IH]; intros m.
  - done.
  - cbn [app field_run]. rewrite Hlt, Hh. by destruct (is_blank c).
Qed.

Lemma run_tail_eol Y m : eol Y → field_run FTail Y m = Some m.
Proof. destruct Y as [|c Y]; [done|]. cbn. by intros ->. Qed.

Lemma field_line_split key v Y :
  field_line key v ++ Y = (key ++ lit " = ") ++ DQUOTE :: v ++ DQUOTE :: Y.
Proof. unfold field_line. list_norm. cbn [app]. by list_norm. Qed.

(** The line of a field blocks every match that comes from before it. *)
Lemma field_line_blocking key v Y :
  plain_key key → literal_value v → blocking (field_line key v ++ Y).
Proof.
  intros [(k & key' & -> & He & Hw & _) Hk] Hv q n Hq.
  pose proof Hk as [(Hkq & _) _]%Forall_cons.
  destruct q; try done.
  - unfold field_line. cbn [app field_run]. by rewrite He, Hw.
  - unfold field_line. cbn [app field_run]. by rewrite Hkq, Hw.
  - rewrite field_line_split, run_value_plain.
    + by apply run_tail_literal.
    + apply Forall_app. split; [|by repeat constructor].
      eapply Forall_impl; [exact Hk|]. cbn. tauto.
Qed.

(** The pattern of a field matches the line of the field, and all of it. *)
Lemma field_line_match key v Y :
  plain_key key → literal_value v → eol Y →
  field_match_here key (field_line key v ++ Y) = Some (length (field_line key v)).
Proof.
  intros Hk Hv HY. unfold field_match_here.
  rewrite field_line_split, <- app_assoc, strip_key_same.
  change (lit " = " ++ DQUOTE :: v ++ DQUOTE :: Y)
    with (SPACE :: EQUALS :: SPACE :: DQUOTE :: v ++ DQUOTE :: Y).
  cbn [field_run].
  change (SPACE =? EQUALS) with false. change (is_white_space SPACE) with true.
  change (EQUALS =? EQUALS) with true. change (is_quote SPACE) with false.
  change (is_quote DQUOTE) with true. cbn iota.
  rewrite run_value_plain by (by apply plain_value_quote, literal_value_plain).
  rewrite run_tail_eol by done. f_equal.
  rewrite length_field_line. lia.
Qed.

Lemma version_not_lastUpdated v Y :
  field_match_here lastUpdated_key (field_line version_key v ++ Y) = None.
Proof. reflexivity. Qed.

Lemma lastUpdated_not_version t Y :
  field_match_here version_key (field_line lastUpdated_key t ++ Y) = None.
Proof. reflexivity. Qed.

Lemma quiet_line key key' v Z :
  plain_key key' → literal_value v →
  field_match_here key (field_line key' v ++ Z) = None →
  ∀ b, quiet key b (field_line key' v) Z.
Proof.
  intros Hk Hv Hm b.
  pose proof (field_line_no_terminator _ _ Hk Hv) as Hlt.
  destruct (field_line key' v) as [|c L] eqn:E; [done|].
  apply Forall_cons in Hlt as [Hc Hlt]. cbn [quiet]. rewrite Hc.
  split; [done|]. by apply quiet_inside.
Qed.

(** ** Replacement templates *)

Lemma expand_plain tpl matched before after :
  Forall (fun c => (c =? DOLLAR) = false) tpl →
  expand_replacement tpl matched before after = tpl.
Proof.
  induction 1 as [|c tpl Hc _ IH]; [done|].
  cbn [expand_replacement]. by rewrite Hc, IH.
Qed.

Lemma field_line_plain key v :
  plain_key key → literal_value v →
  Forall (fun c => (c =? DOLLAR) = false) (field_line key v).
Proof.
  intros [_ Hk] Hv. unfold field_line.
  apply Forall_app. split; [eapply Forall_impl; [exact Hk|]; cbn; tauto|].
  apply Forall_app. split; [by repeat constructor|].
  constructor; [done|]. apply Forall_app. split; [|by repeat constructor].
  eapply Forall_impl; [exact Hv|]. cbn. tauto.
Qed.

Lemma strip_field_line key v :
  strip_final_newline (field_line key v) = field_line key v.
Proof.
  unfold field_line.
  replace (key ++ lit " = " ++ DQUOTE :: v ++ [DQUOTE])
    with ((key ++ lit " = " ++ DQUOTE :: v) ++ [DQUOTE]).
  - apply strip_final_newline_quote.
  - list_norm. cbn [app]. by list_norm.
Qed.

(** ** Section markers *)

Lemma section_shift s : ∀ b i,
  section_search_from b s i = option_map (Nat.add i) (section_search_from b s 0).
Proof.
  induction s as [|c s IH]; intros b i; [done|].
  cbn [section_search_from]. destruct (b && (c =? LBRACKET)).
  - cbn. f_equal. lia.
  - rewrite (IH _ (S i)), (IH _ 1%nat).
    destruct (section_search_from (is_line_terminator c) s 0); cbn; [f_equal; lia|done].
Qed.

Lemma section_none_index b s i :
  no_section b s → section_search_from b s i = None.
Proof. unfold no_section. intros Hs. by rewrite section_shift, Hs. Qed.

Lemma no_section_cons b c s :
  no_section b (c :: s)
  ↔ b && (c =? LBRACKET) = false ∧ no_section (is_line_terminator c) s.
Proof.
  unfold no_section. cbn [section_search_from].
  destruct (b && (c =? LBRACKET)).
  - split; [done|]. by intros [? _].
  - rewrite (section_shift s _ 1).
    destruct (section_search_from (is_line_terminator c) s 0); cbn; split;
      try done; by intros [_ ?].
Qed.

Lemma no_section_app b X Y :
  no_section b (X ++ Y) ↔ no_section b X ∧ no_section (bol_after b X) Y.
Proof.
  revert b. induction X as [|c X IH]; intros b.
  - cbn. unfold no_section at 2. cbn. tauto.
  - cbn [app]. rewrite !no_section_cons, IH, bol_after_cons. tauto.
Qed.

Lemma section_search_app b X Y i :
  no_section b X →
  section_search_from b (X ++ Y) i
  = section_search_from (bol_after b X) Y (i + length X).
Proof.
  revert b i. induction X as [|c X IH]; intros b i.
  - intros _. cbn. by rewrite Nat.add_0_r.
  - intros [Hc HX]%no_section_cons. cbn [app section_search_from].
    rewrite Hc, (IH _ _ HX), bol_after_cons. cbn [length]. f_equal. lia.
Qed.

Lemma no_section_eol b b' Q : eol Q → no_section b Q → no_section b' Q.
Proof.
  destruct Q as [|c Q]; [done|]. cbn [eol]. intros Hc.
  destruct (line_terminator_facts c Hc) as (_ & _ & _ & _ & _ & Hbr).
  rewrite !no_section_cons, Hbr, !andb_false_r. tauto.
Qed.

Lemma no_section_inside W :
  Forall (fun c => is_line_terminator c = false) W → no_section false W.
Proof.
  induction 1 as [|c W Hc _ IH]; [done|].
  apply no_section_cons. by rewrite Hc.
Qed.

Lemma no_section_line key v b :
  plain_key key → literal_value v → no_section b (field_line key v).
Proof.
  intros Hk Hv. pose proof (field_line_no_terminator _ _ Hk Hv) as Hlt.
  destruct Hk as [(k & key' & -> & _ & _ & Hbr) _].
  unfold field_line in *. cbn [app] in *.
  apply Forall_cons in Hlt as [Hc Hlt].
  apply no_section_cons. rewrite Hbr, andb_false_r, Hc.
  split; [done|]. by apply no_section_inside.
Qed.

Lemma section_found s : ∀ b i p,
  section_search_from b s i = Some p →
  ∃ X Y, s = X ++ LBRACKET :: Y ∧ p = (i + length X)%nat
         ∧ no_section b X ∧ bol_after b X = true.
Proof.
  induction s as [|c s IH]; intros b i p; [done|].
  cbn [section_search_from]. destruct (b && (c =? LBRACKET)) eqn:E.
  - intros [= <-]. apply andb_true_iff in E as [-> ->%N.eqb_eq].
    exists [], s. rewrite Nat.add_0_r. done.
  - intros Hs. destruct (IH _ _ _ Hs) as (X & Y & -> & -> & HX & Hb).
    exists (c :: X), Y. rewrite bol_after_cons. cbn [length app].
    split; [done|]. split; [lia|]. split; [|done].
    by apply no_section_cons.
Qed.

(** The top-level span has no section marker, and the rest, when there is
    one, starts with the marker at the start of a line. *)
Lemma top_level_split content :
  let top := take (topLevelEnd content) content in
  let rest := drop (topLevelEnd content) content in
  no_section true top
  ∧ (rest = [] ∨ (∃ Y, rest = LBRACKET :: Y) ∧ bol_after true top = true).
Proof.
  cbv zeta. unfold topLevelEnd.
  destruct (section_search_from true content 0) as [p|] eqn:E; cbn [default].
  - destruct (section_found _ _ _ _ E) as (X & Y & -> & -> & HX & Hb).
    cbn [Nat.add]. unfold id. rewrite take_app_length, drop_app_length.
    split; [done|]. right. split; [by eexists|done].
  - unfold id. rewrite firstn_all, drop_all. split; [exact E|by left].
Qed.

Lemma topLevelEnd_app F R :
  no_section true F →
  R = [] ∨ (∃ Y, R = LBRACKET :: Y) ∧ bol_after true F = true →
  topLevelEnd (F ++ R) = length F.
Proof.
  intros HF HR. unfold topLevelEnd. rewrite section_search_app by done.
  destruct HR as [->|[[Y ->] Hb]].
  - cbn. by rewrite app_nil_r.
  - rewrite Hb. cbn. done.
Qed.

(** ** The final line feed *)

Lemma ends_with_nl s : ends_with [NL] s = true ↔ ∃ s0, s = s0 ++ [NL].
Proof.
  unfold ends_with. change (reverse [NL]) with [NL].
  destruct (reverse s) as [|c r] eqn:E.
  - split; [done|]. intros [s0 ->]. rewrite reverse_app in E. done.
  - cbn [starts_with]. rewrite andb_true_r, N.eqb_eq.
    assert (Hs : s = reverse r ++ [c]).
    { rewrite <- (reverse_involutive s), E. by rewrite reverse_cons. }
    split.
    + intros <-. by eexists.
    + intros [s0 Hs0]. rewrite Hs0 in Hs. by apply app_inj_tail in Hs as [_ ->].
Qed.

Lemma ends_with_two_nl s : ends_with [NL; NL] s = true → ends_with [NL] s = true.
Proof.
  unfold ends_with. change (reverse [NL; NL]) with [NL; NL].
  change (reverse [NL]) with [NL].
  destruct (reverse s) as [|c r]; [done|]. cbn [starts_with].
  rewrite andb_true_r. by intros [? _]%andb_true_iff.
Qed.

(** The result, as the top-level span that was patched, a line feed where
    one is called for, and the rest. *)
Lemma update_shape content v t :
  let rest := drop (topLevelEnd content) content in
  let top := patched_top content v t in
  let nl := if negb (length rest =? 0)%nat && negb (ends_with [NL] top)
            then [NL] else [] in
  updateTopLevelTomlFields content v t = (top ++ nl) ++ rest
  ∧ final_top content v t = top ++ nl.
Proof.
  intros rest top nl.
  assert (Hrun : updateTopLevelTomlFields content v t = (top ++ nl) ++ rest).
  { unfold updateTopLevelTomlFields. fold rest top. unfold nl.
    destruct (negb (length rest =? 0)%nat); cbn [andb]; [|by rewrite app_nil_r].
    destruct (ends_with [NL] top) eqn:E; cbn [negb].
    - by rewrite andb_false_r, app_nil_r.
    - destruct (ends_with [NL; NL] top) eqn:E2; [|done].
      apply ends_with_two_nl in E2. congruence. }
  split; [done|]. by eapply final_top_app.
Qed.

(** ** The steps of the patcher *)

Lemma bol_after_nonempty b b' D : D ≠ [] → bol_after b D = bol_after b' D.
Proof.
  intros HD. unfold bol_after. destruct (last D) eqn:E; [done|].
  by apply last_None in E.
Qed.

Lemma bol_after_suffix b b' X D : D ≠ [] → bol_after b (X ++ D) = bol_after b' D.
Proof. intros HD. rewrite bol_after_app. by apply bol_after_nonempty. Qed.

Lemma bol_after_inside b W :
  Forall (fun c => is_line_terminator c = false) W → W ≠ [] → bol_after b W = false.
Proof.
  intros HW Hne. destruct W as [|c W] using rev_ind; [done|].
  rewrite bol_after_snoc. apply Forall_app in HW as [_ HW]. by inversion HW.
Qed.

Lemma bol_after_line b key v : bol_after b (field_line key v) = false.
Proof. apply (bol_after_field_line b [] key v). Qed.

Lemma quiet_false key b A Z : quiet key b A Z → quiet key false A Z.
Proof. destruct A as [|c A]; [done|]. cbn [quiet]. intros [_ ?]. by split. Qed.

Lemma eol_prefix X Y : eol (X ++ Y) → X ≠ [] → eol X.
Proof. by destruct X. Qed.

Lemma eol_app X Y : eol X → X ≠ [] → eol (X ++ Y).
Proof. by destruct X. Qed.

Lemma eol_line key v Y : plain_key key → ¬ eol (field_line key v ++ Y).
Proof.
  intros [(k & key' & -> & _ & Hw & _) _]. cbn. intros Hlt.
  apply line_terminator_facts in Hlt as (_ & _ & Hw' & _). congruence.
Qed.

(** Positions before a part [k] that ends a line do not see what follows
    it. *)
Lemma quiet_cross_over key b A k Z Z' :
  Forall (fun c => is_line_terminator c = false) key →
  blocking Z' → k ≠ [] → bol_after true k = true →
  quiet key b A (k ++ Z) → quiet key b A (k ++ Z').
Proof.
  intros Hkey HZ' Hk Hb. revert b. induction A as [|c A IH]; intros b; [done|].
  cbn [quiet]. intros [Hm Hq]. split; [|by apply IH].
  intros Hbt. specialize (Hm Hbt). rewrite app_assoc in Hm |- *.
  eapply match_cross; [done|done| | |exact Hm].
  - done.
  - by rewrite (bol_after_suffix _ true).
Qed.

(** One written line for another, in the text before the first match. *)
Lemma quiet_change_line key key' v v' A K Z :
  Forall (fun c => is_line_terminator c = false) key →
  plain_key key' → literal_value v → literal_value v' →
  bol_after true A = true →
  (∀ Y, field_match_here key (field_line key' v' ++ Y) = None) →
  quiet key true (A ++ field_line key' v ++ K) Z →
  quiet key true (A ++ field_line key' v' ++ K) Z.
Proof.
  intros Hkey Hk' Hv Hv' HbA Hno.
  rewrite !quiet_app, !bol_after_line.
  intros (HA & _ & HK). split; [|split; [|done]].
  - rewrite <- app_assoc in HA |- *.
    eapply quiet_cross; [done| |done|exact HA]. by apply field_line_blocking.
  - apply quiet_line; [done|done|]. apply Hno.
Qed.

Lemma search_none key b s i :
  key ≠ [] → quiet key b s [] → field_search_from key b s i = None.
Proof.
  intros Hkey Hq. rewrite <- (app_nil_r s), search_quiet by done.
  destruct key as [|k key]; [done|]. cbn. by destruct (bol_after b s).
Qed.

(** The first match, and its replacement, where a written line is the
    first match. *)
Lemma replace_anchored key v v' A B :
  plain_key key → literal_value v → literal_value v' →
  anchored_at key (field_line key v) A B →
  field_search key (A ++ field_line key v ++ B)
  = Some (length A, length (field_line key v))
  ∧ field_replace key (field_line key v') (A ++ field_line key v ++ B)
    = A ++ field_line key v' ++ B.
Proof.
  intros Hk Hv Hv' (Hq & Hb & HB).
  assert (Hs : field_search key (A ++ field_line key v ++ B)
               = Some (length A, length (field_line key v))).
  { apply search_at; [done|done|]. by apply field_line_match. }
  split; [done|]. unfold field_replace. rewrite Hs.
  rewrite take_app_length, drop_app_add, !drop_app_length.
  by rewrite expand_plain by (by apply field_line_plain).
Qed.

Lemma anchored_text key v A B :
  plain_key key → literal_value v →
  anchored_at key (field_line key v) A B →
  field_text key (A ++ field_line key v ++ B) = Some (field_line key v).
Proof.
  intros Hk Hv Ha. destruct (replace_anchored key v v A B Hk Hv Hv Ha) as [Hs _].
  unfold field_text. by rewrite Hs, drop_app_length, take_app_length.
Qed.

(** The replacement of the first match, for every value. *)
Lemma replace_found key s i len :
  plain_key key →
  field_search key s = Some (i, len) →
  ∃ A M B,
    s = A ++ M ++ B ∧ i = length A ∧ len = length M
    ∧ quiet key true A (M ++ B) ∧ bol_after true A = true ∧ eol B
    ∧ ∀ v, literal_value v →
           field_replace key (field_line key v) s = A ++ field_line key v ++ B.
Proof.
  intros Hk Hs. pose proof Hs as Hsearch. unfold field_search in Hs.
  destruct (search_found _ _ _ _ _ _ Hs) as (A & Z & -> & -> & Hq & Hb & Hm).
  destruct (match_end _ _ _ Hm) as (_ & Hlen & Heol).
  exists A, (take len Z), (drop len Z). rewrite take_drop.
  split; [done|]. split; [done|]. split; [rewrite length_take; lia|].
  split; [done|]. split; [done|]. split; [done|]. intros v Hv.
  unfold field_replace. rewrite Hsearch. cbn [Nat.add].
  rewrite take_app_length, drop_app_add.
  by rewrite expand_plain by (by apply field_line_plain).
Qed.

(** Where [insertAtTopLevelStart] puts a line does not depend on the
    line. *)
Lemma insert_layout top :
  (∀ x, insertAtTopLevelStart top x = strip_final_newline x ++ NL :: top)
  ∨ ∃ A Y, top = A ++ Y ∧ (Y = [] ∨ ∃ B, Y = NL :: B)
           ∧ ∀ x, insertAtTopLevelStart top x = A ++ NL :: strip_final_newline x ++ Y.
Proof.
  unfold insertAtTopLevelStart.
  set (ls := split_lines top). set (k := insert_line_index ls 0 0).
  assert (Hk : (k ≤ length ls)%nat).
  { pose proof (insert_line_index_le ls 0 0). unfold k. lia. }
  assert (Hne : ls ≠ []) by apply split_lines_nonempty.
  assert (Hj : join_lines ls = top) by apply join_split_lines.
  unfold splice_in.
  destruct (decide (k = 0%nat)) as [->|Hk0].
  - left. intros x. rewrite take_0, drop_0. simpl.
    destruct ls as [|l ls']; [done|]. by rewrite Hj.
  - right. exists (join_lines (take k ls)).
    assert (Ht : take k ls ≠ []).
    { destruct ls; [done|]. destruct k; [done|]. done. }
    destruct (decide (k = length ls)) as [Hkl|Hkl].
    + exists []. rewrite Hkl, firstn_all, drop_all, !app_nil_r.
      split; [by rewrite Hj|]. split; [by left|]. intros x.
      by rewrite join_lines_app, app_nil_r.
    + exists (NL :: join_lines (drop k ls)).
      assert (Hd : drop k ls ≠ []).
      { intros E. apply (f_equal length) in E. rewrite length_drop in E.
        simpl in E. lia. }
      split.
      { rewrite <- join_lines_app by done. by rewrite take_drop. }
      split; [right; eauto|]. intros x.
      rewrite join_lines_app by done.
      change (join_lines (strip_final_newline x :: drop k ls))
        with (join_lines ([strip_final_newline x] ++ drop k ls)).
      rewrite join_lines_app by done. done.
Qed.

(** After the version step the version line is the first match of the
    version pattern, between two parts of the text that do not depend on
    the value. *)
Lemma patch_version_layout top :
  no_section true top →
  ∃ A B,
    eol B ∧ no_section true A ∧ no_section true B
    ∧ ∀ v, literal_value v →
        patch_version top v = A ++ field_line version_key v ++ B
        ∧ anchored_at version_key (field_line version_key v) A B.
Proof.
  intros Hsec. pose proof plain_version_key as Hk.
  pose proof (plain_key_no_terminator _ Hk) as Hlt.
  unfold patch_version.
  destruct (field_search version_key top) as [[i len]|] eqn:Hs.
  - destruct (replace_found _ _ _ _ Hk Hs)
      as (A & M & B & -> & -> & -> & Hq & Hb & HB & Hrep).
    apply no_section_app in Hsec as [HsA [_ HsB]%no_section_app].
    exists A, B. split; [done|]. split; [done|].
    split; [by eapply no_section_eol|]. intros v Hv.
    split; [by apply Hrep|]. split; [|done].
    eapply quiet_cross; [done| |done|exact Hq]. by apply field_line_blocking.
  - apply search_missing in Hs.
    destruct (insert_layout top) as [Hins|(A & Y & -> & HY & Hins)].
    + exists [], (NL :: top). split; [done|]. split; [done|].
      split; [by apply no_section_cons|]. intros v Hv.
      change (version_line v) with (field_line version_key v).
      rewrite Hins, strip_field_line. split; [done|]. by split.
    + apply no_section_app in Hsec as [HsA HsY].
      assert (HeY : eol Y) by (by destruct HY as [->|[B ->]]).
      exists (A ++ [NL]), Y. split; [done|]. split.
      { apply no_section_app. split; [done|]. apply no_section_cons.
        by rewrite andb_false_r. }
      split; [by eapply no_section_eol|]. intros v Hv.
      change (version_line v) with (field_line version_key v).
      rewrite Hins, strip_field_line. split; [by rewrite <- app_assoc|].
      split; [|split; [by rewrite bol_after_snoc|done]].
      assert (Hq : ∃ Z, quiet version_key true (A ++ [NL]) Z).
      { destruct HY as [->|[B ->]].
        - exists []. rewrite app_nil_r in Hs. apply quiet_app. split.
          + by apply quiet_snoc_nl; [apply plain_key_no_newline|].
          + by destruct (bol_after true A).
        - exists (B ++ []).
          replace (A ++ NL :: B) with ((A ++ [NL]) ++ B) in Hs
            by (by rewrite <- app_assoc).
          by apply quiet_app in Hs as [Hs _]. }
      destruct Hq as [Z Hq].
      eapply quiet_cross; [done|by apply field_line_blocking|
                           by rewrite bol_after_snoc|exact Hq].
Qed.

Lemma two_lines_eq o P Q R v t :
  two_lines o P Q R v t
  = if o
    then P ++ field_line version_key v ++ Q ++ field_line lastUpdated_key t ++ R
    else P ++ field_line lastUpdated_key t ++ Q ++ field_line version_key v ++ R.
Proof. done. Qed.

(** After the lastUpdated step the two lines are in a frame that does not
    depend on the values. *)
Lemma patch_lastUpdated_layout A B :
  eol B → no_section true A → no_section true B →
  (∀ v, literal_value v → anchored_at version_key (field_line version_key v) A B) →
  ∃ o P Q R,
    settled o P Q R
    ∧ ∀ v t, literal_value v → literal_value t →
        patch_lastUpdated (A ++ field_line version_key v ++ B) t
        = two_lines o P Q R v t.
Proof.
  intros HB HsA HsB Hanch.
  pose proof plain_version_key as Hkv. pose proof plain_lastUpdated_key as Hkl.
  pose proof (plain_key_no_terminator _ Hkv) as Hltv.
  pose proof (plain_key_no_terminator _ Hkl) as Hltl.
  assert (Hnil : literal_value []) by constructor.
  assert (HbA : bol_after true A = true) by (by destruct (Hanch [] Hnil) as (_ & ? & _)).
  set (L0 := field_line version_key []).
  destruct (field_search lastUpdated_key (A ++ L0 ++ B)) as [[i len]|] eqn:Hs.
  - unfold field_search in Hs.
    destruct (search_found _ _ _ _ _ _ Hs) as (A' & Z & Heq & -> & Hq & Hb' & Hm).
    clear Hs. cbn [Nat.add] in *.
    apply app_eq_inv in Heq as [(k & -> & ->)|(k & -> & Heq)].
    + (* the match starts before the version line *)
      destruct k as [|c k0].
      { exfalso. cbn [app] in Hm. unfold L0 in Hm.
        by rewrite version_not_lastUpdated in Hm. }
      set (k := c :: k0) in *.
      assert (Hk : k ≠ []) by done.
      assert (Hbk : bol_after true k = true).
      { by rewrite (bol_after_suffix _ true) in HbA. }
      assert (Hbl0 : blocking (L0 ++ B)) by (by apply field_line_blocking).
      destruct (match_within _ _ _ _ Hltl Hbl0 Hk Hbk Hm) as [Hlen Hall].
      destruct (match_end _ _ _ Hm) as (_ & _ & Heol).
      rewrite drop_app_le in Heol by lia.
      set (M := take len k). set (k' := drop len k) in *.
      assert (Hkk : k = M ++ k') by (symmetry; apply take_drop).
      assert (Hk' : k' ≠ []).
      { intros E. apply (f_equal length) in E. unfold k' in E.
        rewrite length_drop in E. cbn [length] in E. lia. }
      assert (Hek' : eol k') by (by eapply eol_prefix).
      assert (Hbk' : bol_after true k' = true).
      { rewrite <- Hbk, Hkk. symmetry. by apply bol_after_suffix. }
      apply no_section_app in HsA as [HsA' Hsk].
      rewrite Hkk in Hsk. apply no_section_app in Hsk as [_ Hsk'].
      exists false, A', k', B. split.
      * split; [done|]. split; [done|]. split; [done|]. split; [done|].
        split; [done|]. split; [done|]. split; [by eapply no_section_eol|].
        split; [done|]. intros v t Hv Ht. split.
        -- eapply quiet_cross; [done|by apply field_line_blocking|done|exact Hq].
        -- destruct (Hanch v Hv) as (Hqv & _ & _).
           apply quiet_app in Hqv as [Hq1 Hq2].
           rewrite !quiet_app. split; [|split].
           ++ eapply quiet_cross; [done| |done|exact Hq1].
              rewrite <- ?app_assoc. by apply field_line_blocking.
           ++ apply quiet_line; [done|done|]. apply lastUpdated_not_version.
           ++ rewrite Hkk in Hq2. apply quiet_app in Hq2 as [_ Hq2].
              rewrite bol_after_line. by eapply quiet_false.
      * intros v t Hv Ht.
        assert (Hsv : field_search lastUpdated_key
                        ((A' ++ k) ++ field_line version_key v ++ B)
                      = Some (length A', len)).
        { rewrite <- app_assoc. apply search_at; [|done|].
          - eapply quiet_cross_over; [done| |done|done|exact Hq].
            by apply field_line_blocking.
          - apply Hall. by apply field_line_blocking. }
        unfold patch_lastUpdated. rewrite Hsv. unfold field_replace. rewrite Hsv.
        change (lastUpdated_line t) with (field_line lastUpdated_key t).
        rewrite expand_plain by (by apply field_line_plain).
        rewrite <- !app_assoc, take_app_length, drop_app_add.
        rewrite drop_app_le by lia. by rewrite two_lines_eq.
    + (* the match starts at the version line or after it *)
      apply app_eq_inv in Heq as [(k2 & Hk & ->)|(k2 & -> & ->)].
      * exfalso. destruct k as [|c k0].
        -- cbn [app] in Hk. subst k2. unfold L0 in Hm.
           by rewrite version_not_lastUpdated in Hm.
        -- rewrite (bol_after_suffix _ true) in Hb' by done.
           rewrite bol_after_inside in Hb'; [done| |done].
           pose proof (field_line_no_terminator version_key [] Hkv Hnil) as Hno.
           fold L0 in Hno. rewrite Hk in Hno. by apply Forall_app in Hno as [? _].
      * destruct k2 as [|c k0].
        { exfalso. rewrite app_nil_r in Hb'. unfold L0 in Hb'.
          by rewrite bol_after_field_line in Hb'. }
        set (k2 := c :: k0) in *.
        assert (Hk2 : k2 ≠ []) by done.
        assert (Hbk2 : bol_after true k2 = true).
        { rewrite app_assoc in Hb'. by rewrite (bol_after_suffix _ true) in Hb'. }
        assert (Hek2 : eol k2) by (by eapply eol_prefix).
        destruct (match_end _ _ _ Hm) as (_ & Hlen & Heol).
        set (M := take len Z) in *. set (B' := drop len Z) in *.
        assert (HZ : Z = M ++ B') by (symmetry; apply take_drop).
        apply no_section_app in HsB as [Hsk2 HsZ].
        rewrite HZ in HsZ. apply no_section_app in HsZ as [_ HsB'].
        assert (Hqv : ∀ v, literal_value v →
                  quiet lastUpdated_key true (A ++ field_line version_key v ++ k2) Z).
        { intros v Hv. eapply (quiet_change_line _ _ []); try done;
            try (intros Y; apply version_not_lastUpdated). }
        assert (Hbv : ∀ v, bol_after true (A ++ field_line version_key v ++ k2) = true).
        { intros v. rewrite app_assoc. by rewrite (bol_after_suffix _ true). }
        exists true, A, k2, B'. split.
        -- split; [done|]. split; [done|]. split; [done|]. split; [done|].
           split; [done|]. split; [done|]. split; [done|].
           split; [by eapply no_section_eol|]. intros v t Hv Ht. split.
           ++ destruct (Hanch v Hv) as (Hqa & _ & _).
              eapply quiet_cross; [done|by apply field_line_blocking|done|exact Hqa].
           ++ eapply quiet_cross; [done|by apply field_line_blocking|done|by apply Hqv].
        -- intros v t Hv Ht.
           assert (Hsv : field_search lastUpdated_key
                           (A ++ field_line version_key v ++ k2 ++ Z)
                         = Some (length (A ++ field_line version_key v ++ k2), len)).
           { replace (A ++ field_line version_key v ++ k2 ++ Z)
               with ((A ++ field_line version_key v ++ k2) ++ Z)
               by (by rewrite <- !app_assoc).
             apply search_at; [by apply Hqv|done|done]. }
           unfold patch_lastUpdated. rewrite Hsv. unfold field_replace. rewrite Hsv.
           change (lastUpdated_line t) with (field_line lastUpdated_key t).
           rewrite expand_plain by (by apply field_line_plain).
           replace (A ++ field_line version_key v ++ k2 ++ Z)
             with ((A ++ field_line version_key v ++ k2) ++ Z)
             by (by rewrite <- !app_assoc).
           rewrite take_app_length, drop_app_add. fold B'.
           rewrite two_lines_eq. by rewrite <- !app_assoc.
  - (* no lastUpdated field: the line goes after the version line *)
    apply search_missing in Hs.
    assert (Hqv : ∀ v, literal_value v →
              quiet lastUpdated_key true (A ++ field_line version_key v ++ B) []).
    { intros v Hv. eapply (quiet_change_line _ _ []); try done;
        try (intros Y; apply version_not_lastUpdated). }
    exists true, A, [NL], B. split.
    + split; [done|]. split; [done|]. split; [done|]. split; [done|].
      split; [done|]. split; [done|]. split; [done|]. split; [done|].
      intros v t Hv Ht. split.
      * destruct (Hanch v Hv) as (Hqa & _ & _).
        eapply quiet_cross; [done|by apply field_line_blocking|done|exact Hqa].
      * specialize (Hqv v Hv). apply quiet_app in Hqv as [Hq1 _].
        rewrite (app_assoc A), quiet_app. split; [|by rewrite bol_after_field_line].
        rewrite quiet_app. split.
        -- eapply quiet_cross; [done| |done|exact Hq1].
           rewrite <- ?app_assoc. by apply field_line_blocking.
        -- apply quiet_line; [done|done|]. apply version_not_lastUpdated.
    + intros v t Hv Ht. unfold patch_lastUpdated.
      assert (Hnone : field_search lastUpdated_key
                        (A ++ field_line version_key v ++ B) = None).
      { apply search_none; [done|by apply Hqv]. }
      rewrite Hnone. unfold insertAfterVersionField.
      destruct (replace_anchored version_key v v A B Hkv Hv Hv (Hanch v Hv)) as [-> _].
      change (lastUpdated_line t) with (field_line lastUpdated_key t).
      rewrite strip_field_line, <- length_app, app_assoc.
      rewrite take_app_length, drop_app_length, two_lines_eq.
      by rewrite <- !app_assoc.
Qed.

(** ** The frame of the two lines *)

Lemma two_lines_app o P Q R X v t :
  two_lines o P Q R v t ++ X = two_lines o P Q (R ++ X) v t.
Proof. destruct o; unfold two_lines; by rewrite <- !app_assoc. Qed.

(** The second line, with all that is before it. *)
Lemma two_lines_second o P Q R v t :
  two_lines o P Q R v t
  = if o
    then (P ++ field_line version_key v ++ Q) ++ field_line lastUpdated_key t ++ R
    else (P ++ field_line lastUpdated_key t ++ Q) ++ field_line version_key v ++ R.
Proof. rewrite two_lines_eq. destruct o; by rewrite <- !app_assoc. Qed.

Lemma ends_with_line X key v R :
  ends_with [NL] (X ++ field_line key v ++ R) = ends_with [NL] R.
Proof.
  destruct (ends_with [NL] R) eqn:E.
  - apply ends_with_nl in E as [s0 ->]. apply ends_with_nl.
    exists (X ++ field_line key v ++ s0). by rewrite <- !app_assoc.
  - apply not_true_is_false. intros [s0 Hs]%ends_with_nl.
    destruct R as [|c R _] using rev_ind.
    + rewrite app_nil_r in Hs. apply (f_equal (bol_after true)) in Hs.
      by rewrite bol_after_field_line, bol_after_snoc in Hs.
    + rewrite !app_assoc in Hs. apply app_inj_tail in Hs as [_ ->].
      assert (ends_with [NL] (R ++ [NL]) = true) by (apply ends_with_nl; eauto).
      congruence.
Qed.

Lemma two_lines_ends o P Q R v t :
  ends_with [NL] (two_lines o P Q R v t) = ends_with [NL] R.
Proof. rewrite two_lines_second. destruct o; apply ends_with_line. Qed.

Lemma bol_after_ends b X : ends_with [NL] X = true → bol_after b X = true.
Proof. intros [s0 ->]%ends_with_nl. by rewrite bol_after_snoc. Qed.

Lemma settled_second_bol P L Q :
  Q ≠ [] → bol_after true Q = true → bol_after true (P ++ L ++ Q) = true.
Proof. intros HQ Hb. rewrite app_assoc. by rewrite (bol_after_suffix _ true). Qed.

(** In a settled frame each of the two lines is the first match of its
    pattern. *)
Lemma settled_anchored o P Q R v t :
  settled o P Q R → literal_value v → literal_value t →
  if o then
    anchored_at version_key (field_line version_key v) P
      (Q ++ field_line lastUpdated_key t ++ R)
    ∧ anchored_at lastUpdated_key (field_line lastUpdated_key t)
        (P ++ field_line version_key v ++ Q) R
  else
    anchored_at lastUpdated_key (field_line lastUpdated_key t) P
      (Q ++ field_line version_key v ++ R)
    ∧ anchored_at version_key (field_line version_key v)
        (P ++ field_line lastUpdated_key t ++ Q) R.
Proof.
  intros (HbP & HQ & HeQ & HbQ & HeR & _ & _ & _ & Hq) Hv Ht.
  specialize (Hq v t Hv Ht).
  destruct o; destruct Hq as [Hq1 Hq2];
    (split; [split; [done|split; [done|by apply eol_app]]
            |split; [done|split; [by apply settled_second_bol|done]]]).
Qed.

Lemma settled_no_section o P Q R v t :
  settled o P Q R → literal_value v → literal_value t →
  no_section true (two_lines o P Q R v t).
Proof.
  intros (HbP & HQ & HeQ & HbQ & HeR & HsP & HsQ & HsR & _) Hv Ht.
  pose proof plain_version_key. pose proof plain_lastUpdated_key.
  rewrite two_lines_eq.
  destruct o; rewrite !no_section_app;
    (split; [done|]); (split; [by apply no_section_line|]);
    (split; [by eapply no_section_eol|]);
    (split; [by apply no_section_line|by eapply no_section_eol]).
Qed.

(** A line feed at the end keeps the frame settled. *)
Lemma settled_snoc o P Q R : settled o P Q R → settled o P Q (R ++ [NL]).
Proof.
  intros (HbP & HQ & HeQ & HbQ & HeR & HsP & HsQ & HsR & Hq).
  pose proof plain_version_key as Hkv. pose proof plain_lastUpdated_key as Hkl.
  pose proof (plain_key_no_terminator _ Hkv) as Hltv.
  pose proof (plain_key_no_terminator _ Hkl) as Hltl.
  split; [done|]. split; [done|]. split; [done|]. split; [done|].
  split; [by destruct R|]. split; [done|]. split; [done|]. split.
  { apply no_section_app. split; [done|]. apply no_section_cons.
    by rewrite andb_false_r. }
  intros v t Hv Ht. specialize (Hq v t Hv Ht).
  destruct o; destruct Hq as [Hq1 Hq2]; split.
  - eapply quiet_cross; [done|by apply field_line_blocking|done|exact Hq1].
  - eapply quiet_cross; [done|by apply field_line_blocking|
                         by apply settled_second_bol|exact Hq2].
  - eapply quiet_cross; [done|by apply field_line_blocking|done|exact Hq1].
  - eapply quiet_cross; [done|by apply field_line_blocking|
                         by apply settled_second_bol|exact Hq2].
Qed.

(** The patcher on a settled frame: each line is found and replaced where
    it is. *)
Lemma settled_patch o P Q R v t v' t' :
  settled o P Q R →
  literal_value v → literal_value t → literal_value v' → literal_value t' →
  patch_version (two_lines o P Q R v t) v' = two_lines o P Q R v' t
  ∧ patch_lastUpdated (two_lines o P Q R v' t) t' = two_lines o P Q R v' t'
  ∧ field_text version_key (two_lines o P Q R v t) = Some (version_line v)
  ∧ field_text lastUpdated_key (two_lines o P Q R v t) = Some (lastUpdated_line t).
Proof.
  intros Hset Hv Ht Hv' Ht'.
  pose proof plain_version_key as Hkv. pose proof plain_lastUpdated_key as Hkl.
  pose proof (settled_anchored o P Q R v t Hset Hv Ht) as Ha.
  pose proof (settled_anchored o P Q R v' t Hset Hv' Ht) as Ha'.
  unfold patch_version, patch_lastUpdated.
  change (version_line v') with (field_line version_key v').
  change (lastUpdated_line t') with (field_line lastUpdated_key t').
  change (version_line v) with (field_line version_key v).
  change (lastUpdated_line t) with (field_line lastUpdated_key t).
  destruct o; destruct Ha as [Ha1 Ha2]; destruct Ha' as [Ha1' Ha2'].
  - destruct (replace_anchored _ v v' _ _ Hkv Hv Hv' Ha1) as [Hs1 Hr1].
    destruct (replace_anchored _ t t' _ _ Hkl Ht Ht' Ha2') as [Hs2 Hr2].
    split; [|split; [|split]].
    + rewrite !two_lines_eq. by rewrite Hs1, Hr1.
    + rewrite !two_lines_second. by rewrite Hs2, Hr2.
    + rewrite two_lines_eq. by apply anchored_text.
    + rewrite two_lines_second. by apply anchored_text.
  - destruct (replace_anchored _ v v' _ _ Hkv Hv Hv' Ha2) as [Hs1 Hr1].
    destruct (replace_anchored _ t t' _ _ Hkl Ht Ht' Ha1') as [Hs2 Hr2].
    split; [|split; [|split]].
    + rewrite !two_lines_second. by rewrite Hs1, Hr1.
    + rewrite !two_lines_eq. by rewrite Hs2, Hr2.
    + rewrite two_lines_second. by apply anchored_text.
    + rewrite two_lines_eq. by apply anchored_text.
Qed.

(** The top-level span of a settled frame followed by sections. *)
Lemma settled_boundary o P Q R rest v t :
  settled o P Q R →
  rest = [] ∨ (∃ Y, rest = LBRACKET :: Y) ∧ ends_with [NL] R = true →
  literal_value v → literal_value t →
  topLevelEnd (two_lines o P Q R v t ++ rest) = length (two_lines o P Q R v t).
Proof.
  intros Hset Hrest Hv Ht. apply topLevelEnd_app.
  - by apply settled_no_section.
  - destruct Hrest as [->|[HY HR]]; [by left|]. right. split; [done|].
    apply bol_after_ends. by rewrite two_lines_ends.
Qed.

(** The patcher on a document that starts with a settled frame. *)
Lemma settled_update o P Q R rest v t v' t' :
  settled o P Q R →
  rest = [] ∨ (∃ Y, rest = LBRACKET :: Y) ∧ ends_with [NL] R = true →
  literal_value v → literal_value t → literal_value v' → literal_value t' →
  updateTopLevelTomlFields (two_lines o P Q R v t ++ rest) v' t'
  = two_lines o P Q R v' t' ++ rest.
Proof.
  intros Hset Hrest Hv Ht Hv' Ht'.
  pose proof (settled_boundary o P Q R rest v t Hset Hrest Hv Ht) as Hend.
  destruct (settled_patch o P Q R v t v' t' Hset Hv Ht Hv' Ht') as (Hp1 & Hp2 & _).
  destruct (update_shape (two_lines o P Q R v t ++ rest) v' t') as [-> _].
  unfold patched_top. rewrite Hend, take_app_length, drop_app_length, Hp1, Hp2.
  rewrite two_lines_ends.
  destruct Hrest as [->|[_ ->]]; cbn [length Nat.eqb negb andb].
  - by rewrite !app_nil_r.
  - by rewrite andb_false_r, app_nil_r.
Qed.

(** What the patcher returns, for every document: the two lines in a frame
    that does not depend on the values, and the sections. *)
Lemma update_layout content :
  ∃ o P Q R,
    settled o P Q R
    ∧ (drop (topLevelEnd content) content = []
       ∨ (∃ Y, drop (topLevelEnd content) content = LBRACKET :: Y)
         ∧ ends_with [NL] R = true)
    ∧ ∀ v t, literal_value v → literal_value t →
        final_top content v t = two_lines o P Q R v t
        ∧ updateTopLevelTomlFields content v t
          = two_lines o P Q R v t ++ drop (topLevelEnd content) content.
Proof.
  destruct (top_level_split content) as [Hsec Hrest].
  set (top := take (topLevelEnd content) content) in *.
  set (rest := drop (topLevelEnd content) content) in *.
  destruct (patch_version_layout top Hsec) as (A & B & HB & HsA & HsB & Hver).
  destruct (patch_lastUpdated_layout A B HB HsA HsB (λ v Hv, proj2 (Hver v Hv)))
    as (o & P & Q & R & Hset & Hlu).
  assert (Hnil : literal_value []) by constructor.
  assert (Htop : ∀ v t, literal_value v → literal_value t →
            patched_top content v t = two_lines o P Q R v t).
  { intros v t Hv Ht. unfold patched_top. fold top.
    destruct (Hver v Hv) as [-> _]. by apply Hlu. }
  destruct (decide (rest = [])) as [Hr|Hr].
  - exists o, P, Q, R. split; [done|]. split; [by left|]. intros v t Hv Ht.
    destruct (update_shape content v t) as [-> ->]. fold rest.
    rewrite Hr, Htop by done. cbn [length Nat.eqb negb andb].
    by rewrite !app_nil_r.
  - destruct Hrest as [Hrest|[HY _]]; [done|].
    assert (Hlen : (length rest =? 0)%nat = false).
    { apply Nat.eqb_neq. by destruct rest. }
    destruct (ends_with [NL] R) eqn:E.
    + exists o, P, Q, R. split; [done|]. split; [by right|]. intros v t Hv Ht.
      destruct (update_shape content v t) as [-> ->]. fold rest.
      rewrite Htop, two_lines_ends, E, Hlen by done. cbn [negb andb].
      by rewrite !app_nil_r.
    + exists o, P, Q, (R ++ [NL]). split; [by apply settled_snoc|]. split.
      { right. split; [done|]. apply ends_with_nl. eauto. }
      intros v t Hv Ht.
      destruct (update_shape content v t) as [-> ->]. fold rest.
      rewrite Htop, two_lines_ends, E, Hlen by done. cbn [negb andb].
      by rewrite two_lines_app.
Qed.

(** ** The steps, one by one *)

(** The replacement of the first match is one step. *)
Lemma replace_edit key v s i len :
  plain_key key → literal_value v →
  field_search key s = Some (i, len) →
  one_edit key (field_line key v) s (field_replace key (field_line key v) s).
Proof.
  intros Hk Hv Hs.
  destruct (replace_found _ _ _ _ Hk Hs)
    as (A & M & B & Heq & -> & -> & _ & Hb & HB & Hrep).
  exists A, B. split; [by apply Hrep|]. split; [done|]. split; [done|].
  rewrite Hs. split; [done|].
  rewrite Heq at 2. by rewrite drop_app_length, take_app_length.
Qed.

(** So is the insertion of a line at the start of the span. *)
Lemma insert_start_edit key x s :
  field_search key s = None → strip_final_newline x = x →
  one_edit key x s (insertAtTopLevelStart s x).
Proof.
  intros Hs Hx. unfold one_edit. rewrite Hs.
  destruct (insert_layout s) as [Hins|(A & Y & -> & HY & Hins)].
  - exists [], (NL :: s). rewrite Hins, Hx. split; [done|]. split; [done|].
    split; [done|]. left. by eexists.
  - exists (A ++ [NL]), Y. rewrite Hins, Hx. split; [by rewrite <- app_assoc|].
    split; [by rewrite bol_after_snoc|].
    split; [by destruct HY as [->|[B ->]]|]. right. by eexists.
Qed.

(** So is the insertion of a line after the version line. *)
Lemma insert_after_edit key x s :
  field_search key s = None → strip_final_newline x = x →
  one_edit key x s (insertAfterVersionField s x).
Proof.
  intros Hs Hx. unfold insertAfterVersionField.
  destruct (field_search version_key s) as [[i len]|] eqn:Hv;
    [|by apply insert_start_edit].
  unfold one_edit. rewrite Hs. unfold field_search in Hv.
  destruct (search_found _ _ _ _ _ _ Hv) as (A & Z & Heq & -> & _ & _ & Hm).
  destruct (match_end _ _ _ Hm) as (_ & Hlen & Heol). cbn [Nat.add].
  exists (take (length A + len) s ++ [NL]), (drop (length A + len) s).
  rewrite Hx. split; [by rewrite <- app_assoc|].
  split; [by rewrite bol_after_snoc|]. split.
  - rewrite Heq. by rewrite drop_app_add.
  - right. eexists. split; [done|]. by rewrite take_drop.
Qed.

(** ** What the patcher guarantees for every document *)

(** X21.  For every document and all values without quote, line
    terminator, [#] and [$], the patcher changes the two lines only: the
    result is the top-level span of the input after one step for the
    version and one step for lastUpdated, then at most one line feed, then
    the sections of the input as they were.  A step puts the new line, as a
    whole line, in place of the first match of the field's pattern; where
    the pattern matches nothing, it puts the line and one line feed in, and
    takes nothing out. *)
Theorem patcher_writes_two_lines_only content v t :
  literal_value v → literal_value t →
  let top := take (topLevelEnd content) content in
  let rest := drop (topLevelEnd content) content in
  ∃ top1 top2 nl,
    one_edit version_key (version_line v) top top1
    ∧ one_edit lastUpdated_key (lastUpdated_line t) top1 top2
    ∧ (nl = [] ∨ nl = [NL] ∧ rest ≠ [])
    ∧ updateTopLevelTomlFields content v t = top2 ++ nl ++ rest.
Proof.
  intros Hv Ht top rest.
  exists (patch_version top v), (patched_top content v t).
  destruct (update_shape content v t) as [Hshape _]. cbv zeta in Hshape.
  fold rest in Hshape.
  eexists. split; [|split; [|split; [|by rewrite Hshape, <- app_assoc]]].
  - unfold patch_version.
    change (version_line v) with (field_line version_key v).
    destruct (field_search version_key top) as [[i len]|] eqn:Hs.
    + by eapply replace_edit; [apply plain_version_key| |].
    + apply insert_start_edit; [done|apply strip_field_line].
  - unfold patched_top. fold top. unfold patch_lastUpdated.
    change (lastUpdated_line t) with (field_line lastUpdated_key t).
    destruct (field_search lastUpdated_key (patch_version top v))
      as [[i len]|] eqn:Hs.
    + by eapply replace_edit; [apply plain_lastUpdated_key| |].
    + apply insert_after_edit; [done|apply strip_field_line].
  - destruct (length rest =? 0)%nat eqn:E; cbn [negb andb]; [by left|].
    destruct (ends_with [NL] _); cbn [negb]; [by left|].
    right. split; [done|]. intros Hr. by rewrite Hr in E.
Qed.

(** X22.  After a patch both fields are read back: in the top-level span of
    the result, the first match of the version pattern is the version line
    with the value that was written, and the first match of the lastUpdated
    pattern is the lastUpdated line with the value that was written,
    whatever the document held before. *)
Theorem patched_fields_are_read_back content v t :
  literal_value v → literal_value t →
  let result := updateTopLevelTomlFields content v t in
  field_text version_key (take (topLevelEnd result) result) = Some (version_line v)
  ∧ field_text lastUpdated_key (take (topLevelEnd result) result)
    = Some (lastUpdated_line t).
Proof.
  intros Hv Ht result.
  destruct (update_layout content) as (o & P & Q & R & Hset & Hrest & Hall).
  destruct (Hall v t Hv Ht) as [_ Hr]. unfold result. rewrite Hr.
  rewrite (settled_boundary o P Q R _ v t Hset Hrest Hv Ht), take_app_length.
  by destruct (settled_patch o P Q R v t v t Hset Hv Ht Hv Ht) as (_ & _ & ? & ?).
Qed.

(** X23.  The patcher does not move the sections: the part of the result
    from its first section marker on is the part of the input from its
    first section marker on, and what is before it is the patched top-level
    span. *)
Theorem sections_are_kept content v t :
  literal_value v → literal_value t →
  let result := updateTopLevelTomlFields content v t in
  drop (topLevelEnd result) result = drop (topLevelEnd content) content
  ∧ take (topLevelEnd result) result = final_top content v t.
Proof.
  intros Hv Ht result.
  destruct (update_layout content) as (o & P & Q & R & Hset & Hrest & Hall).
  destruct (Hall v t Hv Ht) as [Hf Hr]. unfold result. rewrite Hr, Hf.
  rewrite (settled_boundary o P Q R _ v t Hset Hrest Hv Ht).
  by rewrite take_app_length, drop_app_length.
Qed.

(** X24.  The last patch wins: patching a patched document gives what
    patching the original document with the last values gives.  With the
    same values twice, the second patch changes nothing. *)
Theorem last_patch_wins content v t v' t' :
  literal_value v → literal_value t → literal_value v' → literal_value t' →
  updateTopLevelTomlFields (updateTopLevelTomlFields content v t) v' t'
  = updateTopLevelTomlFields content v' t'.
Proof.
  intros Hv Ht Hv' Ht'.
  destruct (update_layout content) as (o & P & Q & R & Hset & Hrest & Hall).
  destruct (Hall v t Hv Ht) as [_ ->]. destruct (Hall v' t' Hv' Ht') as [_ ->].
  by apply settled_update.
Qed.

(** ** The theorems on a document *)

Lemma literal_version : literal_value (lit "1.0.0").
Proof. unfold literal_value. by repeat constructor. Defined.

Lemma literal_older_version : literal_value (lit "0.9.0").
Proof. unfold literal_value. by repeat constructor. Defined.

Lemma literal_date : literal_value (lit "2025-06-01").
Proof. unfold literal_value. by repeat constructor. Defined.

Lemma literal_older_date : literal_value (lit "2024-01-31").
Proof. unfold literal_value. by repeat constructor. Defined.

Lemma patcher_writes_two_lines_only_witness :
  literal_value (lit "1.0.0") ∧ literal_value (lit "2025-06-01")
  ∧ ∃ top1 top2 nl,
      one_edit version_key (version_line (lit "1.0.0"))
        (take (topLevelEnd commented_document) commented_document) top1
      ∧ one_edit lastUpdated_key (lastUpdated_line (lit "2025-06-01")) top1 top2
      ∧ updateTopLevelTomlFields commented_document (lit "1.0.0") (lit "2025-06-01")
        = top2 ++ nl ++ drop (topLevelEnd commented_document) commented_document.
Proof.
  split; [exact literal_version|]. split; [exact literal_date|].
  destruct (patcher_writes_two_lines_only commented_document _ _
              literal_version literal_date)
    as (top1 & top2 & nl & H1 & H2 & _ & Hrun).
  exists top1, top2, nl. split; [exact H1|]. split; [exact H2|exact Hrun].
Defined.

Lemma patched_fields_are_read_back_witness :
  literal_value (lit "1.0.0") ∧ literal_value (lit "2025-06-01")
  ∧ let result :=
      updateTopLevelTomlFields commented_document (lit "1.0.0") (lit "2025-06-01") in
    field_text version_key (take (topLevelEnd result) result)
    = Some (version_line (lit "1.0.0"))
    ∧ field_text lastUpdated_key (take (topLevelEnd result) result)
      = Some (lastUpdated_line (lit "2025-06-01")).
Proof.
  split; [exact literal_version|]. split; [exact literal_date|].
  exact (patched_fields_are_read_back commented_document _ _
           literal_version literal_date).
Defined.

Lemma sections_are_kept_witness :
  literal_value (lit "1.0.0") ∧ literal_value (lit "2025-06-01")
  ∧ let result :=
      updateTopLevelTomlFields commented_document (lit "1.0.0") (lit "2025-06-01") in
    drop (topLevelEnd result) result
    = drop (topLevelEnd commented_document) commented_document
    ∧ take (topLevelEnd result) result
      = final_top commented_document (lit "1.0.0") (lit "2025-06-01").
Proof.
  split; [exact literal_version|]. split; [exact literal_date|].
  exact (sections_are_kept commented_document _ _ literal_version literal_date).
Defined.

Lemma last_patch_wins_witness :
  literal_value (lit "0.9.0") ∧ literal_value (lit "2024-01-31")
  ∧ literal_value (lit "1.0.0") ∧ literal_value (lit "2025-06-01")
  ∧ updateTopLevelTomlFields
      (updateTopLevelTomlFields commented_document (lit "0.9.0") (lit "2024-01-31"))
      (lit "1.0.0") (lit "2025-06-01")
    = updateTopLevelTomlFields commented_document (lit "1.0.0") (lit "2025-06-01").
Proof.
  split; [exact literal_older_version|]. split; [exact literal_older_date|].
  split; [exact literal_version|]. split; [exact literal_date|].
  exact (last_patch_wins commented_document _ _ _ _
           literal_older_version literal_older_date literal_version literal_date).
Defined.

End FieldSearchFacts.
